(** * do-not-contact: the organization resolution pipeline

    A shallow embedding of the TypeScript sources:
    - [search.ts]         (Brave search client: rate limiter, candidate
                           ranker, contact-page lookup),
    - [contact-finder.ts] (channel selector applied to an extracted page),
    - [db.ts]             (SQLite store of organizations and attempts),
    - [index.ts]          (the [batch] command that drives a pass).

    A JavaScript string is a sequence of UTF-16 code units.  Names,
    URLs, emails and messages are modelled as [string]: the strings all
    of whose code units are below 256 (ASCII and the Latin-1 supplement),
    on which [Js.toLowerCase] is the lower-casing of JavaScript.  The
    two functions whose result depends on how a name or a file is cut at
    white space (the candidate ranker and [loadOrgs]) are embedded on
    all sequences of code units, [Utf16.ustring], with the full white
    space class of ECMAScript and with the Unicode lower-case mapping of
    the code units from 256 on as a parameter.  [null] and [undefined]
    of an optional string are both [None].  Time is a clock in
    milliseconds, of type [Z]:
    [Date.now()] and SQL's [CURRENT_TIMESTAMP] read it, and awaiting a
    timer or a collaborator advances it.  The collaborators (search
    backend, URL parser, browser) are functions of an environment, so
    every statement holds for whatever they answer. *)

From Stdlib Require Import ZArith NArith List String Ascii Bool Lia Permutation Sorted.
Import ListNotations.

Local Open Scope string_scope.
Local Open Scope list_scope.

(* ================================================================== *)
(** ** JavaScript string primitives used by the sources *)
(* ================================================================== *)

Module Js.

(** Truthiness of a [string | null | undefined]: only a non-empty
    string is truthy. *)
Definition truthy (v : option string) : bool :=
  match v with
  | Some s => negb (s =? "")
  | None => false
  end.

(** The value under a truthiness test: [Some s] exactly when truthy. *)
Definition nonEmpty (v : option string) : option string :=
  if truthy v then v else None.

(** [a || b] on optional strings. *)
Definition or (a b : option string) : option string :=
  if truthy a then a else b.

(** [ch.toLowerCase()] on one code unit below 256: the letters A-Z
    (65-90) and the Latin-1 capitals U+00C0-U+00DE (192-222) other than
    the multiplication sign U+00D7 (215) move up by 32; every other code
    unit below 256 is its own lower case. *)
Definition lowerChar (c : ascii) : ascii :=
  let n := nat_of_ascii c in
  if ((65 <=? n)%nat && (n <=? 90)%nat)
     || ((192 <=? n)%nat && (n <=? 222)%nat && negb (n =? 215)%nat)
  then ascii_of_nat (n + 32) else c.

(** [s.toLowerCase()]. *)
Fixpoint toLowerCase (s : string) : string :=
  match s with
  | EmptyString => EmptyString
  | String c r => String (lowerChar c) (toLowerCase r)
  end.

(** [s.startsWith(p)]. *)
Definition startsWith (s p : string) : bool := String.prefix p s.

(** [s.includes(sub)]: [sub] occurs somewhere in [s]. *)
Fixpoint includes (s sub : string) : bool :=
  String.prefix sub s
  || match s with
     | EmptyString => false
     | String _ r => includes r sub
     end.

(** [l.slice(0, k)] for an integer [k]: the first [k] elements, or all
    but the last [-k] when [k] is negative. *)
Definition sliceTo {A} (l : list A) (k : Z) : list A :=
  if (k <? 0)%Z then firstn (List.length l - Z.to_nat (- k)) l
  else firstn (Z.to_nat k) l.

End Js.

(* ================================================================== *)
(** ** JavaScript strings as UTF-16 code units *)
(* ================================================================== *)

Module Utf16.

(** A JavaScript string with no restriction on its characters: the list
    of its UTF-16 code units.  [List.length] is its [length]. *)
Definition ustring := list N.

(** A string of [string], as its code units. *)
Definition ofString (s : string) : ustring :=
  map N_of_ascii (list_ascii_of_string s).

(** The regular-expression class [\s], which is also what [trim()]
    removes: WhiteSpace and LineTerminator of ECMAScript, that is TAB,
    LF, VT, FF, CR (9-13), SP (32), NBSP (U+00A0), U+1680,
    U+2000-U+200A, U+2028, U+2029, U+202F, U+205F, U+3000 and U+FEFF. *)
Definition isSpace (c : N) : bool :=
  ((9 <=? c) && (c <=? 13)
   || (c =? 32) || (c =? 160) || (c =? 5760)
   || ((8192 <=? c) && (c <=? 8202))
   || (c =? 8232) || (c =? 8233) || (c =? 8239) || (c =? 8287)
   || (c =? 12288) || (c =? 65279))%N.

(** [s.split(/\s+/)]: cut at every maximal run of white space.  [cur]
    holds the piece being read (reversed), [sep] tells that the previous
    code unit belonged to a separator run.  As in JavaScript a leading or
    trailing run yields an empty first or last piece, and the empty
    string yields one empty piece. *)
Fixpoint splitFrom (s : ustring) (cur : list N) (sep : bool) : list ustring :=
  match s with
  | [] => [rev cur]
  | c :: r =>
      if isSpace c then
        if sep then splitFrom r cur true
        else rev cur :: splitFrom r [] true
      else splitFrom r (c :: cur) false
  end.

Definition splitSpaces (s : ustring) : list ustring := splitFrom s [] false.

(** The line feed, [\n]. *)
Definition newline : N := 10%N.

(** [s.split("\n")]: cut at every line feed; [cur] holds the piece being
    read (reversed).  The empty string yields one empty piece. *)
Fixpoint splitLinesFrom (s : ustring) (cur : list N) : list ustring :=
  match s with
  | [] => [rev cur]
  | c :: r =>
      if (c =? newline)%N then rev cur :: splitLinesFrom r []
      else splitLinesFrom r (c :: cur)
  end.

Definition splitLines (s : ustring) : list ustring := splitLinesFrom s [].

(** Dropping the white space at the front of a string. *)
Fixpoint dropSpaces (l : ustring) : ustring :=
  match l with
  | [] => []
  | c :: r => if isSpace c then dropSpaces r else l
  end.

(** [s.trim()]: drop the white space at the front, then at the back. *)
Definition trim (s : ustring) : ustring :=
  rev (dropSpaces (rev (dropSpaces s))).

(** [s.startsWith(p)]. *)
Fixpoint startsWith (s p : ustring) : bool :=
  match p, s with
  | [], _ => true
  | _ :: _, [] => false
  | a :: p', b :: s' => (a =? b)%N && startsWith s' p'
  end.

(** [s.includes(sub)]: [sub] occurs somewhere in [s]. *)
Fixpoint includes (s sub : ustring) : bool :=
  startsWith s sub
  || match s with
     | [] => false
     | _ :: r => includes r sub
     end.

(** The lower case of a code unit below 256, as [Js.lowerChar]. *)
Definition lowerUnit (c : N) : N :=
  if (((65 <=? c) && (c <=? 90))
      || ((192 <=? c) && (c <=? 222) && negb (c =? 215)))%N
  then (c + 32)%N else c.

Section Lower.

(** The Unicode lower-case mapping of the code units from 256 on, which
    is a table of the JavaScript runtime and no part of the repository:
    [beyond before c after] is what the code unit [c] becomes when the
    code units [before] precede it and [after] follow it in the string
    (the neighbours matter to the halves of a surrogate pair and to the
    Greek final sigma).  The result may be longer than one code unit:
    U+0130 becomes U+0069 U+0307. *)
Variable beyond : ustring -> N -> ustring -> ustring.

(** [s.toLowerCase()], with [before] the code units already passed. *)
Fixpoint lowerFrom (before s : ustring) : ustring :=
  match s with
  | [] => []
  | c :: after =>
      (if (c <? 256)%N then [lowerUnit c] else beyond before c after)
      ++ lowerFrom (before ++ [c]) after
  end.

Definition toLowerCase (s : ustring) : ustring := lowerFrom [] s.

End Lower.

(** The mapping that leaves every code unit from 256 on as it is. *)
Definition unmapped : ustring -> N -> ustring -> ustring :=
  fun _ c _ => [c].

(** A mapping that lower-cases U+0130 (304, capital I with dot above) as
    Unicode does, to U+0069 U+0307 (105, 775), and leaves the other code
    units from 256 on as they are. *)
Definition dottedI : ustring -> N -> ustring -> ustring :=
  fun _ c _ => if (c =? 304)%N then [105; 775]%N else [c].

End Utf16.

(* ================================================================== *)
(** ** contact-finder.ts: the channel selector *)
(* ================================================================== *)

Module ContactFinder.

Inductive ContactType := CEmail | CForm | CBoth | CNone.

Definition ContactType_eqb (a b : ContactType) : bool :=
  match a, b with
  | CEmail, CEmail | CForm, CForm | CBoth, CBoth | CNone, CNone => true
  | _, _ => false
  end.

(** The fields of [ContactSchema] that the code reads ([phoneNumbers] is
    never used). *)
Record Extracted := mkExtracted {
  emails : list string;
  hasContactForm : bool;
  formAction : option string
}.

(** What [goto] followed by [page.extract] does for a URL: it throws
    (navigation failure, timeout) with a message, or yields the data. *)
Inductive PageOutcome :=
| Threw (message : string)
| Page (extracted : Extracted).

Record ContactInfo := mkContactInfo {
  orgName : string;
  contactUrl : string;
  email : option string;
  formUrl : option string;
  contactType : ContactType;
  error : option string
}.

(** Lines 47-58: "Determine contact type". *)
Definition determineContactType (hasEmail hasForm : bool) : ContactType :=
  if hasEmail && hasForm then CBoth
  else if hasEmail then CEmail
  else if hasForm then CForm
  else CNone.

Definition priorityPrefixes : list string :=
  ["info@"; "contact@"; "support@"; "help@"; "hello@"].

(** [extracted.emails.find((e) => e.toLowerCase().startsWith(prefix))]. *)
Definition findByPrefix (prefix : string) (es : list string) : option string :=
  find (fun e => Js.startsWith (Js.toLowerCase e) prefix) es.

(** The [for (const prefix of priorityPrefixes)] loop with its [break]. *)
Fixpoint scanPrefixes (prefixes : list string) (es : list string) : option string :=
  match prefixes with
  | [] => None
  | prefix :: rest =>
      let m := findByPrefix prefix es in
      if Js.truthy m then m else scanPrefixes rest es
  end.

(** Lines 60-74: "Pick the best email". *)
Definition pickBestEmail (es : list string) : option string :=
  if (0 <? List.length es)%nat then
    let bestEmail := scanPrefixes priorityPrefixes es in
    if negb (Js.truthy bestEmail) then nth_error es 0 else bestEmail
  else None.

(** Line 80: [extracted.formAction || (hasForm ? contactUrl : null)]. *)
Definition selectFormUrl (x : Extracted) (url : string) : option string :=
  Js.or (formAction x) (if hasContactForm x then Some url else None).

(** [extractContactInfo], given what the browser did for [url]. *)
Definition extractContactInfo (page : PageOutcome) (org url : string) : ContactInfo :=
  match page with
  | Page x =>
      let hasEmail := (0 <? List.length (emails x))%nat in
      let hasForm := hasContactForm x in
      {| orgName := org;
         contactUrl := url;
         email := pickBestEmail (emails x);
         formUrl := selectFormUrl x url;
         contactType := determineContactType hasEmail hasForm;
         error := None |}
  | Threw message =>
      {| orgName := org;
         contactUrl := url;
         email := None;
         formUrl := None;
         contactType := CNone;
         error := Some message |}
  end.

End ContactFinder.

(* ================================================================== *)
(** ** search.ts: the Brave search client *)
(* ================================================================== *)

Module Search.

Record BraveWebResult := mkResult {
  title : string;
  url : string;
  description : string
}.

Inductive Confidence := High | Medium | Low.

Record ContactPageResult := mkContactPage {
  orgName : string;
  websiteUrl : option string;
  contactUrl : option string;
  contactTitle : option string;
  error : option string
}.

(** The mutable part of a [BraveSearch] instance. *)
Record BraveSearch := mkClient { lastRequestTime : Z }.

(** [private minDelayMs = 1100]. *)
Definition minDelayMs : Z := 1100.

(** [new BraveSearch(apiKey)]: [lastRequestTime = 0]. *)
Definition newClient : BraveSearch := {| lastRequestTime := 0 |}.

(** What one [rateLimit()] call did: the delay handed to [setTimeout]
    (if any), the clock when the call returned, and the client with its
    new stamp. *)
Record Limited := mkLimited {
  slept : option Z;
  resumedAt : Z;
  client : BraveSearch
}.

(** [rateLimit()] entered when the clock reads [now].  A timer armed for
    [d] ms fires after [d + lag] ms, [lag] being the scheduler's
    overshoot; [Date.now()] is then read again for the stamp. *)
Definition rateLimit (c : BraveSearch) (now lag : Z) : Limited :=
  let elapsed := (now - lastRequestTime c)%Z in
  if (elapsed <? minDelayMs)%Z then
    let d := (minDelayMs - elapsed)%Z in
    let t := (now + d + lag)%Z in
    {| slept := Some d; resumedAt := t; client := {| lastRequestTime := t |} |}
  else
    {| slept := None; resumedAt := now; client := {| lastRequestTime := now |} |}.

(** A JavaScript quotient of two array lengths. *)
Inductive Quotient :=
| NaN                       (* 0 / 0 *)
| Infinite                  (* m / 0, m > 0 *)
| Frac (num den : nat).     (* m / n, n > 0 *)

Definition divide (m n : nat) : Quotient :=
  match n, m with
  | O, O => NaN
  | O, _ => Infinite
  | _, _ => Frac m n
  end.

(** [q >= k/10] for the literals 0.7 and 0.4.  Every comparison with
    [NaN] is false.  For lengths of real arrays the rounded double
    quotient compares with the rounded literal as the exact fractions
    do. *)
Definition geTenths (q : Quotient) (k : nat) : bool :=
  match q with
  | NaN => false
  | Infinite => true
  | Frac m n => (k * n <=? 10 * m)%nat
  end.

(** [assessConfidence], lines 117-136, on arbitrary JavaScript strings:
    its three local constants, then the tiers.  [title] and [url] are
    [result.title] and [result.url]. *)
Module Ranker.
Section Unicode.

Variable beyond : Utf16.ustring -> N -> Utf16.ustring -> Utf16.ustring.

Definition nameWords (orgName : Utf16.ustring) : list Utf16.ustring :=
  let nameLower := Utf16.toLowerCase beyond orgName in
  filter (fun w => (2 <? List.length w)%nat) (Utf16.splitSpaces nameLower).

Definition matchingWords (orgName title url : Utf16.ustring)
  : list Utf16.ustring :=
  let titleLower := Utf16.toLowerCase beyond title in
  let urlLower := Utf16.toLowerCase beyond url in
  filter (fun word => Utf16.includes titleLower word
                      || Utf16.includes urlLower word)
         (nameWords orgName).

Definition matchRatio (orgName title url : Utf16.ustring) : Quotient :=
  divide (List.length (matchingWords orgName title url))
         (List.length (nameWords orgName)).

Definition assessConfidence (orgName title url : Utf16.ustring) : Confidence :=
  if geTenths (matchRatio orgName title url) 7 then High
  else if geTenths (matchRatio orgName title url) 4 then Medium
  else Low.

End Unicode.
End Ranker.

(** [assessConfidence] on the strings of [string], as [findOrgWebsite]
    calls it: no code unit of theirs is 256 or more, so the mapping of
    those is never looked up. *)
Definition assessConfidence (org : string) (result : BraveWebResult) : Confidence :=
  Ranker.assessConfidence Utf16.unmapped
    (Utf16.ofString org)
    (Utf16.ofString (title result)) (Utf16.ofString (url result)).

(** What [fetch] and [response.json()] do for a query. *)
Inductive FetchOutcome :=
| FetchThrew (message : string)        (* network failure, bad JSON *)
| HttpError (status text : string)     (* [!response.ok] *)
| Json (results : list BraveWebResult). (* [data.web?.results ?? []] *)

(** [new URL(u).origin]: a [TypeError] with a message, or the origin. *)
Inductive UrlOutcome :=
| BadUrl (message : string)
| Origin (origin : string).

Definition contactKeywords : list string :=
  ["contact"; "about"; "help"; "support"; "reach"; "get-in-touch"].

Definition isContactPage (result : BraveWebResult) : bool :=
  let urlLower := Js.toLowerCase (url result) in
  let titleLower := Js.toLowerCase (title result) in
  existsb (fun kw => Js.includes urlLower kw || Js.includes titleLower kw)
          contactKeywords.

Section ContactPage.

(** The outside world of the client: [new URL(u).origin], the backend's
    answer to a query and how long it takes, and the overshoot of the
    timer armed by [rateLimit]. *)
Variable urlOrigin : string -> UrlOutcome.
Variable fetch : string -> FetchOutcome.
Variable fetchMs : string -> Z.
Variable timerLag : Z.

(** The [for (const result of results)] loop of [findContactPage]:
    [inl] is the message of the exception that left the loop, [inr]
    the final [(websiteUrl, bestResult)]. *)
Fixpoint scanResults (results : list BraveWebResult) (websiteUrl : option string)
  : string + (option string * option BraveWebResult) :=
  match results with
  | [] => inr (websiteUrl, None)
  | result :: rest =>
      let firstSeen :=
        if negb (Js.truthy websiteUrl) then
          match urlOrigin (url result) with
          | BadUrl message => inl message
          | Origin o => inr (Some o)
          end
        else inr websiteUrl in
      match firstSeen with
      | inl message => inl message
      | inr websiteUrl' =>
          if isContactPage result then inr (websiteUrl', Some result)
          else scanResults rest websiteUrl'
      end
  end.

Definition failedLookup (org message : string) : ContactPageResult :=
  {| orgName := org; websiteUrl := None; contactUrl := None;
     contactTitle := None; error := Some message |}.

(** The [try] block of [findContactPage], given the backend's answer. *)
Definition lookupContactPage (answer : FetchOutcome) (org : string) : ContactPageResult :=
  match answer with
  | FetchThrew message => failedLookup org message
  | HttpError status text =>
      failedLookup org ("API error " ++ status ++ ": " ++ text)
  | Json results =>
      match results with
      | [] => failedLookup org "No results found"
      | first :: _ =>
          match scanResults results None with
          | inl message => failedLookup org message
          | inr (websiteUrl, bestResult) =>
              let best := match bestResult with Some r => r | None => first end in
              {| orgName := org; websiteUrl := websiteUrl;
                 contactUrl := Some (url best);
                 contactTitle := Some (title best);
                 error := None |}
          end
      end
  end.

(** What the caller of [findContactPage] gets back, the client it left
    behind and the clock when the promise resolved. *)
Record Lookup := mkLookup {
  found : ContactPageResult;
  clientAfter : BraveSearch;
  returnedAt : Z
}.

(** [findContactPage(orgName)] called on client [c] when the clock reads
    [now]. *)
Definition findContactPage (c : BraveSearch) (now : Z) (org : string) : Lookup :=
  let limited := rateLimit c now timerLag in
  let query := (org ++ " contact us")%string in
  {| found := lookupContactPage (fetch query) org;
     clientAfter := client limited;
     returnedAt := (resumedAt limited + fetchMs query)%Z |}.

End ContactPage.

(** The result of [findOrgWebsite]. *)
Module Sr.
Record SearchResult := mk {
  orgName : string;
  url : option string;
  title : option string;
  confidence : Confidence;
  error : option string
}.
End Sr.
Abbreviation SearchResult := Sr.SearchResult.

Section Website.

Variable fetch : string -> FetchOutcome.
Variable fetchMs : string -> Z.
Variable timerLag : Z.

Definition failedSearch (org message : string) : SearchResult :=
  {| Sr.orgName := org; Sr.url := None; Sr.title := None;
     Sr.confidence := Low; Sr.error := Some message |}.

(** The [try] block of [findOrgWebsite], given the backend's answer. *)
Definition lookupWebsite (answer : FetchOutcome) (org : string) : SearchResult :=
  match answer with
  | FetchThrew message => failedSearch org message
  | HttpError status text =>
      failedSearch org ("API error " ++ status ++ ": " ++ text)
  | Json results =>
      match results with
      | [] => failedSearch org "No results found"
      | topResult :: _ =>
          {| Sr.orgName := org;
             Sr.url := Some (url topResult);
             Sr.title := Some (title topResult);
             Sr.confidence := assessConfidence org topResult;
             Sr.error := None |}
      end
  end.

(** [findOrgWebsite(orgName)] called on client [c] when the clock reads
    [now]: the result, the client it left behind and the clock when the
    promise resolved. *)
Definition findOrgWebsite (c : BraveSearch) (now : Z) (org : string)
  : SearchResult * BraveSearch * Z :=
  let limited := rateLimit c now timerLag in
  let query := (org ++ " nonprofit official website")%string in
  (lookupWebsite (fetch query) org, client limited,
   (resumedAt limited + fetchMs query)%Z).

End Website.

End Search.

(* ================================================================== *)
(** ** db.ts: the SQLite state store *)
(* ================================================================== *)

Module Db.

Import ContactFinder.

Inductive Status := Pending | Success | Failed | Manual.

Definition Status_eqb (a b : Status) : bool :=
  match a, b with
  | Pending, Pending | Success, Success | Failed, Failed | Manual, Manual => true
  | _, _ => false
  end.

(** A row of [organizations]. *)
Module Org.
Record Organization := mk {
  id : Z;
  name : string;
  website : option string;
  contact_type : option ContactType;
  contact_value : option string;
  status : Status;
  error_message : option string;
  attempts : Z;
  last_attempt_at : option Z;
  created_at : Z
}.
End Org.
Abbreviation Organization := Org.Organization.

Inductive AttemptType := ASearch | AContactFind | AEmail | AForm.

(** The objects the callers pass as [details]; the store keeps their
    [JSON.stringify] image, modelled by the value itself. *)
Inductive Details :=
| ErrorDetails (error : option string)
| UrlDetails (url : string)
| ChannelDetails (type : ContactType) (email formUrl : option string).

(** A row of [attempts]. *)
Module Att.
Record Attempt := mk {
  id : Z;
  org_id : Z;
  attempt_type : AttemptType;
  success : bool;
  details : option Details;
  screenshot_path : option string;
  created_at : Z
}.
End Att.
Abbreviation Attempt := Att.Attempt.

(** The two tables, rows in insertion order. *)
Record Database := mkDb {
  organizations : list Organization;
  attempts : list Attempt
}.

Definition emptyDb : Database := {| organizations := []; attempts := [] |}.

(** The rowid SQLite gives to a new row of an [INTEGER PRIMARY KEY]
    table: one more than the largest in use. *)
Definition nextId (ids : list Z) : Z := (1 + fold_right Z.max 0 ids)%Z.

(** [SELECT * FROM organizations WHERE name = ?]. *)
Definition getOrg (n : string) (db : Database) : option Organization :=
  find (fun o => Org.name o =? n) (organizations db).

(** [INSERT OR IGNORE INTO organizations (name) VALUES (?)] at time
    [now]; the boolean is [result.changes > 0]. *)
Definition insertOrIgnore (now : Z) (n : string) (db : Database) : Database * bool :=
  match getOrg n db with
  | Some _ => (db, false)
  | None =>
      ({| organizations :=
            organizations db ++
            [ {| Org.id := nextId (map Org.id (organizations db));
                 Org.name := n;
                 Org.website := None;
                 Org.contact_type := None;
                 Org.contact_value := None;
                 Org.status := Pending;
                 Org.error_message := None;
                 Org.attempts := 0;
                 Org.last_attempt_at := None;
                 Org.created_at := now |} ];
          attempts := attempts db |}, true)
  end.

Fixpoint importOrgs (now : Z) (names : list string) (db : Database) : Database * Z :=
  match names with
  | [] => (db, 0%Z)
  | n :: rest =>
      let '(db1, changed) := insertOrIgnore now n db in
      let '(db2, count) := importOrgs now rest db1 in
      (db2, if changed then (count + 1)%Z else count)
  end.

(** [ORDER BY name] (binary collation). *)
Fixpoint insertByName (o : Organization) (l : list Organization) : list Organization :=
  match l with
  | [] => [o]
  | x :: r =>
      if String.leb (Org.name o) (Org.name x) then o :: l
      else x :: insertByName o r
  end.

Definition orderByName (l : list Organization) : list Organization :=
  fold_right insertByName [] l.

Definition getOrgsByStatus (s : Status) (db : Database) : list Organization :=
  orderByName (filter (fun o => Status_eqb (Org.status o) s) (organizations db)).

(** The [data] argument of [updateOrgContact]; an omitted optional
    field is [None]. *)
Record ContactUpdate := mkUpdate {
  website : option string;
  contact_type : option ContactType;
  contact_value : option string;
  status : Status;
  error_message : option string
}.

(** SQL [COALESCE(a, b)]. *)
Definition coalesce {A} (a b : option A) : option A :=
  match a with Some _ => a | None => b end.

(** The [SET] clause of [updateOrgContact] on one row, with
    [CURRENT_TIMESTAMP = now]. *)
Definition setContact (now : Z) (data : ContactUpdate) (o : Organization) : Organization :=
  {| Org.id := Org.id o;
     Org.name := Org.name o;
     Org.website := coalesce (website data) (Org.website o);
     Org.contact_type := contact_type data;
     Org.contact_value := contact_value data;
     Org.status := status data;
     Org.error_message := error_message data;
     Org.attempts := (Org.attempts o + 1)%Z;
     Org.last_attempt_at := Some now;
     Org.created_at := Org.created_at o |}.

Definition updateOrgContact (now : Z) (n : string) (data : ContactUpdate)
           (db : Database) : Database :=
  {| organizations :=
       map (fun o => if Org.name o =? n then setContact now data o else o)
           (organizations db);
     attempts := attempts db |}.

Definition clearStatus (o : Organization) : Organization :=
  {| Org.id := Org.id o;
     Org.name := Org.name o;
     Org.website := Org.website o;
     Org.contact_type := Org.contact_type o;
     Org.contact_value := Org.contact_value o;
     Org.status := Pending;
     Org.error_message := None;
     Org.attempts := Org.attempts o;
     Org.last_attempt_at := Org.last_attempt_at o;
     Org.created_at := Org.created_at o |}.

Definition resetOrg (n : string) (db : Database) : Database :=
  {| organizations :=
       map (fun o => if Org.name o =? n then clearStatus o else o)
           (organizations db);
     attempts := attempts db |}.

Definition logAttempt (now : Z) (n : string) (attemptType : AttemptType)
           (success : bool) (details : option Details)
           (screenshotPath : option string) (db : Database) : Database :=
  match getOrg n db with
  | None => db
  | Some org =>
      {| organizations := organizations db;
         attempts :=
           attempts db ++
           [ {| Att.id := nextId (map Att.id (attempts db));
                Att.org_id := Org.id org;
                Att.attempt_type := attemptType;
                Att.success := success;
                Att.details := details;
                Att.screenshot_path := screenshotPath;
                Att.created_at := now |} ] |}
  end.

(** The attempt rows of one organization, oldest first. *)
Definition attemptsOf (orgId : Z) (db : Database) : list Attempt :=
  filter (fun a => (Att.org_id a =? orgId)%Z) (attempts db).

(** [SELECT * FROM organizations WHERE id = ?]. *)
Definition getOrgById (i : Z) (db : Database) : option Organization :=
  find (fun o => (Org.id o =? i)%Z) (organizations db).

(** [SELECT * FROM organizations ORDER BY name]. *)
Definition getAllOrgs (db : Database) : list Organization :=
  orderByName (organizations db).

(** [UPDATE organizations SET status = 'pending', error_message = NULL]. *)
Definition resetAllOrgs (db : Database) : Database :=
  {| organizations := map clearStatus (organizations db);
     attempts := attempts db |}.

(** The object returned by [getStats]. *)
Module Stats.
Record Stats := mk {
  total : Z;
  pending : Z;
  success : Z;
  failed : Z;
  manual : Z;
  withEmail : Z;
  withForm : Z
}.
End Stats.

(** SQL [SUM(CASE WHEN p THEN 1 ELSE 0 END)] over the rows: [NULL] on an
    empty table. *)
Definition sumCase (p : Organization -> bool) (rows : list Organization) : option Z :=
  match rows with
  | [] => None
  | _ :: _ => Some (fold_right (fun o acc => ((if p o then 1 else 0) + acc)%Z) 0%Z rows)
  end.

(** [v ?? 0]. *)
Definition orZero (v : option Z) : Z :=
  match v with Some z => z | None => 0%Z end.

(** [contact_type IN (...)]; a [NULL] contact type is in no list. *)
Definition contactTypeIn (ts : list ContactType) (o : Organization) : bool :=
  match Org.contact_type o with
  | Some c => existsb (ContactType_eqb c) ts
  | None => false
  end.

Definition getStats (db : Database) : Stats.Stats :=
  let rows := organizations db in
  let statusIs s := fun o => Status_eqb (Org.status o) s in
  {| Stats.total := Z.of_nat (List.length rows);
     Stats.pending := orZero (sumCase (statusIs Pending) rows);
     Stats.success := orZero (sumCase (statusIs Success) rows);
     Stats.failed := orZero (sumCase (statusIs Failed) rows);
     Stats.manual := orZero (sumCase (statusIs Manual) rows);
     Stats.withEmail := orZero (sumCase (contactTypeIn [CEmail; CBoth]) rows);
     Stats.withForm := orZero (sumCase (contactTypeIn [CForm; CBoth]) rows) |}.

End Db.

(* ================================================================== *)
(** ** index.ts: the [batch] command *)
(* ================================================================== *)

Module Cli.

Import ContactFinder Db.

(** The collaborators of a pass: the search backend, URL parsing, the
    browser ([goto] then [extract], by URL, with the duration of the whole
    [extractContactInfo] call) and the timer overshoot. *)
Record Env := mkEnv {
  fetch : string -> Search.FetchOutcome;
  fetchMs : string -> Z;
  urlOrigin : string -> Search.UrlOutcome;
  browse : string -> PageOutcome;
  browseMs : string -> Z;
  timerLag : Z
}.

(** Calls that left the process, in order. *)
Inductive Event :=
| Searched (org : string)
| Visited (org url : string).

Record State := mkState {
  db : Database;
  search : Search.BraveSearch;
  clock : Z;
  trace : list Event
}.

(** The state in which the loop of [batch] starts on database [d]. *)
Definition start (d : Database) (now : Z) : State :=
  {| db := d; search := Search.newClient; clock := now; trace := [] |}.

(** One iteration of [for (const org of pendingOrgs)], lines 394-458. *)
Definition processOrg (env : Env) (st : State) (org : Organization) : State :=
  let name := Org.name org in
  let looked :=
    Search.findContactPage (urlOrigin env) (fetch env) (fetchMs env) (timerLag env)
                           (search st) (clock st) name in
  let searchResult := Search.found looked in
  let t1 := Search.returnedAt looked in
  let trace1 := trace st ++ [Searched name] in
  match Js.nonEmpty (Search.contactUrl searchResult) with
  | None =>
      let db1 :=
        updateOrgContact t1 name
          {| website := None;
             contact_type := Some CNone;
             contact_value := None;
             status := Failed;
             error_message := Search.error searchResult |} (db st) in
      let db2 :=
        logAttempt t1 name ASearch false
                   (Some (ErrorDetails (Search.error searchResult))) None db1 in
      {| db := db2; search := Search.clientAfter looked; clock := t1; trace := trace1 |}
  | Some contactUrl =>
      let db1 :=
        logAttempt t1 name ASearch true (Some (UrlDetails contactUrl)) None (db st) in
      let contactInfo := extractContactInfo (browse env contactUrl) name contactUrl in
      let t2 := (t1 + browseMs env contactUrl)%Z in
      let trace2 := trace1 ++ [Visited name contactUrl] in
      if Js.truthy (error contactInfo) then
        let db2 :=
          updateOrgContact t2 name
            {| website := Search.websiteUrl searchResult;
               contact_type := Some CNone;
               contact_value := None;
               status := Failed;
               error_message := error contactInfo |} db1 in
        let db3 :=
          logAttempt t2 name AContactFind false
                     (Some (ErrorDetails (error contactInfo))) None db2 in
        {| db := db3; search := Search.clientAfter looked; clock := t2; trace := trace2 |}
      else
        let contactValue := Js.or (email contactInfo) (formUrl contactInfo) in
        let status :=
          if ContactType_eqb (contactType contactInfo) CNone then Manual else Success in
        let db2 :=
          updateOrgContact t2 name
            {| website := Search.websiteUrl searchResult;
               contact_type := Some (contactType contactInfo);
               contact_value := contactValue;
               status := status;
               error_message := None |} db1 in
        let db3 :=
          logAttempt t2 name AContactFind (Status_eqb status Success)
                     (Some (ChannelDetails (contactType contactInfo)
                                           (email contactInfo) (formUrl contactInfo)))
                     None db2 in
        {| db := db3; search := Search.clientAfter looked; clock := t2; trace := trace2 |}
  end.

(** The loop over [getOrgsByStatus("pending")], read once before it
    starts. *)
Definition batchFrom (env : Env) (st : State) : State :=
  fold_left (processOrg env) (getOrgsByStatus Pending (db st)) st.

(** The [batch] command on database [d], started when the clock reads
    [now]. *)
Definition batch (env : Env) (d : Database) (now : Z) : State :=
  batchFrom env (start d now).

(** [loadOrgs], lines 47-58, on the text of the file.  [limit] is the
    number handed over by the caller: [None] when it is [undefined] or
    [NaN] (what [parseInt] gives for a text that is no number), which the
    test [if (limit)] treats like 0. *)
Definition loadOrgs (content : Utf16.ustring) (limit : option Z)
  : list Utf16.ustring :=
  let orgs :=
    filter (fun line => (0 <? List.length line)%nat)
           (map Utf16.trim (Utf16.splitLines content)) in
  match limit with
  | Some k => if (k =? 0)%Z then orgs else Js.sliceTo orgs k
  | None => orgs
  end.

(** The variables of the [find-contacts] loop: the [results] array, the
    search client and the clock. *)
Module Probe.
Record Probe := mk {
  results : list ContactInfo;
  search : Search.BraveSearch;
  clock : Z
}.
End Probe.

(** One iteration of the loop of [find-contacts], lines 206-250. *)
Definition findContactsOrg (env : Env) (st : Probe.Probe) (org : string) : Probe.Probe :=
  let looked :=
    Search.findContactPage (urlOrigin env) (fetch env) (fetchMs env) (timerLag env)
                           (Probe.search st) (Probe.clock st) org in
  let searchResult := Search.found looked in
  let t1 := Search.returnedAt looked in
  match Js.nonEmpty (Search.contactUrl searchResult) with
  | None =>
      {| Probe.results :=
           Probe.results st ++
           [ {| orgName := org;
                contactUrl := "";
                email := None;
                formUrl := None;
                contactType := CNone;
                error := Search.error searchResult |} ];
         Probe.search := Search.clientAfter looked;
         Probe.clock := t1 |}
  | Some contactUrl =>
      let contactInfo := extractContactInfo (browse env contactUrl) org contactUrl in
      {| Probe.results := Probe.results st ++ [contactInfo];
         Probe.search := Search.clientAfter looked;
         Probe.clock := (t1 + browseMs env contactUrl)%Z |}
  end.

(** The [find-contacts] command on the names [orgs], started when the
    clock reads [now]. *)
Definition findContacts (env : Env) (orgs : list string) (now : Z) : Probe.Probe :=
  fold_left (findContactsOrg env) orgs
            {| Probe.results := []; Probe.search := Search.newClient;
               Probe.clock := now |}.

End Cli.

(* ================================================================== *)
(** ** email-sender.ts: composing and sending the opt-out mail *)
(* ================================================================== *)

Module EmailSender.

Record SmtpConfig := mkSmtp {
  host : string;
  port : Z;
  secure : bool;
  user : string;
  sendAs : option string;
  password : string
}.

Record Address := mkAddress {
  street : string;
  city : string;
  state : string;
  zip : string
}.

Record Identity := mkIdentity {
  fullName : string;
  salutation : string;
  email : string;
  phone : string;
  address : Address
}.

Module Res.
Record SendResult := mk {
  orgName : string;
  toEmail : string;
  success : bool;
  messageId : option string;
  error : option string
}.
End Res.
Abbreviation SendResult := Res.SendResult.

(** The two module variables: the transporter (known here by the
    configuration it was created with) and [smtpSendAs]. *)
Record Mailer := mkMailer {
  transporter : option SmtpConfig;
  smtpSendAs : option string
}.

(** The module as loaded: no transporter, [smtpSendAs] undefined. *)
Definition loaded : Mailer := {| transporter := None; smtpSendAs := None |}.

Definition initEmailTransport (config : SmtpConfig) (m : Mailer) : Mailer :=
  match transporter m with
  | Some _ => m
  | None => {| transporter := Some config; smtpSendAs := sendAs config |}
  end.

Definition closeTransport (m : Mailer) : Mailer :=
  match transporter m with
  | Some _ => {| transporter := None; smtpSendAs := smtpSendAs m |}
  | None => m
  end.

(** [verifyTransport()]: [inl] is the message of the error it throws,
    [inr] the boolean it resolves to; [verifies] tells whether
    [transporter.verify()] resolves for a configuration. *)
Definition verifyTransport (verifies : SmtpConfig -> bool) (m : Mailer) : string + bool :=
  match transporter m with
  | None => inl "Email transport not initialized"
  | Some config => inr (verifies config)
  end.

Definition nl : string := String (ascii_of_nat 10) EmptyString.

Definition quote : string := String (ascii_of_nat 34) EmptyString.

Record Message := mkMessage {
  subject : string;
  text : string;
  html : string
}.

Definition generateOptOutMessage (orgName : string) (identity : Identity) : Message :=
  let fullAddress :=
    String.concat ""
      [street (address identity); ", "; city (address identity); ", ";
       state (address identity); " "; zip (address identity)] in
  {| subject :=
       String.concat "" ["Mailing list removal request - "; fullName identity];
     text :=
       String.concat ""
         [
     "Hi there,"; nl; nl; "Thank you for all the great work "; orgName;
     " does! I really appreciate your mission and the impact you have."; nl;
     nl;
     "I'm writing with a small request: would you mind removing me from your postal mailing list? I want to make sure your outreach budget goes to people who will respond, and I'm just not able to contribute right now.";
     nl; nl; "If it helps to have my info for your records:"; nl; "Name: ";
     fullName identity; nl; "Address: "; fullAddress; nl; "Email: ";
     email identity; nl; "Phone: "; phone identity; nl; nl;
     "Thanks so much for understanding, and keep up the wonderful work!"; nl;
     nl; "Warmly,"; nl; salutation identity
         ];
     html :=
       String.concat ""
         [
     "<p>Hi there,</p>"; nl; nl; "<p>Thank you for all the great work ";
     orgName;
     " does! I really appreciate your mission and the impact you have.</p>";
     nl; nl;
     "<p>I'm writing with a small request: would you mind removing me from your postal mailing list? I want to make sure your outreach budget goes to people who will respond, and I'm just not able to contribute right now.</p>";
     nl; nl; "<p>If it helps to have my info for your records:<br>"; nl;
     "Name: "; fullName identity; "<br>"; nl; "Address: "; fullAddress;
     "<br>"; nl; "Email: "; email identity; "<br>"; nl; "Phone: ";
     phone identity; "</p>"; nl; nl;
     "<p>Thanks so much for understanding, and keep up the wonderful work!</p>";
     nl; nl; "<p>Warmly,<br>"; nl; salutation identity; "</p>"
         ] |}.

(** The argument of [transporter.sendMail]. *)
Module Mail.
Record Mail := mk {
  from : string;
  to : string;
  subject : string;
  text : string;
  html : string
}.
End Mail.
Abbreviation Mail := Mail.Mail.

(** What [transporter.sendMail] does with a mail: it resolves with a
    message id or rejects with a message. *)
Inductive SendOutcome :=
| Sent (messageId : string)
| SendThrew (message : string).

(** The [from] header: the name in double quotes, the address in angle
    brackets. *)
Definition fromHeader (identity : Identity) (fromEmail : string) : string :=
  String.concat "" [quote; fullName identity; quote; " <"; fromEmail; ">"].

(** [smtpSendAs || identity.email]. *)
Definition fromEmailOf (m : Mailer) (identity : Identity) : string :=
  match Js.nonEmpty (smtpSendAs m) with
  | Some a => a
  | None => email identity
  end.

(** [sendOptOutEmail]: the result, and the mails handed to the
    transport. *)
Definition sendOptOutEmail (sendMail : Mail -> SendOutcome) (m : Mailer)
           (orgName toEmail : string) (identity : Identity)
  : SendResult * list Mail :=
  match transporter m with
  | None =>
      ({| Res.orgName := orgName; Res.toEmail := toEmail; Res.success := false;
          Res.messageId := None;
          Res.error := Some "Email transport not initialized" |}, [])
  | Some _ =>
      let msg := generateOptOutMessage orgName identity in
      let fromEmail := fromEmailOf m identity in
      let mail :=
        {| Mail.from := fromHeader identity fromEmail;
           Mail.to := toEmail;
           Mail.subject := subject msg;
           Mail.text := text msg;
           Mail.html := html msg |} in
      match sendMail mail with
      | Sent id =>
          ({| Res.orgName := orgName; Res.toEmail := toEmail; Res.success := true;
              Res.messageId := Some id; Res.error := None |}, [mail])
      | SendThrew message =>
          ({| Res.orgName := orgName; Res.toEmail := toEmail; Res.success := false;
              Res.messageId := None; Res.error := Some message |}, [mail])
      end
  end.

(** [sendTestEmail]. *)
Definition sendTestEmail (sendMail : Mail -> SendOutcome) (m : Mailer)
           (toEmail : string) (identity : Identity)
  : SendResult * list Mail :=
  match transporter m with
  | None =>
      ({| Res.orgName := "TEST"; Res.toEmail := toEmail; Res.success := false;
          Res.messageId := None;
          Res.error := Some "Email transport not initialized" |}, [])
  | Some _ =>
      let fromEmail := fromEmailOf m identity in
      let mail :=
        {| Mail.from := fromHeader identity fromEmail;
           Mail.to := toEmail;
           Mail.subject := "Test email from Do Not Contact app";
           Mail.text :=
             String.concat ""
               ["This is a test email to verify SMTP configuration."; nl; nl;
                "Sending from: "; fromEmail; nl; "Sending to: "; toEmail; nl; nl;
                "If you received this, the email setup is working!"];
           Mail.html :=
             String.concat ""
               ["<p>This is a test email to verify SMTP configuration.</p>";
                "<p>Sending from: "; fromEmail; "<br>Sending to: "; toEmail;
                "</p><p>If you received this, the email setup is working!</p>"] |} in
      match sendMail mail with
      | Sent id =>
          ({| Res.orgName := "TEST"; Res.toEmail := toEmail; Res.success := true;
              Res.messageId := Some id; Res.error := None |}, [mail])
      | SendThrew message =>
          ({| Res.orgName := "TEST"; Res.toEmail := toEmail; Res.success := false;
              Res.messageId := None; Res.error := Some message |}, [mail])
      end
  end.

End EmailSender.

(* ================================================================== *)
(** ** config.ts: from the configuration file to identity and SMTP *)
(* ================================================================== *)

Module Config.

(** The value that [ConfigSchema] accepts, after parsing. *)
Record AddressSection := mkAddressSection {
  street : string;
  city : string;
  state : string;
  zip : string
}.

Record IdentitySection := mkIdentitySection {
  full_name : string;
  salutation : option string;
  email : string;
  phone : string;
  address : AddressSection
}.

(** [secure] is a boolean or a string. *)
Inductive SecureField :=
| SecureFlag (b : bool)
| SecureText (s : string).

Record SmtpSection := mkSmtpSection {
  host : string;
  port : Z;
  secure : SecureField;
  authentication : option string;
  user : string;
  send_as : option string;
  password : string
}.

Record Config := mkConfig {
  identity : IdentitySection;
  smtp : SmtpSection
}.

(** [s.split(" ")[0]]: the text before the first space. *)
Fixpoint firstWord (s : string) : string :=
  match s with
  | EmptyString => EmptyString
  | String c r =>
      if Ascii.eqb c (ascii_of_nat 32) then EmptyString else String c (firstWord r)
  end.

Definition configToIdentity (config : Config) : EmailSender.Identity :=
  {| EmailSender.fullName := full_name (identity config);
     EmailSender.salutation :=
       match Js.nonEmpty (salutation (identity config)) with
       | Some s => s
       | None => firstWord (full_name (identity config))
       end;
     EmailSender.email := email (identity config);
     EmailSender.phone := phone (identity config);
     EmailSender.address :=
       {| EmailSender.street := street (address (identity config));
          EmailSender.city := city (address (identity config));
          EmailSender.state := state (address (identity config));
          EmailSender.zip := zip (address (identity config)) |} |}.

Definition configToSmtp (config : Config) : EmailSender.SmtpConfig :=
  let secure :=
    match secure (smtp config) with
    | SecureFlag b => b
    | SecureText s => (s =? "ssl/tls") || (s =? "SSL/TLS")
    end in
  {| EmailSender.host := host (smtp config);
     EmailSender.port := port (smtp config);
     EmailSender.secure := secure;
     EmailSender.user := user (smtp config);
     EmailSender.sendAs := send_as (smtp config);
     EmailSender.password := password (smtp config) |}.

End Config.

Import ContactFinder Db.

(* ================================================================== *)
(** * Specification vocabulary *)
(* ================================================================== *)

(** The primary key and the unique name of every row, in table order. *)
Definition keys (d : Database) : list (Z * string) :=
  map (fun o => (Org.id o, Org.name o)) (organizations d).

(** The constraints [id INTEGER PRIMARY KEY] and [name TEXT NOT NULL
    UNIQUE] of the [organizations] table. *)
Definition wellFormed (d : Database) : Prop :=
  NoDup (map fst (keys d)) /\ NoDup (map snd (keys d)).

(** The row that [logAttempt] builds for organization [o]. *)
Definition attemptRow (aid t : Z) (o : Organization) (ty : AttemptType) (ok : bool)
           (det : option Details) (shot : option string) : Attempt :=
  {| Att.id := aid; Att.org_id := Org.id o; Att.attempt_type := ty;
     Att.success := ok; Att.details := det; Att.screenshot_path := shot;
     Att.created_at := t |}.

Definition eventOrg (e : Cli.Event) : string :=
  match e with
  | Cli.Searched o => o
  | Cli.Visited o _ => o
  end.

(** The collaborator calls made on behalf of organization [n]. *)
Definition eventsOf (n : string) (st : Cli.State) : list Cli.Event :=
  filter (fun e => eventOrg e =? n) (Cli.trace st).

(** What the store and the trace hold about the organization named [n]
    with key [i]. *)
Record View := mkView {
  row : option Organization;
  logged : list Attempt;
  calls : list Cli.Event
}.

Definition view (n : string) (i : Z) (st : Cli.State) : View :=
  {| row := getOrg n (Cli.db st);
     logged := attemptsOf i (Cli.db st);
     calls := eventsOf n st |}.

(** What [findContactPage] resolves to for organization [n]; it does not
    depend on the client's timing state. *)
Definition searchResultOf (env : Cli.Env) (n : string) : Search.ContactPageResult :=
  Search.lookupContactPage (Cli.urlOrigin env)
                           (Cli.fetch env (n ++ " contact us")%string) n.

(** What [extractContactInfo] resolves to for organization [n] at [u]. *)
Definition contactInfoOf (env : Cli.Env) (n u : string) : ContactInfo :=
  extractContactInfo (Cli.browse env u) n u.

(** The three [data] objects handed to [updateOrgContact]. *)
Definition searchFailedData (sr : Search.ContactPageResult) : ContactUpdate :=
  {| website := None; contact_type := Some CNone; contact_value := None;
     status := Failed; error_message := Search.error sr |}.

Definition extractFailedData (sr : Search.ContactPageResult) (ci : ContactInfo)
  : ContactUpdate :=
  {| website := Search.websiteUrl sr; contact_type := Some CNone;
     contact_value := None; status := Failed; error_message := error ci |}.

Definition extractedData (sr : Search.ContactPageResult) (ci : ContactInfo)
  : ContactUpdate :=
  {| website := Search.websiteUrl sr;
     contact_type := Some (contactType ci);
     contact_value := Js.or (email ci) (formUrl ci);
     status := if ContactType_eqb (contactType ci) CNone then Manual else Success;
     error_message := None |}.

(** The table of the design, written from its words: the channel as a
    function of "an email is present" and "the form flag is set". *)
Definition channelTable (emailPresent formFlag : bool) : ContactType :=
  match emailPresent, formFlag with
  | true, true => CBoth
  | true, false => CEmail
  | false, true => CForm
  | false, false => CNone
  end.

Definition nonEmptyList {A} (l : list A) : bool :=
  match l with [] => false | _ :: _ => true end.

(** [e] starts, case-insensitively, with [p]. *)
Definition matchesPrefix (p e : string) : Prop :=
  Js.startsWith (Js.toLowerCase e) p = true.

(** The invariant of the data model on one row. *)
Definition contactInvariant (o : Organization) : Prop :=
  (Org.contact_value o <> None <-> Org.contact_type o <> Some CNone)
  /\ (Org.status o = Success ->
      Org.contact_type o <> Some CNone /\ Org.contact_value o <> None).

(** The invariant holds of every row a pass wrote. *)
Definition invariantAfterBatch (env : Cli.Env) (d : Database) (now : Z) : Prop :=
  forall o o',
    In o (organizations d) -> Org.status o = Pending ->
    getOrg (Org.name o) (Cli.db (Cli.batch env d now)) = Some o' ->
    contactInvariant o'.

(** An extraction whose parts agree: no candidate email is the empty
    string, and a form action is reported only with the form flag. *)
Definition coherent (x : Extracted) : Prop :=
  Forall (fun e => e <> "") (emails x)
  /\ (Js.truthy (formAction x) = true -> hasContactForm x = true).

(** The two kinds of extraction on which the stored value and the stored
    channel part: a form action reported with neither an email nor the
    form flag, and an empty string selected as the email with neither
    the form flag nor a form action. *)
Definition strayAction (x : Extracted) : Prop :=
  emails x = [] /\ hasContactForm x = false
  /\ Js.truthy (formAction x) = true.

Definition blankEmail (x : Extracted) : Prop :=
  pickBestEmail (emails x) = Some "" /\ hasContactForm x = false
  /\ Js.truthy (formAction x) = false.

(** [x] is what the browser extracts for the organization named [n]:
    the page at the contact URL that the search found for [n]. *)
Definition extractionOf (env : Cli.Env) (n : string) (x : Extracted) : Prop :=
  exists u,
    Js.nonEmpty (Search.contactUrl (searchResultOf env n)) = Some u
    /\ Cli.browse env u = Page x.

(** The row [INSERT OR IGNORE] creates for a new name at time [now]:
    every column but the key at its default. *)
Definition freshRow (now : Z) (n : string) (o : Organization) : Prop :=
  Org.name o = n /\ Org.website o = None /\ Org.contact_type o = None
  /\ Org.contact_value o = None /\ Org.status o = Pending
  /\ Org.error_message o = None /\ Org.attempts o = 0%Z
  /\ Org.last_attempt_at o = None /\ Org.created_at o = now.

(** Rows in ascending order of name, as [ORDER BY name] compares them. *)
Definition nameLe (a b : Organization) : Prop :=
  String.leb (Org.name a) (Org.name b) = true.

(** The number of rows that satisfy [p]. *)
Definition countRows (p : Organization -> bool) (d : Database) : Z :=
  Z.of_nat (List.length (filter p (organizations d))).

(** What [find-contacts] reports for the name [n]. *)
Definition reportOf (env : Cli.Env) (n : string) : ContactInfo :=
  match Js.nonEmpty (Search.contactUrl (searchResultOf env n)) with
  | None =>
      {| orgName := n; contactUrl := ""; email := None; formUrl := None;
         contactType := CNone; error := Search.error (searchResultOf env n) |}
  | Some u => contactInfoOf env n u
  end.

(** [b] extends the attempts table [a] by appending, with ids that stay
    unique. *)
Definition extendsLog (a b : list Attempt) : Prop :=
  (exists more, b = a ++ more)
  /\ (NoDup (map Att.id a) -> NoDup (map Att.id b)).

(** Collaborators that take no negative time. *)
Definition forwardInTime (env : Cli.Env) : Prop :=
  (0 <= Cli.timerLag env)%Z
  /\ (forall q, 0 <= Cli.fetchMs env q)%Z
  /\ (forall u, 0 <= Cli.browseMs env u)%Z.

(** A call that changes the mail module's state. *)
Inductive MailerCall :=
| CallInit (config : EmailSender.SmtpConfig)
| CallClose.

(** The module's state after a sequence of such calls. *)
Definition runCalls (calls : list MailerCall) (m : EmailSender.Mailer)
  : EmailSender.Mailer :=
  fold_left (fun m c =>
               match c with
               | CallInit config => EmailSender.initEmailTransport config m
               | CallClose => EmailSender.closeTransport m
               end) calls m.

(** The first of two optional addresses that is a non-empty string. *)
Definition preferred (a : option string) (fallback : string) : string :=
  match a with
  | Some x => if x =? "" then fallback else x
  | None => fallback
  end.

(** A name as [loadOrgs] hands it on: not empty, with no white space at
    either end and no line feed inside. *)
Definition tidyName (s : Utf16.ustring) : Prop :=
  s <> []
  /\ (forall c, hd_error s = Some c -> Utf16.isSpace c = false)
  /\ (forall c, hd_error (rev s) = Some c -> Utf16.isSpace c = false)
  /\ ~ In Utf16.newline s.

(** Lower-casing keeps the length of every white-space token of the
    string [s]: each code unit of [s] from 256 on becomes, where it
    stands, one code unit, white space exactly when it was.  (The code
    units below 256 always do.) *)
Definition keepsTokens
  (beyond : Utf16.ustring -> N -> Utf16.ustring -> Utf16.ustring)
  (s : Utf16.ustring) : Prop :=
  forall before c after,
    s = before ++ c :: after ->
    (256 <= c)%N ->
    exists d, beyond before c after = [d]
              /\ Utf16.isSpace d = Utf16.isSpace c.

(** The claim on the ranker as it is worded, for a lower-case mapping:
    a name all of whose white-space tokens have at most two code units
    ranks [low] against every search result. *)
Definition shortNamesRankLow
  (beyond : Utf16.ustring -> N -> Utf16.ustring -> Utf16.ustring) : Prop :=
  forall orgName title url,
    Forall (fun w => (List.length w <= 2)%nat) (Utf16.splitSpaces orgName) ->
    Search.Ranker.assessConfidence beyond orgName title url = Search.Low.

(* ================================================================== *)
(** * A worked scenario: one imported organization *)
(* ================================================================== *)

(** Collaborators that give the same answer to every query and page. *)
Definition acmeEnv (answer : Search.FetchOutcome) (page : PageOutcome) : Cli.Env :=
  {| Cli.fetch := fun _ => answer;
     Cli.fetchMs := fun _ => 250%Z;
     Cli.urlOrigin := fun _ => Search.Origin "https://acme.org";
     Cli.browse := fun _ => page;
     Cli.browseMs := fun _ => 3000%Z;
     Cli.timerLag := 0%Z |}.

(** [import] of the one-line list "Acme Org" into an empty store. *)
Definition acmeDb : Database := fst (importOrgs 1000 ["Acme Org"] emptyDb).

Definition acmeOrg : Organization :=
  {| Org.id := 1; Org.name := "Acme Org"; Org.website := None;
     Org.contact_type := None; Org.contact_value := None; Org.status := Pending;
     Org.error_message := None; Org.attempts := 0; Org.last_attempt_at := None;
     Org.created_at := 1000 |}.

(** One search hit, the contact page itself. *)
Definition acmeHit : Search.FetchOutcome :=
  Search.Json [ {| Search.title := "Acme - Contact us";
                   Search.url := "https://acme.org/contact";
                   Search.description := "" |} ].

(** A page with a contact form, no email and no form action. *)
Definition acmeFormPage : PageOutcome :=
  Page {| emails := []; hasContactForm := true; formAction := None |}.

(** The store after a pass that found Acme's form, and Acme's row in it. *)
Definition acmeContacted : Database :=
  Cli.db (Cli.batch (acmeEnv acmeHit acmeFormPage) acmeDb 5000).

Definition acmeContactedOrg : Organization :=
  {| Org.id := 1; Org.name := "Acme Org"; Org.website := Some "https://acme.org";
     Org.contact_type := Some CForm;
     Org.contact_value := Some "https://acme.org/contact";
     Org.status := Success; Org.error_message := None; Org.attempts := 1;
     Org.last_attempt_at := Some 8250%Z; Org.created_at := 1000 |}.

(** Acme's row with its form channel, put back to [pending]. *)
Definition acmeReset : Database := resetOrg "Acme Org" acmeContacted.

(** A page reporting a form action without the form flag. *)
Definition strayActionPage : PageOutcome :=
  Page {| emails := []; hasContactForm := false;
          formAction := Some "https://acme.org/submit" |}.

(** A page whose only candidate email is the empty string. *)
Definition blankEmailPage : PageOutcome :=
  Page {| emails := [""]; hasContactForm := false; formAction := None |}.

(* ================================================================== *)
(** * Properties *)
(* ================================================================== *)

Example pick_priority :
  pickBestEmail ["jane@org.org"; "info@org.org"] = Some "info@org.org".
Proof. reflexivity. Qed.

Example pick_fallback :
  pickBestEmail ["jane@org.org"; "bob@org.org"] = Some "jane@org.org".
Proof. reflexivity. Qed.

(* ------------------------------------------------------------------ *)
(** ** The store: rows, keys and frames *)
(* ------------------------------------------------------------------ *)

Lemma getOrg_some n d o :
  getOrg n d = Some o -> In o (organizations d) /\ Org.name o = n.
Proof.
  unfold getOrg. intros H. apply find_some in H. destruct H as [Hin Heq].
  apply String.eqb_eq in Heq. auto.
Qed.

Lemma getOrg_keys n d o :
  getOrg n d = Some o -> In (Org.id o, n) (keys d).
Proof.
  intros H. apply getOrg_some in H. destruct H as [Hin <-].
  unfold keys. apply (in_map (fun o => (Org.id o, Org.name o))). exact Hin.
Qed.

Lemma in_keys o d : In o (organizations d) -> In (Org.id o, Org.name o) (keys d).
Proof. intros H. apply (in_map (fun o => (Org.id o, Org.name o))). exact H. Qed.

Lemma NoDup_map_eq {A B} (f : A -> B) (l : list A) a b :
  NoDup (map f l) -> In a l -> In b l -> f a = f b -> a = b.
Proof.
  induction l as [|x l IH]; simpl; intros Hnd Ha Hb Hf; [contradiction|].
  inversion Hnd as [|? ? Hx Hl]; subst.
  destruct Ha as [->|Ha], Hb as [->|Hb]; auto.
  - exfalso. apply Hx. rewrite Hf. apply in_map. exact Hb.
  - exfalso. apply Hx. rewrite <- Hf. apply in_map. exact Ha.
Qed.

Lemma wellFormed_getOrg d o :
  wellFormed d -> In o (organizations d) -> getOrg (Org.name o) d = Some o.
Proof.
  intros [_ Hn] Hin. unfold getOrg.
  destruct (find (fun r => Org.name r =? Org.name o) (organizations d)) as [r|] eqn:E.
  - apply find_some in E. destruct E as [Hr Heq]. apply String.eqb_eq in Heq.
    f_equal. unfold keys in Hn. rewrite map_map in Hn. simpl in Hn.
    apply (NoDup_map_eq Org.name (organizations d)); auto.
  - exfalso. apply (find_none _ _ E) in Hin. rewrite String.eqb_refl in Hin. discriminate.
Qed.

Lemma wellFormed_name_of_id d i n n' :
  wellFormed d -> In (i, n) (keys d) -> In (i, n') (keys d) -> n = n'.
Proof.
  intros [Hi _] H1 H2.
  assert (E : (i, n) = (i, n')) by (apply (NoDup_map_eq fst (keys d)); auto).
  congruence.
Qed.

Lemma wellFormed_id_of_name d i i' n :
  wellFormed d -> In (i, n) (keys d) -> In (i', n) (keys d) -> i = i'.
Proof.
  intros [_ Hn] H1 H2.
  assert (E : (i, n) = (i', n)) by (apply (NoDup_map_eq snd (keys d)); auto).
  congruence.
Qed.

(** *** [updateOrgContact] *)

Lemma keys_updateOrgContact t n data d :
  keys (updateOrgContact t n data d) = keys d.
Proof.
  unfold keys, updateOrgContact. simpl. rewrite map_map.
  apply map_ext. intros o. destruct (Org.name o =? n); reflexivity.
Qed.

Lemma getOrg_updateOrgContact t n data d m :
  getOrg m (updateOrgContact t n data d) =
  if m =? n then option_map (setContact t data) (getOrg m d) else getOrg m d.
Proof.
  unfold getOrg, updateOrgContact. simpl.
  induction (organizations d) as [|o l IH]; simpl.
  - destruct (m =? n); reflexivity.
  - destruct (Org.name o =? n) eqn:En; simpl.
    + apply String.eqb_eq in En. rewrite En.
      rewrite (String.eqb_sym n m).
      destruct (m =? n) eqn:Em; [reflexivity|]. rewrite IH. reflexivity.
    + destruct (Org.name o =? m) eqn:Em.
      * apply String.eqb_eq in Em. subst m. rewrite En. reflexivity.
      * exact IH.
Qed.

Lemma attemptsOf_updateOrgContact t n data d i :
  attemptsOf i (updateOrgContact t n data d) = attemptsOf i d.
Proof. reflexivity. Qed.

(** *** [logAttempt] *)

Lemma organizations_logAttempt t n ty ok det shot d :
  organizations (logAttempt t n ty ok det shot d) = organizations d.
Proof. unfold logAttempt. destruct (getOrg n d); reflexivity. Qed.

Lemma keys_logAttempt t n ty ok det shot d :
  keys (logAttempt t n ty ok det shot d) = keys d.
Proof. unfold keys. rewrite organizations_logAttempt. reflexivity. Qed.

Lemma getOrg_logAttempt t n ty ok det shot d m :
  getOrg m (logAttempt t n ty ok det shot d) = getOrg m d.
Proof. unfold getOrg. rewrite organizations_logAttempt. reflexivity. Qed.

Lemma attemptsOf_logAttempt t n ty ok det shot d i :
  attemptsOf i (logAttempt t n ty ok det shot d) =
  attemptsOf i d ++
  match getOrg n d with
  | Some o =>
      if (Org.id o =? i)%Z
      then [attemptRow (nextId (map Att.id (attempts d))) t o ty ok det shot]
      else []
  | None => []
  end.
Proof.
  unfold attemptsOf, logAttempt.
  destruct (getOrg n d) as [o|]; simpl.
  - rewrite filter_app. simpl. destruct (Org.id o =? i)%Z; reflexivity.
  - rewrite app_nil_r. reflexivity.
Qed.

Lemma attemptsOf_logAttempt_other t n ty ok det shot d i :
  (forall j, In (j, n) (keys d) -> j <> i) ->
  attemptsOf i (logAttempt t n ty ok det shot d) = attemptsOf i d.
Proof.
  intros H. rewrite attemptsOf_logAttempt.
  destruct (getOrg n d) as [o|] eqn:E; [|apply app_nil_r].
  apply getOrg_keys in E. apply H in E.
  apply Z.eqb_neq in E. rewrite E. apply app_nil_r.
Qed.

(* ------------------------------------------------------------------ *)
(** ** One pass: what an iteration touches *)
(* ------------------------------------------------------------------ *)

Lemma processOrg_keys env st p :
  keys (Cli.db (Cli.processOrg env st p)) = keys (Cli.db st).
Proof.
  unfold Cli.processOrg.
  destruct (Js.nonEmpty _) as [u|]; [destruct (Js.truthy _)|]; simpl;
    rewrite ?keys_logAttempt, ?keys_updateOrgContact, ?keys_logAttempt; reflexivity.
Qed.

Lemma eventsOf_snoc_other n tr e :
  eventOrg e <> n ->
  filter (fun e => eventOrg e =? n) (tr ++ [e]) = filter (fun e => eventOrg e =? n) tr.
Proof.
  intros H. rewrite filter_app. simpl.
  apply String.eqb_neq in H. rewrite H. apply app_nil_r.
Qed.

(** An iteration for another organization leaves the view of [n]
    alone. *)
Lemma processOrg_frame env st p n i :
  Org.name p <> n ->
  (forall j, In (j, Org.name p) (keys (Cli.db st)) -> j <> i) ->
  view n i (Cli.processOrg env st p) = view n i st.
Proof.
  intros Hn Hi.
  assert (Hne : (n =? Org.name p) = false) by (apply String.eqb_neq; congruence).
  unfold view, eventsOf, Cli.processOrg.
  destruct (Js.nonEmpty _) as [u|]; [destruct (Js.truthy _)|]; simpl;
    repeat (rewrite eventsOf_snoc_other by (simpl; assumption));
    rewrite ?getOrg_logAttempt, ?getOrg_updateOrgContact, ?Hne, ?getOrg_logAttempt;
    repeat (rewrite attemptsOf_logAttempt_other
              by (rewrite ?keys_updateOrgContact, ?keys_logAttempt; assumption);
            rewrite ?attemptsOf_updateOrgContact);
    reflexivity.
Qed.

Lemma fold_processOrg_frame env n i l :
  forall st,
    (forall p, In p l -> Org.name p <> n) ->
    (forall p j, In p l -> In (j, Org.name p) (keys (Cli.db st)) -> j <> i) ->
    view n i (fold_left (Cli.processOrg env) l st) = view n i st
    /\ keys (Cli.db (fold_left (Cli.processOrg env) l st)) = keys (Cli.db st).
Proof.
  induction l as [|p l IH]; intros st Hn Hi; simpl; [auto|].
  destruct (IH (Cli.processOrg env st p)) as [Hv Hk].
  - intros q Hq. apply Hn. right. exact Hq.
  - intros q j Hq. rewrite processOrg_keys. intros Hj. apply (Hi q j); [right|]; assumption.
  - rewrite Hv, Hk, processOrg_keys. split; [|reflexivity].
    apply processOrg_frame.
    + apply Hn. left. reflexivity.
    + intros j Hj. apply (Hi p j); [left; reflexivity | exact Hj].
Qed.

(** *** [ORDER BY name] returns the selected rows, each once *)

Lemma insertByName_perm o l : Permutation (insertByName o l) (o :: l).
Proof.
  induction l as [|x l IH]; simpl; [reflexivity|].
  destruct (String.leb (Org.name o) (Org.name x)); [reflexivity|].
  rewrite IH. apply perm_swap.
Qed.

Lemma orderByName_perm l : Permutation (orderByName l) l.
Proof.
  induction l as [|x l IH]; simpl; [reflexivity|].
  rewrite insertByName_perm. apply perm_skip. exact IH.
Qed.

Lemma getOrgsByStatus_In s d o :
  In o (getOrgsByStatus s d) <-> In o (organizations d) /\ Org.status o = s.
Proof.
  unfold getOrgsByStatus. split.
  - intros H. apply (Permutation_in _ (orderByName_perm _)) in H.
    apply filter_In in H. destruct H as [Hin Hs]. split; [exact Hin|].
    destruct (Org.status o), s; simpl in Hs; congruence.
  - intros [Hin Hs]. apply (Permutation_in _ (Permutation_sym (orderByName_perm _))).
    apply filter_In. split; [exact Hin|]. subst s. destruct (Org.status o); reflexivity.
Qed.

Lemma NoDup_map_filter {A B} (f : A -> B) (p : A -> bool) l :
  NoDup (map f l) -> NoDup (map f (filter p l)).
Proof.
  induction l as [|x l IH]; simpl; intros H; [constructor|].
  inversion H as [|? ? Hx Hl]; subst.
  destruct (p x); simpl; [constructor|]; auto.
  intros Hin. apply Hx. apply in_map_iff in Hin. destruct Hin as [y [Hy Hin]].
  apply filter_In in Hin. rewrite <- Hy. apply in_map. tauto.
Qed.

Lemma getOrgsByStatus_NoDup s d :
  wellFormed d -> NoDup (map Org.name (getOrgsByStatus s d)).
Proof.
  intros [_ Hn]. unfold keys in Hn. rewrite map_map in Hn. simpl in Hn.
  unfold getOrgsByStatus.
  eapply Permutation_NoDup.
  - apply Permutation_map. apply Permutation_sym. apply orderByName_perm.
  - apply NoDup_map_filter. exact Hn.
Qed.

(** *** A pass, seen from one pending organization

The rows of the other organizations are processed before and after
    [o]; none of them touches what the store and the trace hold about
    [o].  So the pass does to [o] what the single iteration for [o] does,
    run in some state [st1] that still shows [o] as the pass found it. *)
Lemma batch_focus env d now o :
  wellFormed d -> In o (organizations d) -> Org.status o = Pending ->
  exists st1,
    getOrg (Org.name o) (Cli.db st1) = Some o
    /\ attemptsOf (Org.id o) (Cli.db st1) = attemptsOf (Org.id o) d
    /\ eventsOf (Org.name o) st1 = []
    /\ view (Org.name o) (Org.id o) (Cli.batch env d now)
       = view (Org.name o) (Org.id o) (Cli.processOrg env st1 o).
Proof.
  intros Hwf Hin Hs.
  assert (HL : In o (getOrgsByStatus Pending d)) by (apply getOrgsByStatus_In; auto).
  pose proof (getOrgsByStatus_NoDup Pending d Hwf) as Hnd.
  assert (Hsub : forall p, In p (getOrgsByStatus Pending d) -> In p (organizations d))
    by (intros p Hp; apply getOrgsByStatus_In in Hp; tauto).
  unfold Cli.batch, Cli.batchFrom. simpl Cli.db.
  destruct (in_split _ _ HL) as [l1 [l2 EL]]. rewrite EL in Hnd, Hsub |- *.
  rewrite map_app in Hnd. simpl in Hnd.
  pose proof (NoDup_remove_2 _ _ _ Hnd) as Hfresh.
  assert (Hother : forall p, In p (l1 ++ l2) -> Org.name p <> Org.name o).
  { intros p Hp E. apply Hfresh. rewrite <- E, <- map_app. apply in_map. exact Hp. }
  assert (Hids : forall p j, In p (l1 ++ l2) -> In (j, Org.name p) (keys d) -> j <> Org.id o).
  { intros p j Hp Hj E. subst j. apply (Hother p Hp).
    apply (wellFormed_name_of_id d (Org.id o)); auto. apply in_keys. exact Hin. }
  rewrite fold_left_app. simpl.
  set (st0 := Cli.start d now).
  set (st1 := fold_left (Cli.processOrg env) l1 st0).
  destruct (fold_processOrg_frame env (Org.name o) (Org.id o) l1 st0) as [Hv1 Hk1].
  { intros p Hp. apply Hother. apply in_or_app. left. exact Hp. }
  { intros p j Hp. apply Hids. apply in_or_app. left. exact Hp. }
  fold st1 in Hv1, Hk1.
  destruct (fold_processOrg_frame env (Org.name o) (Org.id o) l2 (Cli.processOrg env st1 o))
    as [Hv2 _].
  { intros p Hp. apply Hother. apply in_or_app. right. exact Hp. }
  { intros p j Hp. rewrite processOrg_keys, Hk1. apply Hids. apply in_or_app. right. exact Hp. }
  exists st1. unfold view in Hv1. injection Hv1 as Hr Ha He.
  repeat split; auto.
  - rewrite Hr. simpl. apply wellFormed_getOrg; assumption.
Qed.

(** *** The iteration for [o] itself, branch by branch *)

Lemma attemptsOf_logAttempt_row t ty ok det shot d n o i :
  getOrg n d = Some o -> Org.id o = i ->
  attemptsOf i (logAttempt t n ty ok det shot d) =
  attemptsOf i d ++
  [attemptRow (nextId (map Att.id (attempts d))) t o ty ok det shot].
Proof.
  intros H E. rewrite attemptsOf_logAttempt, H. subst i. rewrite Z.eqb_refl. reflexivity.
Qed.

Lemma eventsOf_snoc_same n tr e :
  eventOrg e = n ->
  filter (fun e => eventOrg e =? n) (tr ++ [e]) =
  filter (fun e => eventOrg e =? n) tr ++ [e].
Proof.
  intros H. rewrite filter_app. simpl. rewrite H, String.eqb_refl. reflexivity.
Qed.

(** Stage A yields no usable URL. *)
Lemma processOrg_searchFailed env st o :
  getOrg (Org.name o) (Cli.db st) = Some o ->
  Js.nonEmpty (Search.contactUrl (searchResultOf env (Org.name o))) = None ->
  exists t a,
    view (Org.name o) (Org.id o) (Cli.processOrg env st o) =
    {| row := Some (setContact t (searchFailedData (searchResultOf env (Org.name o))) o);
       logged := attemptsOf (Org.id o) (Cli.db st) ++ [a];
       calls := eventsOf (Org.name o) st ++ [Cli.Searched (Org.name o)] |}
    /\ Att.org_id a = Org.id o
    /\ Att.attempt_type a = ASearch
    /\ Att.success a = false
    /\ Att.details a =
       Some (ErrorDetails (Search.error (searchResultOf env (Org.name o)))).
Proof.
  intros Hrow Hfail.
  unfold Cli.processOrg.
  change (Search.found (Search.findContactPage _ _ _ _ _ _ _))
    with (searchResultOf env (Org.name o)).
  rewrite Hfail.
  match goal with
  | |- context [updateOrgContact ?t _ ?data _] => set (t1 := t); set (dat := data)
  end.
  eexists t1, _. split.
  - unfold view, eventsOf. simpl.
    rewrite getOrg_logAttempt, getOrg_updateOrgContact, String.eqb_refl, Hrow. simpl.
    rewrite (attemptsOf_logAttempt_row _ _ _ _ _ _ _ (setContact t1 dat o));
      [| rewrite getOrg_updateOrgContact, String.eqb_refl, Hrow; reflexivity
       | reflexivity ].
    rewrite attemptsOf_updateOrgContact.
    rewrite eventsOf_snoc_same by reflexivity.
    reflexivity.
  - simpl. auto.
Qed.

(** Stage A yields [u]; the browser throws with a non-empty message. *)
Lemma processOrg_extractFailed env st o u :
  getOrg (Org.name o) (Cli.db st) = Some o ->
  Js.nonEmpty (Search.contactUrl (searchResultOf env (Org.name o))) = Some u ->
  Js.truthy (error (contactInfoOf env (Org.name o) u)) = true ->
  exists t a1 a2,
    view (Org.name o) (Org.id o) (Cli.processOrg env st o) =
    {| row := Some (setContact t (extractFailedData (searchResultOf env (Org.name o))
                                                    (contactInfoOf env (Org.name o) u)) o);
       logged := attemptsOf (Org.id o) (Cli.db st) ++ [a1; a2];
       calls := eventsOf (Org.name o) st
                ++ [Cli.Searched (Org.name o); Cli.Visited (Org.name o) u] |}
    /\ (Att.attempt_type a1 = ASearch /\ Att.success a1 = true
        /\ Att.details a1 = Some (UrlDetails u))
    /\ (Att.attempt_type a2 = AContactFind /\ Att.success a2 = false
        /\ Att.details a2 =
           Some (ErrorDetails (error (contactInfoOf env (Org.name o) u)))).
Proof.
  intros Hrow Hurl Herr.
  unfold Cli.processOrg.
  change (Search.found (Search.findContactPage _ _ _ _ _ _ _))
    with (searchResultOf env (Org.name o)).
  rewrite Hurl.
  change (extractContactInfo _ _ _) with (contactInfoOf env (Org.name o) u).
  rewrite Herr.
  match goal with
  | |- context [updateOrgContact ?t _ ?data _] => set (t2 := t); set (dat := data)
  end.
  eexists t2, _, _. split.
  - unfold view, eventsOf. simpl.
    rewrite getOrg_logAttempt, getOrg_updateOrgContact, String.eqb_refl,
            getOrg_logAttempt, Hrow. simpl.
    rewrite (attemptsOf_logAttempt_row _ _ _ _ _ _ _ (setContact t2 dat o));
      [| rewrite getOrg_updateOrgContact, String.eqb_refl, getOrg_logAttempt, Hrow;
         reflexivity
       | reflexivity ].
    rewrite attemptsOf_updateOrgContact.
    rewrite (attemptsOf_logAttempt_row _ _ _ _ _ _ _ o) by (auto || reflexivity).
    rewrite <- app_assoc. simpl.
    rewrite !eventsOf_snoc_same by reflexivity.
    rewrite <- app_assoc. reflexivity.
  - simpl. auto.
Qed.

(** Stage A yields [u]; the extraction reports no error. *)
Lemma processOrg_extracted env st o u :
  getOrg (Org.name o) (Cli.db st) = Some o ->
  Js.nonEmpty (Search.contactUrl (searchResultOf env (Org.name o))) = Some u ->
  Js.truthy (error (contactInfoOf env (Org.name o) u)) = false ->
  exists t a1 a2,
    view (Org.name o) (Org.id o) (Cli.processOrg env st o) =
    {| row := Some (setContact t (extractedData (searchResultOf env (Org.name o))
                                                (contactInfoOf env (Org.name o) u)) o);
       logged := attemptsOf (Org.id o) (Cli.db st) ++ [a1; a2];
       calls := eventsOf (Org.name o) st
                ++ [Cli.Searched (Org.name o); Cli.Visited (Org.name o) u] |}
    /\ (Att.attempt_type a1 = ASearch /\ Att.success a1 = true
        /\ Att.details a1 = Some (UrlDetails u))
    /\ (Att.attempt_type a2 = AContactFind
        /\ Att.success a2 =
           negb (ContactType_eqb (contactType (contactInfoOf env (Org.name o) u)) CNone)
        /\ Att.details a2 =
           Some (ChannelDetails (contactType (contactInfoOf env (Org.name o) u))
                                (email (contactInfoOf env (Org.name o) u))
                                (formUrl (contactInfoOf env (Org.name o) u)))).
Proof.
  intros Hrow Hurl Herr.
  unfold Cli.processOrg.
  change (Search.found (Search.findContactPage _ _ _ _ _ _ _))
    with (searchResultOf env (Org.name o)).
  rewrite Hurl.
  change (extractContactInfo _ _ _) with (contactInfoOf env (Org.name o) u).
  rewrite Herr.
  match goal with
  | |- context [updateOrgContact ?t _ ?data _] => set (t2 := t); set (dat := data)
  end.
  eexists t2, _, _. split.
  - unfold view, eventsOf. simpl.
    rewrite getOrg_logAttempt, getOrg_updateOrgContact, String.eqb_refl,
            getOrg_logAttempt, Hrow. simpl.
    rewrite (attemptsOf_logAttempt_row _ _ _ _ _ _ _ (setContact t2 dat o));
      [| rewrite getOrg_updateOrgContact, String.eqb_refl, getOrg_logAttempt, Hrow;
         reflexivity
       | reflexivity ].
    rewrite attemptsOf_updateOrgContact.
    rewrite (attemptsOf_logAttempt_row _ _ _ _ _ _ _ o) by (auto || reflexivity).
    rewrite <- app_assoc. simpl.
    rewrite !eventsOf_snoc_same by reflexivity.
    rewrite <- app_assoc. reflexivity.
  - simpl. repeat split.
    destruct (contactType (contactInfoOf env (Org.name o) u)); reflexivity.
Qed.

(* ------------------------------------------------------------------ *)
(** ** The channel selector *)
(* ------------------------------------------------------------------ *)

(** C4. For every extraction result the selected [contactType] is the
    table's value at (emails non-empty, form flag): [both] iff an email is
    present and the flag is set, [email] iff an email is present and the
    flag is clear, [form] iff the flag is set and no email is present,
    [none] iff neither holds. *)
Theorem contactType_table (x : Extracted) (org url : string) :
  let ci := extractContactInfo (Page x) org url in
  contactType ci = channelTable (nonEmptyList (emails x)) (hasContactForm x)
  /\ (contactType ci = CBoth <-> emails x <> [] /\ hasContactForm x = true)
  /\ (contactType ci = CEmail <-> emails x <> [] /\ hasContactForm x = false)
  /\ (contactType ci = CForm <-> emails x = [] /\ hasContactForm x = true)
  /\ (contactType ci = CNone <-> emails x = [] /\ hasContactForm x = false).
Proof.
  destruct x as [es form action]. simpl.
  unfold determineContactType.
  destruct es as [|e es], form; simpl;
    repeat split; intros; try discriminate; try congruence;
    match goal with
    | H : _ /\ _ |- _ => destruct H; try discriminate; try congruence
    end.
Qed.

Lemma find_first {A} (f : A -> bool) l1 e l2 :
  f e = true -> (forall x, In x l1 -> f x <> true) ->
  find f (l1 ++ e :: l2) = Some e.
Proof.
  intros He. induction l1 as [|x l1 IH]; simpl; intros H.
  - rewrite He. reflexivity.
  - destruct (f x) eqn:E.
    + exfalso. apply (H x); auto.
    + apply IH. intros y Hy. apply H. right. exact Hy.
Qed.

Lemma findByPrefix_none q es :
  (forall e, In e es -> ~ matchesPrefix q e) -> findByPrefix q es = None.
Proof.
  intros H. unfold findByPrefix.
  destruct (find _ es) as [m|] eqn:E; [|reflexivity].
  apply find_some in E. destruct E as [Hin Hm]. exfalso. apply (H m Hin Hm).
Qed.

Lemma scanPrefixes_skip before rest es :
  (forall q e, In q before -> In e es -> ~ matchesPrefix q e) ->
  scanPrefixes (before ++ rest) es = scanPrefixes rest es.
Proof.
  induction before as [|q before IH]; simpl; intros H; [reflexivity|].
  rewrite findByPrefix_none by (intros e He; apply H; auto).
  simpl. apply IH. intros q' e Hq He. apply H; auto.
Qed.

Lemma toLowerCase_empty e : Js.toLowerCase e = "" -> e = "".
Proof. destruct e; simpl; [reflexivity|discriminate]. Qed.

Lemma matchesPrefix_truthy p e :
  p <> "" -> matchesPrefix p e -> Js.truthy (Some e) = true.
Proof.
  unfold matchesPrefix, Js.startsWith. intros Hp Hm. simpl.
  destruct (e =? "") eqn:E; [|reflexivity].
  apply String.eqb_eq in E. subst e. simpl in Hm.
  destruct p; [contradiction|discriminate].
Qed.

Lemma priorityPrefixes_nonEmpty p : In p priorityPrefixes -> p <> "".
Proof.
  unfold priorityPrefixes. simpl. intros H.
  repeat (destruct H as [<-|H]; [discriminate|]). contradiction.
Qed.

(** C5. For a non-empty candidate list: when [p] is the first of the
    priority prefixes ["info@"; "contact@"; "support@"; "help@"; "hello@"]
    that some candidate matches (no candidate matches a prefix listed
    before [p]), the selected email is the first candidate, in list order,
    that starts with [p] case-insensitively; when no candidate matches any
    prefix, it is the first candidate.  The selection being a function of
    the list, the same list always gives the same email. *)
Theorem pickBestEmail_priority (es : list string) :
  es <> [] ->
  priorityPrefixes = ["info@"; "contact@"; "support@"; "help@"; "hello@"]
  /\ (forall before p after l1 e l2,
        priorityPrefixes = before ++ p :: after ->
        (forall q c, In q before -> In c es -> ~ matchesPrefix q c) ->
        es = l1 ++ e :: l2 ->
        matchesPrefix p e ->
        (forall c, In c l1 -> ~ matchesPrefix p c) ->
        pickBestEmail es = Some e)
  /\ ((forall q c, In q priorityPrefixes -> In c es -> ~ matchesPrefix q c) ->
      pickBestEmail es = hd_error es).
Proof.
  intros Hne.
  assert (Hlen : (0 <? List.length es)%nat = true) by (destruct es; [contradiction|reflexivity]).
  split; [reflexivity|]. split.
  - intros before p after l1 e l2 Hp Hbefore Hes Hm Hl1.
    unfold pickBestEmail. rewrite Hlen.
    rewrite Hp, (scanPrefixes_skip before (p :: after)) by exact Hbefore.
    assert (Hfind : findByPrefix p es = Some e).
    { unfold findByPrefix. rewrite Hes. apply find_first; [exact Hm | exact Hl1]. }
    assert (Ht : Js.truthy (Some e) = true).
    { apply (matchesPrefix_truthy p); [|exact Hm].
      apply priorityPrefixes_nonEmpty. rewrite Hp. apply in_or_app. right. left. reflexivity. }
    simpl scanPrefixes. rewrite Hfind. cbv zeta. rewrite Ht. rewrite Ht. reflexivity.
  - intros Hnone. unfold pickBestEmail. rewrite Hlen.
    rewrite <- (app_nil_r priorityPrefixes), scanPrefixes_skip by exact Hnone.
    simpl. destruct es; reflexivity.
Qed.

Lemma pickBestEmail_priority_witness :
  pickBestEmail ["jane@org.org"; "INFO@org.org"; "info@org.org"] = Some "INFO@org.org".
Proof.
  assert (Hne : ["jane@org.org"; "INFO@org.org"; "info@org.org"] <> @nil string)
    by discriminate.
  apply (proj1 (proj2 (pickBestEmail_priority _ Hne))
               [] "info@" ["contact@"; "support@"; "help@"; "hello@"]
               ["jane@org.org"] "INFO@org.org" ["info@org.org"]).
  - reflexivity.
  - intros q c [].
  - reflexivity.
  - reflexivity.
  - intros c [<-|[]]. discriminate.
Defined.

(** The three cases of line 80: a form action that JavaScript finds
    truthy is kept; otherwise the contact page URL stands in when the form
    flag is set; otherwise the result is null. *)
Lemma selectFormUrl_cases (x : Extracted) (org url : string) :
  let ci := extractContactInfo (Page x) org url in
  (forall a, formAction x = Some a -> a <> "" -> formUrl ci = Some a)
  /\ (Js.truthy (formAction x) = false -> hasContactForm x = true ->
      formUrl ci = Some url)
  /\ (Js.truthy (formAction x) = false -> hasContactForm x = false ->
      formUrl ci = None).
Proof.
  simpl. unfold selectFormUrl, Js.or. repeat split.
  - intros a Ha Hne. rewrite Ha. simpl.
    apply String.eqb_neq in Hne. rewrite Hne. reflexivity.
  - intros Hf Hform. rewrite Hf, Hform. reflexivity.
  - intros Hf Hform. rewrite Hf, Hform. reflexivity.
Qed.

(* ------------------------------------------------------------------ *)
(** ** The store's update *)
(* ------------------------------------------------------------------ *)

(** C7. An [updateOrgContact] call on a stored organization replaces the
    website only by a non-null value: with [website] null or omitted the
    stored website stays as it was, in particular a stored non-null one.
    The call adds exactly one to [attempts] and stamps [last_attempt_at]
    with the current time; the rows of other names are not touched. *)
Theorem updateOrgContact_website_coalesce
        (t : Z) (n : string) (data : ContactUpdate) (d : Database) (o : Organization) :
  getOrg n d = Some o ->
  exists o',
    getOrg n (updateOrgContact t n data d) = Some o'
    /\ (forall w, website data = Some w -> Org.website o' = Some w)
    /\ (website data = None -> Org.website o' = Org.website o)
    /\ (Org.website o' <> Org.website o -> website data <> None)
    /\ Org.attempts o' = (Org.attempts o + 1)%Z
    /\ Org.last_attempt_at o' = Some t
    /\ (forall m, m <> n -> getOrg m (updateOrgContact t n data d) = getOrg m d).
Proof.
  intros H. exists (setContact t data o).
  rewrite getOrg_updateOrgContact, String.eqb_refl, H. simpl.
  repeat split.
  - intros w Hw. rewrite Hw. reflexivity.
  - intros Hw. rewrite Hw. reflexivity.
  - intros Hch Hw. apply Hch. rewrite Hw. reflexivity.
  - intros m Hm. rewrite getOrg_updateOrgContact.
    apply String.eqb_neq in Hm. rewrite Hm. reflexivity.
Qed.

(* ------------------------------------------------------------------ *)
(** ** The candidate ranker *)
(* ------------------------------------------------------------------ *)

Example split_runs :
  Utf16.splitSpaces (Utf16.ofString " a  b ")
  = map Utf16.ofString [""; "a"; "b"; ""].
Proof. reflexivity. Qed.

(** The no-break space U+00A0 and the ideographic space U+3000 separate
    tokens as the ASCII space does. *)
Example split_unicode_spaces :
  Utf16.splitSpaces [97; 160; 98; 12288; 99]%N = [[97]; [98]; [99]]%N.
Proof. reflexivity. Qed.

Example rank_two_of_three :
  Search.assessConfidence "Acme Relief Fund"
    {| Search.title := "ACME Relief"; Search.url := "https://acme.org";
       Search.description := "" |} = Search.Medium.
Proof. reflexivity. Qed.

Example rank_all :
  Search.assessConfidence "Acme Relief Fund"
    {| Search.title := "Home"; Search.url := "https://acme-relief-fund.org";
       Search.description := "" |} = Search.High.
Proof. reflexivity. Qed.

(** A name with the Latin-1 capital U+00C9 (201) against a title with
    its lower case U+00E9 (233): one token of two is found. *)
Example rank_latin1 :
  Search.assessConfidence (String (ascii_of_nat 201) "COLE Libre")
    {| Search.title := String (ascii_of_nat 233) "cole"; Search.url := "";
       Search.description := "" |} = Search.Medium.
Proof. reflexivity. Qed.

(** *** The strings of [string] among all strings *)

Lemma N_of_ascii_below c : (N_of_ascii c <? 256)%N = true.
Proof. destruct c as [[] [] [] [] [] [] [] []]; reflexivity. Qed.

Lemma lowerUnit_ascii c :
  Utf16.lowerUnit (N_of_ascii c) = N_of_ascii (Js.lowerChar c).
Proof. destruct c as [[] [] [] [] [] [] [] []]; reflexivity. Qed.

Lemma isSpace_lowerUnit_ascii c :
  Utf16.isSpace (Utf16.lowerUnit (N_of_ascii c)) = Utf16.isSpace (N_of_ascii c).
Proof. destruct c as [[] [] [] [] [] [] [] []]; reflexivity. Qed.

Lemma isSpace_lowerUnit c :
  (c <? 256)%N = true -> Utf16.isSpace (Utf16.lowerUnit c) = Utf16.isSpace c.
Proof.
  intros H. apply N.ltb_lt in H.
  rewrite <- (N_ascii_embedding c H). apply isSpace_lowerUnit_ascii.
Qed.

(** On the strings of [string] the lower-casing of all strings is
    [Js.toLowerCase], whatever maps the code units from 256 on. *)
Lemma lowerFrom_ofString beyond s :
  forall before,
    Utf16.lowerFrom beyond before (Utf16.ofString s)
    = Utf16.ofString (Js.toLowerCase s).
Proof.
  induction s as [|c s IH]; intros before; [reflexivity|].
  change (Utf16.ofString (String c s)) with (N_of_ascii c :: Utf16.ofString s).
  change (Utf16.ofString (Js.toLowerCase (String c s)))
    with (N_of_ascii (Js.lowerChar c) :: Utf16.ofString (Js.toLowerCase s)).
  cbn [Utf16.lowerFrom]. rewrite N_of_ascii_below, IH, lowerUnit_ascii. reflexivity.
Qed.

Lemma toLowerCase_ofString beyond s :
  Utf16.toLowerCase beyond (Utf16.ofString s) = Utf16.ofString (Js.toLowerCase s).
Proof. apply lowerFrom_ofString. Qed.

(** *** Names without a qualifying token *)

(** When lower-casing keeps the tokens' lengths, the lower-cased name is
    cut into pieces of the same lengths as the name. *)
Lemma lowerFrom_tokens beyond s :
  forall before cur cur' sep,
    keepsTokens beyond (before ++ s) ->
    List.length cur = List.length cur' ->
    map (@List.length N) (Utf16.splitFrom (Utf16.lowerFrom beyond before s) cur sep)
    = map (@List.length N) (Utf16.splitFrom s cur' sep).
Proof.
  induction s as [|c s IH]; intros before cur cur' sep Hk Hlen.
  - simpl. rewrite !length_rev, Hlen. reflexivity.
  - cbn [Utf16.lowerFrom].
    assert (Hd : exists d,
               (if (c <? 256)%N then [Utf16.lowerUnit c]
                else beyond before c s) = [d]
               /\ Utf16.isSpace d = Utf16.isSpace c).
    { destruct (c <? 256)%N eqn:E.
      - exists (Utf16.lowerUnit c). split; [reflexivity|].
        apply isSpace_lowerUnit. exact E.
      - apply Hk; [reflexivity|]. apply N.ltb_ge. exact E. }
    destruct Hd as [d [-> Hd]].
    change ([d] ++ Utf16.lowerFrom beyond (before ++ [c]) s)
      with (d :: Utf16.lowerFrom beyond (before ++ [c]) s).
    assert (Hk' : keepsTokens beyond ((before ++ [c]) ++ s))
      by (rewrite <- app_assoc; exact Hk).
    cbn [Utf16.splitFrom]. rewrite Hd.
    destruct (Utf16.isSpace c).
    + destruct sep.
      * apply IH; assumption.
      * cbn [map]. rewrite !length_rev, Hlen. f_equal. apply IH; [exact Hk'|reflexivity].
    + apply IH; [exact Hk'|]. simpl. rewrite Hlen. reflexivity.
Qed.

Lemma short_tokens_lower beyond orgName :
  keepsTokens beyond orgName ->
  Forall (fun w => (List.length w <= 2)%nat) (Utf16.splitSpaces orgName) ->
  Forall (fun w => (List.length w <= 2)%nat)
         (Utf16.splitSpaces (Utf16.toLowerCase beyond orgName)).
Proof.
  intros Hk H.
  apply (Forall_map (@List.length N) (fun n => (n <= 2)%nat)).
  apply (Forall_map (@List.length N) (fun n => (n <= 2)%nat)) in H.
  unfold Utf16.splitSpaces, Utf16.toLowerCase.
  rewrite (lowerFrom_tokens beyond orgName [] [] [] false Hk eq_refl). exact H.
Qed.

Lemma unmapped_keepsTokens s : keepsTokens Utf16.unmapped s.
Proof. intros before c after _ _. exists c. split; reflexivity. Qed.

(** With no qualifying token the ratio is 0/0 and the tier is [low]. *)
Lemma no_tokens_low beyond orgName title url :
  Forall (fun w => (List.length w <= 2)%nat)
         (Utf16.splitSpaces (Utf16.toLowerCase beyond orgName)) ->
  Search.Ranker.nameWords beyond orgName = []
  /\ Search.Ranker.matchRatio beyond orgName title url = Search.NaN
  /\ Search.Ranker.assessConfidence beyond orgName title url = Search.Low.
Proof.
  intros H.
  assert (Hw : Search.Ranker.nameWords beyond orgName = []).
  { unfold Search.Ranker.nameWords. cbv zeta.
    induction H as [|w ws Hw _ IH]; simpl; [reflexivity|].
    destruct (Nat.ltb_spec 2 (List.length w)); [lia|exact IH]. }
  unfold Search.Ranker.assessConfidence, Search.Ranker.matchRatio,
    Search.Ranker.matchingWords.
  rewrite Hw. simpl. auto.
Qed.

(** Every lower-case mapping that treats U+0130 as Unicode does (and
    leaves the combining dot U+0307 alone) ranks the name U+0130 U+0130,
    one token of two code units, [high] against a title that holds its
    lower case: lower-cased, the token has four code units. *)
Lemma dotted_name_high beyond :
  (forall before after, beyond before 304%N after = [105; 775]%N) ->
  (forall before after, beyond before 775%N after = [775]%N) ->
  Forall (fun w => (List.length w <= 2)%nat) (Utf16.splitSpaces [304; 304]%N)
  /\ Utf16.toLowerCase beyond [304; 304]%N = [105; 775; 105; 775]%N
  /\ Search.Ranker.assessConfidence beyond
       [304; 304]%N [105; 775; 105; 775]%N [] = Search.High.
Proof.
  intros HI Hdot.
  assert (Hname : Utf16.toLowerCase beyond [304; 304]%N = [105; 775; 105; 775]%N).
  { unfold Utf16.toLowerCase. cbn [Utf16.lowerFrom].
    change (304 <? 256)%N with false. cbv iota. rewrite !HI. reflexivity. }
  assert (Htitle : Utf16.toLowerCase beyond [105; 775; 105; 775]%N
                   = [105; 775; 105; 775]%N).
  { unfold Utf16.toLowerCase. cbn [Utf16.lowerFrom].
    change (105 <? 256)%N with true. change (775 <? 256)%N with false.
    cbv iota. rewrite !Hdot. reflexivity. }
  split; [repeat constructor|]. split; [exact Hname|].
  unfold Search.Ranker.assessConfidence, Search.Ranker.matchRatio,
    Search.Ranker.matchingWords, Search.Ranker.nameWords.
  cbv zeta. rewrite Hname, Htitle. reflexivity.
Qed.

(** C8, as stated, fails: the name U+0130 U+0130 has one white-space
    token, of length 2, yet the code tokenises the lower-cased name,
    whose token U+0069 U+0307 U+0069 U+0307 has length 4 and is found in
    the title, so that the ranker answers [high]. *)
Lemma assessConfidence_short_name_counterexample :
  Utf16.splitSpaces [304; 304]%N = [[304; 304]%N]
  /\ Search.Ranker.nameWords Utf16.dottedI [304; 304]%N
     = [[105; 775; 105; 775]%N]
  /\ Search.Ranker.assessConfidence Utf16.dottedI
       [304; 304]%N [105; 775; 105; 775]%N [] = Search.High
  /\ ~ shortNamesRankLow Utf16.dottedI.
Proof.
  split; [reflexivity|]. split; [reflexivity|]. split; [reflexivity|].
  intros H.
  specialize (H [304; 304]%N [105; 775; 105; 775]%N []).
  destruct (dotted_name_high Utf16.dottedI) as [Hshort [_ Hhigh]];
    [reflexivity|reflexivity|].
  rewrite Hhigh in H. specialize (H Hshort). discriminate H.
Qed.

(** C8, amended. When every white-space token of the lower-cased
    organization name (which is what the code cuts into tokens) has at
    most two code units, no token qualifies, the match ratio is 0/0 (not
    a number, no failure), and the ranker answers [low] for any search
    result.  The tokens of the name itself may be measured instead when
    lower-casing keeps their lengths: for every name each of whose code
    units from 256 on becomes one code unit, and for every name of
    [string]. *)
Theorem assessConfidence_short_tokens
        (beyond : Utf16.ustring -> N -> Utf16.ustring -> Utf16.ustring)
        (orgName title url : Utf16.ustring) :
  (Forall (fun w => (List.length w <= 2)%nat)
          (Utf16.splitSpaces (Utf16.toLowerCase beyond orgName)) ->
   Search.Ranker.nameWords beyond orgName = []
   /\ Search.Ranker.matchRatio beyond orgName title url = Search.NaN
   /\ Search.Ranker.assessConfidence beyond orgName title url = Search.Low)
  /\ (keepsTokens beyond orgName ->
      Forall (fun w => (List.length w <= 2)%nat) (Utf16.splitSpaces orgName) ->
      Search.Ranker.nameWords beyond orgName = []
      /\ Search.Ranker.matchRatio beyond orgName title url = Search.NaN
      /\ Search.Ranker.assessConfidence beyond orgName title url = Search.Low)
  /\ (forall (org : string) (result : Search.BraveWebResult),
        Forall (fun w => (List.length w <= 2)%nat)
               (Utf16.splitSpaces (Utf16.ofString org)) ->
        Search.assessConfidence org result = Search.Low).
Proof.
  split; [apply no_tokens_low|]. split.
  - intros Hk H. apply no_tokens_low. apply short_tokens_lower; assumption.
  - intros org result H. unfold Search.assessConfidence.
    apply no_tokens_low. apply short_tokens_lower; [|exact H].
    apply unmapped_keepsTokens.
Qed.

Lemma assessConfidence_short_tokens_witness :
  Search.assessConfidence "Ai of NY"
    {| Search.title := "AI of NY"; Search.url := "https://ai.ny";
       Search.description := "" |} = Search.Low.
Proof.
  apply (proj2 (proj2 (assessConfidence_short_tokens Utf16.unmapped [] [] []))
           "Ai of NY").
  repeat constructor.
Defined.

(* ------------------------------------------------------------------ *)
(** ** The rate limiter *)
(* ------------------------------------------------------------------ *)

Lemma rateLimit_stamp c now lag :
  Search.lastRequestTime (Search.client (Search.rateLimit c now lag))
  = Search.resumedAt (Search.rateLimit c now lag).
Proof. unfold Search.rateLimit. destruct (_ <? _)%Z; reflexivity. Qed.

Lemma rateLimit_slept c now lag :
  Search.slept (Search.rateLimit c now lag) =
  if (now - Search.lastRequestTime c <? Search.minDelayMs)%Z
  then Some (Search.minDelayMs - (now - Search.lastRequestTime c))%Z
  else None.
Proof. unfold Search.rateLimit. destruct (_ <? _)%Z; reflexivity. Qed.

Lemma rateLimit_resumed c now lag :
  (0 <= lag)%Z ->
  (Search.lastRequestTime c + Search.minDelayMs
   <= Search.resumedAt (Search.rateLimit c now lag))%Z.
Proof.
  intros H. unfold Search.rateLimit.
  destruct (Z.ltb_spec (now - Search.lastRequestTime c) Search.minDelayMs);
    cbn [Search.resumedAt]; lia.
Qed.

(** C10. Two successive [rateLimit] calls on one client, the second
    entered [gap] ms after the first returned: the second call computes
    the time elapsed since the stamp left by the first, hands the
    remaining deficit to the timer when the elapsed time is below the
    minimum delay of 1100 ms, and stamps the client with the time at which
    it returns.  The two stamps are at least 1100 ms apart; with no time
    elapsed between the calls the second one sleeps the full 1100 ms. *)
Theorem rateLimit_spacing (c : Search.BraveSearch) (now lag1 gap lag2 : Z) :
  (0 <= lag2)%Z ->
  let first := Search.rateLimit c now lag1 in
  let second :=
    Search.rateLimit (Search.client first) (Search.resumedAt first + gap) lag2 in
  Search.minDelayMs = 1100%Z
  /\ Search.lastRequestTime (Search.client first) = Search.resumedAt first
  /\ Search.slept second =
     (if (gap <? Search.minDelayMs)%Z then Some (Search.minDelayMs - gap)%Z else None)
  /\ Search.lastRequestTime (Search.client second) = Search.resumedAt second
  /\ (Search.resumedAt first + Search.minDelayMs <= Search.resumedAt second)%Z
  /\ (gap = 0%Z -> Search.slept second = Some 1100%Z).
Proof.
  intros Hlag. cbv zeta.
  pose proof (rateLimit_resumed (Search.client (Search.rateLimit c now lag1))
                (Search.resumedAt (Search.rateLimit c now lag1) + gap) lag2 Hlag) as Hres.
  rewrite rateLimit_slept, !rateLimit_stamp. rewrite rateLimit_stamp in Hres.
  replace (Search.resumedAt (Search.rateLimit c now lag1) + gap
           - Search.resumedAt (Search.rateLimit c now lag1))%Z with gap by lia.
  repeat split; auto.
  intros ->. reflexivity.
Qed.

Lemma rateLimit_spacing_witness :
  let first := Search.rateLimit Search.newClient 1700000000000 0 in
  let second := Search.rateLimit (Search.client first) (Search.resumedAt first + 0) 3 in
  (Search.resumedAt first + Search.minDelayMs <= Search.resumedAt second)%Z.
Proof.
  assert (H : (0 <= 3)%Z) by lia.
  exact (proj1 (proj2 (proj2 (proj2 (proj2
           (rateLimit_spacing Search.newClient 1700000000000 0 0 3 H)))))).
Defined.

(** The same spacing between the stamps of two successive
    [findContactPage] calls, however long the first request took. *)
Lemma findContactPage_spacing origin fetch fetchMs lag c now org1 org2 gap :
  (0 <= lag)%Z ->
  let first := Search.findContactPage origin fetch fetchMs lag c now org1 in
  let second :=
    Search.findContactPage origin fetch fetchMs lag (Search.clientAfter first)
                           (Search.returnedAt first + gap) org2 in
  (Search.lastRequestTime (Search.clientAfter first) + Search.minDelayMs
   <= Search.lastRequestTime (Search.clientAfter second))%Z.
Proof.
  intros Hlag. cbv zeta. unfold Search.findContactPage.
  cbn [Search.clientAfter Search.returnedAt].
  rewrite (rateLimit_stamp (Search.client (Search.rateLimit c now lag))).
  apply rateLimit_resumed. exact Hlag.
Qed.

(* ------------------------------------------------------------------ *)
(** ** A pass of [batch], organization by organization *)
(* ------------------------------------------------------------------ *)

(** *** What stage A can hand over *)

Lemma scanResults_website origin results :
  forall w0 w best,
    Search.scanResults origin results (Some w0) = inr (w, best) ->
    exists w', w = Some w'.
Proof.
  induction results as [|r rest IH]; intros w0 w best H.
  - simpl in H. injection H as <- _. eauto.
  - cbn [Search.scanResults] in H. cbv zeta in H.
    destruct (negb (Js.truthy (Some w0))).
    + destruct (origin (Search.url r)) as [m|o']; [discriminate|].
      destruct (Search.isContactPage r); [injection H as <- _; eauto|].
      eapply IH. exact H.
    + destruct (Search.isContactPage r); [injection H as <- _; eauto|].
      eapply IH. exact H.
Qed.

(** A lookup that carries an error carries no URL, and a lookup that
    carries a URL carries the website origin and no error. *)
Lemma lookupContactPage_cases origin answer org :
  let sr := Search.lookupContactPage origin answer org in
  (Search.error sr <> None /\ Search.contactUrl sr = None /\ Search.websiteUrl sr = None)
  \/ (Search.error sr = None /\ (exists u, Search.contactUrl sr = Some u)
      /\ (exists w, Search.websiteUrl sr = Some w)).
Proof.
  destruct answer as [m|status text|results]; simpl;
    try (left; repeat split; discriminate).
  destruct results as [|r rest]; [left; repeat split; discriminate|].
  destruct (Search.scanResults origin (r :: rest) None) as [m|[w best]] eqn:E;
    [left; repeat split; discriminate|].
  right. simpl. repeat split; eauto.
  cbn [Search.scanResults] in E. cbv zeta in E. simpl negb in E. cbv iota in E.
  destruct (origin (Search.url r)) as [m|o']; [discriminate|].
  destruct (Search.isContactPage r); [injection E as <- _; eauto|].
  eapply scanResults_website. exact E.
Qed.

(** *** The three ways a pass ends for a pending organization *)

Ltac focus_on env d now o Hwf Hin Hs st1 Hrow Hlog Hcalls Hview :=
  destruct (batch_focus env d now o Hwf Hin Hs) as [st1 [Hrow [Hlog [Hcalls Hview]]]].

Lemma batch_searchFailed env d now o :
  wellFormed d -> In o (organizations d) -> Org.status o = Pending ->
  Js.nonEmpty (Search.contactUrl (searchResultOf env (Org.name o))) = None ->
  exists t a,
    view (Org.name o) (Org.id o) (Cli.batch env d now) =
    {| row := Some (setContact t (searchFailedData (searchResultOf env (Org.name o))) o);
       logged := attemptsOf (Org.id o) d ++ [a];
       calls := [Cli.Searched (Org.name o)] |}
    /\ Att.org_id a = Org.id o
    /\ Att.attempt_type a = ASearch
    /\ Att.success a = false
    /\ Att.details a =
       Some (ErrorDetails (Search.error (searchResultOf env (Org.name o)))).
Proof.
  intros Hwf Hin Hs Hfail.
  focus_on env d now o Hwf Hin Hs st1 Hrow Hlog Hcalls Hview.
  destruct (processOrg_searchFailed env st1 o Hrow Hfail) as [t [a [Hv Ha]]].
  exists t, a. rewrite Hview, Hv, Hlog, Hcalls. auto.
Qed.

Lemma batch_extractFailed env d now o u :
  wellFormed d -> In o (organizations d) -> Org.status o = Pending ->
  Js.nonEmpty (Search.contactUrl (searchResultOf env (Org.name o))) = Some u ->
  Js.truthy (error (contactInfoOf env (Org.name o) u)) = true ->
  exists t a1 a2,
    view (Org.name o) (Org.id o) (Cli.batch env d now) =
    {| row := Some (setContact t (extractFailedData (searchResultOf env (Org.name o))
                                                    (contactInfoOf env (Org.name o) u)) o);
       logged := attemptsOf (Org.id o) d ++ [a1; a2];
       calls := [Cli.Searched (Org.name o); Cli.Visited (Org.name o) u] |}
    /\ (Att.attempt_type a1 = ASearch /\ Att.success a1 = true
        /\ Att.details a1 = Some (UrlDetails u))
    /\ (Att.attempt_type a2 = AContactFind /\ Att.success a2 = false
        /\ Att.details a2 =
           Some (ErrorDetails (error (contactInfoOf env (Org.name o) u)))).
Proof.
  intros Hwf Hin Hs Hurl Herr.
  focus_on env d now o Hwf Hin Hs st1 Hrow Hlog Hcalls Hview.
  destruct (processOrg_extractFailed env st1 o u Hrow Hurl Herr) as [t [a1 [a2 [Hv Ha]]]].
  exists t, a1, a2. rewrite Hview, Hv, Hlog, Hcalls. auto.
Qed.

Lemma batch_extracted env d now o u :
  wellFormed d -> In o (organizations d) -> Org.status o = Pending ->
  Js.nonEmpty (Search.contactUrl (searchResultOf env (Org.name o))) = Some u ->
  Js.truthy (error (contactInfoOf env (Org.name o) u)) = false ->
  exists t a1 a2,
    view (Org.name o) (Org.id o) (Cli.batch env d now) =
    {| row := Some (setContact t (extractedData (searchResultOf env (Org.name o))
                                                (contactInfoOf env (Org.name o) u)) o);
       logged := attemptsOf (Org.id o) d ++ [a1; a2];
       calls := [Cli.Searched (Org.name o); Cli.Visited (Org.name o) u] |}
    /\ (Att.attempt_type a1 = ASearch /\ Att.success a1 = true
        /\ Att.details a1 = Some (UrlDetails u))
    /\ (Att.attempt_type a2 = AContactFind
        /\ Att.success a2 =
           negb (ContactType_eqb (contactType (contactInfoOf env (Org.name o) u)) CNone)
        /\ Att.details a2 =
           Some (ChannelDetails (contactType (contactInfoOf env (Org.name o) u))
                                (email (contactInfoOf env (Org.name o) u))
                                (formUrl (contactInfoOf env (Org.name o) u)))).
Proof.
  intros Hwf Hin Hs Hurl Herr.
  focus_on env d now o Hwf Hin Hs st1 Hrow Hlog Hcalls Hview.
  destruct (processOrg_extracted env st1 o u Hrow Hurl Herr) as [t [a1 [a2 [Hv Ha]]]].
  exists t, a1, a2. rewrite Hview, Hv, Hlog, Hcalls. auto.
Qed.

(** Reading a view back. *)
Lemma view_row n i st r l c :
  view n i st = {| row := r; logged := l; calls := c |} ->
  getOrg n (Cli.db st) = r /\ attemptsOf i (Cli.db st) = l /\ eventsOf n st = c.
Proof. unfold view. intros H. injection H as H1 H2 H3. auto. Qed.

Lemma eventsOf_In n st e :
  In e (Cli.trace st) -> eventOrg e = n -> In e (eventsOf n st).
Proof.
  intros Hin He. unfold eventsOf. apply filter_In. split; [exact Hin|].
  rewrite He. apply String.eqb_refl.
Qed.

(** Every pending organization gets exactly one of the three terminal
    writes. *)
Lemma batch_terminal_write env d now o :
  wellFormed d -> In o (organizations d) -> Org.status o = Pending ->
  exists t data,
    getOrg (Org.name o) (Cli.db (Cli.batch env d now)) = Some (setContact t data o)
    /\ let sr := searchResultOf env (Org.name o) in
       (Js.nonEmpty (Search.contactUrl sr) = None /\ data = searchFailedData sr)
       \/ (exists u, Js.nonEmpty (Search.contactUrl sr) = Some u
                     /\ Js.truthy (error (contactInfoOf env (Org.name o) u)) = true
                     /\ data = extractFailedData sr (contactInfoOf env (Org.name o) u))
       \/ (exists u, Js.nonEmpty (Search.contactUrl sr) = Some u
                     /\ Js.truthy (error (contactInfoOf env (Org.name o) u)) = false
                     /\ data = extractedData sr (contactInfoOf env (Org.name o) u)).
Proof.
  intros Hwf Hin Hs.
  destruct (Js.nonEmpty (Search.contactUrl (searchResultOf env (Org.name o))))
    as [u|] eqn:Hurl.
  - destruct (Js.truthy (error (contactInfoOf env (Org.name o) u))) eqn:Herr.
    + destruct (batch_extractFailed env d now o u Hwf Hin Hs Hurl Herr)
        as [t [a1 [a2 [Hv _]]]].
      apply view_row in Hv. destruct Hv as [Hr _].
      exists t, (extractFailedData (searchResultOf env (Org.name o))
                                   (contactInfoOf env (Org.name o) u)).
      split; [exact Hr|]. right. left. exists u. auto.
    + destruct (batch_extracted env d now o u Hwf Hin Hs Hurl Herr)
        as [t [a1 [a2 [Hv _]]]].
      apply view_row in Hv. destruct Hv as [Hr _].
      exists t, (extractedData (searchResultOf env (Org.name o))
                               (contactInfoOf env (Org.name o) u)).
      split; [exact Hr|]. right. right. exists u. auto.
  - destruct (batch_searchFailed env d now o Hwf Hin Hs Hurl) as [t [a [Hv _]]].
    apply view_row in Hv. destruct Hv as [Hr _].
    exists t, (searchFailedData (searchResultOf env (Org.name o))).
    split; [exact Hr|]. left. auto.
Qed.

(** *** Imported databases satisfy the table constraints *)

Lemma nextId_fresh ids : ~ In (nextId ids) ids.
Proof.
  assert (H : forall i, In i ids -> (i <= fold_right Z.max 0 ids)%Z).
  { induction ids as [|j ids IH]; simpl; intros i Hi; [contradiction|].
    destruct Hi as [->|Hi]; [lia|]. apply IH in Hi. lia. }
  intros Hin. apply H in Hin. unfold nextId in Hin. lia.
Qed.

Lemma insertOrIgnore_wellFormed now n d :
  wellFormed d -> wellFormed (fst (insertOrIgnore now n d)).
Proof.
  intros [Hi Hn]. unfold insertOrIgnore.
  destruct (getOrg n d) eqn:E; simpl; [split; assumption|].
  unfold wellFormed, keys in *. simpl.
  rewrite !map_app, !map_map in *. simpl. split.
  - apply NoDup_app_remove_l with (l := []). simpl.
    apply Permutation_NoDup with (l := nextId (map Org.id (organizations d))
                                        :: map Org.id (organizations d)).
    + apply Permutation_cons_append.
    + constructor; [apply nextId_fresh | exact Hi].
  - apply Permutation_NoDup with (l := n :: map Org.name (organizations d)).
    + apply Permutation_cons_append.
    + constructor; [|exact Hn].
      intros Hin. apply in_map_iff in Hin. destruct Hin as [r [Hr Hin]].
      unfold getOrg in E. apply (find_none _ _ E) in Hin.
      rewrite Hr, String.eqb_refl in Hin. discriminate.
Qed.

Lemma importOrgs_wellFormed now names :
  forall d, wellFormed d -> wellFormed (fst (importOrgs now names d)).
Proof.
  induction names as [|n names IH]; intros d H; simpl; [exact H|].
  pose proof (insertOrIgnore_wellFormed now n d H) as H1.
  destruct (insertOrIgnore now n d) as [d1 changed]. simpl in H1.
  specialize (IH d1 H1).
  destruct (importOrgs now names d1) as [d2 count]. exact IH.
Qed.

Lemma emptyDb_wellFormed : wellFormed emptyDb.
Proof. split; constructor. Qed.

(* ------------------------------------------------------------------ *)
(** ** The scenario, run *)
(* ------------------------------------------------------------------ *)

Lemma acmeDb_wellFormed : wellFormed acmeDb.
Proof. apply importOrgs_wellFormed, emptyDb_wellFormed. Qed.

Lemma acmeOrg_stored : In acmeOrg (organizations acmeDb).
Proof. left. reflexivity. Qed.

Example acme_imported : importOrgs 1000 ["Acme Org"; "Acme Org"] emptyDb = (acmeDb, 1%Z).
Proof. reflexivity. Qed.

(** Stage A fails with a search error. *)
Example acme_search_error :
  option_map (fun o => (Org.status o, Org.attempts o, Org.error_message o))
    (getOrg "Acme Org"
       (Cli.db (Cli.batch (acmeEnv (Search.FetchThrew "fetch failed") (Threw "unused"))
                          acmeDb 5000)))
  = Some (Failed, 1%Z, Some "fetch failed").
Proof. reflexivity. Qed.

(** Stage B extracts [emails = []], [hasForm = true], no form action. *)
Example acme_form_fallback :
  getOrg "Acme Org" acmeContacted = Some acmeContactedOrg.
Proof. reflexivity. Qed.

(** Stage B extracts [emails = []], [hasForm = false]. *)
Example acme_manual :
  option_map (fun o => (Org.status o, Org.contact_type o, Org.contact_value o))
    (getOrg "Acme Org"
       (Cli.db (Cli.batch
                  (acmeEnv acmeHit
                     (Page {| emails := []; hasContactForm := false;
                              formAction := None |})) acmeDb 5000)))
  = Some (Manual, Some CNone, None).
Proof. reflexivity. Qed.

(** The two rows that break the channel invariant. *)
Example acme_stray_action :
  option_map (fun o => (Org.status o, Org.contact_type o, Org.contact_value o))
    (getOrg "Acme Org"
       (Cli.db (Cli.batch (acmeEnv acmeHit strayActionPage) acmeDb 5000)))
  = Some (Manual, Some CNone, Some "https://acme.org/submit").
Proof. reflexivity. Qed.

Example acme_blank_email :
  option_map (fun o => (Org.status o, Org.contact_type o, Org.contact_value o))
    (getOrg "Acme Org"
       (Cli.db (Cli.batch (acmeEnv acmeHit blankEmailPage) acmeDb 5000)))
  = Some (Success, Some CEmail, None).
Proof. reflexivity. Qed.

(* ------------------------------------------------------------------ *)
(** ** Stage A fails *)
(* ------------------------------------------------------------------ *)

(** A lookup that reports an error fails the test [!searchResult.contactUrl]. *)
Lemma lookup_error_unusable env n :
  Search.error (searchResultOf env n) <> None ->
  Js.nonEmpty (Search.contactUrl (searchResultOf env n)) = None.
Proof.
  intros H. unfold searchResultOf in *.
  destruct (lookupContactPage_cases (Cli.urlOrigin env)
              (Cli.fetch env (n ++ " contact us")%string) n) as [[_ [Hu _]]|[He _]].
  - rewrite Hu. reflexivity.
  - contradiction.
Qed.

(** C2. For a pending organization whose contact-page search yields no
    usable URL (which includes every search that reports an error), the
    pass writes [status = failed] with the search's error as
    [error_message], adds one to [attempts] (giving 1 for a freshly
    imported row), appends exactly one attempt row for the organization,
    of type [search] with [success = false], and never visits a page for
    it. *)
Theorem batch_search_failure (env : Cli.Env) (d : Database) (now : Z) (o : Organization) :
  wellFormed d -> In o (organizations d) -> Org.status o = Pending ->
  Js.nonEmpty (Search.contactUrl (searchResultOf env (Org.name o))) = None ->
  let st := Cli.batch env d now in
  exists o' a,
    getOrg (Org.name o) (Cli.db st) = Some o'
    /\ Org.status o' = Failed
    /\ Org.error_message o' = Search.error (searchResultOf env (Org.name o))
    /\ Org.attempts o' = (Org.attempts o + 1)%Z
    /\ (Org.attempts o = 0%Z -> Org.attempts o' = 1%Z)
    /\ attemptsOf (Org.id o) (Cli.db st) = attemptsOf (Org.id o) d ++ [a]
    /\ Att.attempt_type a = ASearch
    /\ Att.success a = false
    /\ Att.details a = Some (ErrorDetails (Search.error (searchResultOf env (Org.name o))))
    /\ (forall u, ~ In (Cli.Visited (Org.name o) u) (Cli.trace st)).
Proof.
  intros Hwf Hin Hs Hfail st.
  destruct (batch_searchFailed env d now o Hwf Hin Hs Hfail)
    as [t [a [Hv [_ [Hty [Hok Hdet]]]]]].
  apply view_row in Hv. destruct Hv as [Hr [Hl Hc]].
  exists (setContact t (searchFailedData (searchResultOf env (Org.name o))) o), a.
  repeat split; auto.
  - simpl. intros ->. reflexivity.
  - intros u Hvis. apply (eventsOf_In (Org.name o)) in Hvis; [|reflexivity].
    fold st in Hc. rewrite Hc in Hvis. destruct Hvis as [E|[]]. discriminate.
Qed.

Lemma batch_search_failure_witness :
  let st := Cli.batch (acmeEnv (Search.FetchThrew "getaddrinfo ENOTFOUND") (Threw "unused"))
                      acmeDb 5000 in
  exists o' a,
    getOrg "Acme Org" (Cli.db st) = Some o'
    /\ Org.status o' = Failed
    /\ Org.error_message o' = Some "getaddrinfo ENOTFOUND"
    /\ Org.attempts o' = 1%Z
    /\ (0%Z = 0%Z -> Org.attempts o' = 1%Z)
    /\ attemptsOf 1 (Cli.db st) = [] ++ [a]
    /\ Att.attempt_type a = ASearch
    /\ Att.success a = false
    /\ Att.details a = Some (ErrorDetails (Some "getaddrinfo ENOTFOUND"))
    /\ (forall u, ~ In (Cli.Visited "Acme Org" u) (Cli.trace st)).
Proof.
  exact (batch_search_failure
           (acmeEnv (Search.FetchThrew "getaddrinfo ENOTFOUND") (Threw "unused"))
           acmeDb 5000 acmeOrg acmeDb_wellFormed acmeOrg_stored eq_refl eq_refl).
Defined.

Lemma updateOrgContact_website_coalesce_witness :
  exists o',
    getOrg "Acme Org"
      (updateOrgContact 9000 "Acme Org"
         {| website := None; contact_type := Some CNone; contact_value := None;
            status := Failed; error_message := Some "timeout" |} acmeContacted) = Some o'
    /\ Org.website o' = Some "https://acme.org"
    /\ Org.attempts o' = 2%Z
    /\ Org.last_attempt_at o' = Some 9000%Z.
Proof.
  destruct (updateOrgContact_website_coalesce 9000 "Acme Org"
              {| website := None; contact_type := Some CNone; contact_value := None;
                 status := Failed; error_message := Some "timeout" |}
              acmeContacted acmeContactedOrg eq_refl)
    as [o' [Hrow [_ [Hkeep [_ [Hatt [Hstamp _]]]]]]].
  exists o'. split; [exact Hrow|]. split; [exact (Hkeep eq_refl)|]. split; assumption.
Defined.

(* ------------------------------------------------------------------ *)
(** ** Stage B completes *)
(* ------------------------------------------------------------------ *)

Lemma nonEmpty_some v u : Js.nonEmpty v = Some u -> v = Some u.
Proof. unfold Js.nonEmpty. destruct (Js.truthy v); [auto|discriminate]. Qed.

Lemma lookup_usable_website env n u :
  Js.nonEmpty (Search.contactUrl (searchResultOf env n)) = Some u ->
  exists w, Search.websiteUrl (searchResultOf env n) = Some w.
Proof.
  intros H. apply nonEmpty_some in H. unfold searchResultOf in *.
  destruct (lookupContactPage_cases (Cli.urlOrigin env)
              (Cli.fetch env (n ++ " contact us")%string) n) as [[_ [Hu _]]|[_ [_ Hw]]].
  - rewrite Hu in H. discriminate.
  - exact Hw.
Qed.

(** C3. For a pending organization whose contact page was found and whose
    extraction returned data (the browser did not throw): when the
    selected [contactType] is [none] the pass writes [status = manual];
    otherwise it writes [status = success], stores the selected
    [contactType], the selected value ([email || formUrl]) and the website
    origin found by the search, and appends, after the [search] attempt,
    an attempt of type [contact_find] with [success = true] whose details
    are the selected channel. *)
Theorem batch_extraction_outcome
        (env : Cli.Env) (d : Database) (now : Z) (o : Organization)
        (u : string) (x : Extracted) :
  wellFormed d -> In o (organizations d) -> Org.status o = Pending ->
  Js.nonEmpty (Search.contactUrl (searchResultOf env (Org.name o))) = Some u ->
  Cli.browse env u = Page x ->
  let ci := extractContactInfo (Page x) (Org.name o) u in
  let st := Cli.batch env d now in
  exists o' a1 a2,
    getOrg (Org.name o) (Cli.db st) = Some o'
    /\ attemptsOf (Org.id o) (Cli.db st) = attemptsOf (Org.id o) d ++ [a1; a2]
    /\ Org.attempts o' = (Org.attempts o + 1)%Z
    /\ (contactType ci = CNone -> Org.status o' = Manual)
    /\ (contactType ci <> CNone ->
        Org.status o' = Success
        /\ Org.contact_type o' = Some (contactType ci)
        /\ Org.contact_value o' = Js.or (email ci) (formUrl ci)
        /\ Org.website o' = Search.websiteUrl (searchResultOf env (Org.name o))
        /\ Org.website o' <> None
        /\ Att.attempt_type a2 = AContactFind
        /\ Att.success a2 = true
        /\ Att.details a2 = Some (ChannelDetails (contactType ci) (email ci) (formUrl ci))).
Proof.
  intros Hwf Hin Hs Hurl Hpage ci st.
  assert (Hci : contactInfoOf env (Org.name o) u = ci)
    by (unfold contactInfoOf; rewrite Hpage; reflexivity).
  assert (Herr : Js.truthy (error (contactInfoOf env (Org.name o) u)) = false)
    by (rewrite Hci; reflexivity).
  clearbody ci.
  destruct (batch_extracted env d now o u Hwf Hin Hs Hurl Herr)
    as [t [a1 [a2 [Hv [_ [Hty [Hok Hdet]]]]]]].
  rewrite Hci in Hv, Hok, Hdet.
  apply view_row in Hv. destruct Hv as [Hr [Hl _]].
  destruct (lookup_usable_website env (Org.name o) u Hurl) as [w Hw].
  eexists _, a1, a2. split; [exact Hr|]. split; [exact Hl|]. split; [reflexivity|].
  simpl. rewrite Hw. split.
  - intros ->. reflexivity.
  - intros Hne.
    assert (Hb : ContactType_eqb (contactType ci) CNone = false)
      by (destruct (contactType ci); try reflexivity; contradiction).
    rewrite Hok, Hb. repeat split; auto. discriminate.
Qed.

Lemma batch_extraction_outcome_witness :
  let st := Cli.batch (acmeEnv acmeHit
                         (Page {| emails := ["jane@acme.org"; "Info@acme.org"];
                                  hasContactForm := true;
                                  formAction := None |})) acmeDb 5000 in
  exists o',
    getOrg "Acme Org" (Cli.db st) = Some o'
    /\ Org.status o' = Success
    /\ Org.contact_type o' = Some CBoth
    /\ Org.contact_value o' = Some "Info@acme.org"
    /\ Org.website o' = Some "https://acme.org".
Proof.
  destruct (batch_extraction_outcome
              (acmeEnv acmeHit
                 (Page {| emails := ["jane@acme.org"; "Info@acme.org"];
                          hasContactForm := true;
                          formAction := None |}))
              acmeDb 5000 acmeOrg "https://acme.org/contact" _
              acmeDb_wellFormed acmeOrg_stored eq_refl eq_refl eq_refl)
    as [o' [a1 [a2 [Hrow [_ [_ [_ Hsucc]]]]]]].
  assert (Hne : CBoth <> CNone) by discriminate.
  destruct (Hsucc Hne) as [H1 [H2 [H3 [H4 _]]]].
  exists o'. repeat split; assumption.
Defined.

(** C6. The selected [formUrl] is the extracted form action when one is
    supplied (present and, as JavaScript tests it, not the empty string);
    otherwise the contact page URL when the form flag is set; otherwise
    null.  And for a pending organization whose contact page [u] was
    found and whose extraction returned no email, the form flag and no
    form action, the pass stores [status = success],
    [contact_type = form] and [contact_value = u]. *)
Theorem formUrl_fallback :
  (forall (x : Extracted) (org url : string),
      let ci := extractContactInfo (Page x) org url in
      (forall a, formAction x = Some a -> a <> "" -> formUrl ci = Some a)
      /\ (Js.truthy (formAction x) = false -> hasContactForm x = true ->
          formUrl ci = Some url)
      /\ (Js.truthy (formAction x) = false -> hasContactForm x = false ->
          formUrl ci = None))
  /\ (forall (env : Cli.Env) (d : Database) (now : Z) (o : Organization) (u : string),
         wellFormed d -> In o (organizations d) -> Org.status o = Pending ->
         Js.nonEmpty (Search.contactUrl (searchResultOf env (Org.name o))) = Some u ->
         Cli.browse env u =
           Page {| emails := []; hasContactForm := true; formAction := None |} ->
         exists o',
           getOrg (Org.name o) (Cli.db (Cli.batch env d now)) = Some o'
           /\ Org.status o' = Success
           /\ Org.contact_type o' = Some CForm
           /\ Org.contact_value o' = Some u).
Proof.
  split; [exact selectFormUrl_cases|].
  intros env d now o u Hwf Hin Hs Hurl Hpage.
  assert (Hci : contactInfoOf env (Org.name o) u =
                extractContactInfo
                  (Page {| emails := []; hasContactForm := true; formAction := None |})
                  (Org.name o) u)
    by (unfold contactInfoOf; rewrite Hpage; reflexivity).
  assert (Herr : Js.truthy (error (contactInfoOf env (Org.name o) u)) = false)
    by (rewrite Hci; reflexivity).
  destruct (batch_extracted env d now o u Hwf Hin Hs Hurl Herr) as [t [a1 [a2 [Hv _]]]].
  rewrite Hci in Hv. apply view_row in Hv. destruct Hv as [Hr _].
  eexists. split; [exact Hr|]. simpl. auto.
Qed.

Lemma formUrl_fallback_witness :
  exists o',
    getOrg "Acme Org" (Cli.db (Cli.batch (acmeEnv acmeHit acmeFormPage) acmeDb 5000))
    = Some o'
    /\ Org.status o' = Success
    /\ Org.contact_type o' = Some CForm
    /\ Org.contact_value o' = Some "https://acme.org/contact".
Proof.
  exact (proj2 formUrl_fallback (acmeEnv acmeHit acmeFormPage) acmeDb 5000%Z acmeOrg
               "https://acme.org/contact"
               acmeDb_wellFormed acmeOrg_stored eq_refl eq_refl eq_refl).
Defined.

(* ------------------------------------------------------------------ *)
(** ** What a terminal write overwrites *)
(* ------------------------------------------------------------------ *)

Lemma getOrg_resetOrg n d m :
  getOrg m (resetOrg n d) =
  if m =? n then option_map clearStatus (getOrg m d) else getOrg m d.
Proof.
  unfold getOrg, resetOrg. simpl.
  induction (organizations d) as [|o l IH]; simpl.
  - destruct (m =? n); reflexivity.
  - destruct (Org.name o =? n) eqn:En; simpl.
    + apply String.eqb_eq in En. rewrite En.
      rewrite (String.eqb_sym n m).
      destruct (m =? n) eqn:Em; [reflexivity|]. rewrite IH. reflexivity.
    + destruct (Org.name o =? m) eqn:Em.
      * apply String.eqb_eq in Em. subst m. rewrite En. reflexivity.
      * exact IH.
Qed.

(** C9. [updateOrgContact] stores the supplied [contact_type],
    [contact_value] and [error_message] as they are (null when omitted),
    whatever the row held; [resetOrg] puts a row back to [pending] and
    keeps its channel.  So for every pending organization, whatever
    channel its row holds, a pass that ends in [failed] (stage A finds no
    usable URL, or the browser throws in stage B) leaves
    [contact_type = none] and [contact_value] null. *)
Theorem failed_pass_erases_channel :
  (forall (t : Z) (n : string) (data : ContactUpdate) (d : Database) (o : Organization),
      getOrg n d = Some o ->
      exists o',
        getOrg n (updateOrgContact t n data d) = Some o'
        /\ Org.contact_type o' = contact_type data
        /\ Org.contact_value o' = contact_value data
        /\ Org.error_message o' = error_message data)
  /\ (forall (n : string) (d : Database) (o : Organization),
         getOrg n d = Some o ->
         exists o',
           getOrg n (resetOrg n d) = Some o'
           /\ Org.status o' = Pending
           /\ Org.contact_type o' = Org.contact_type o
           /\ Org.contact_value o' = Org.contact_value o)
  /\ (forall (env : Cli.Env) (d : Database) (now : Z) (o : Organization),
         wellFormed d -> In o (organizations d) -> Org.status o = Pending ->
         exists o',
           getOrg (Org.name o) (Cli.db (Cli.batch env d now)) = Some o'
           /\ (Org.status o' = Failed ->
               Org.contact_type o' = Some CNone /\ Org.contact_value o' = None)
           /\ (Js.nonEmpty (Search.contactUrl (searchResultOf env (Org.name o))) = None ->
               Org.status o' = Failed)
           /\ (forall u,
                  Js.nonEmpty (Search.contactUrl (searchResultOf env (Org.name o))) = Some u ->
                  Js.truthy (error (contactInfoOf env (Org.name o) u)) = true ->
                  Org.status o' = Failed)).
Proof.
  split; [|split].
  - intros t n data d o H. exists (setContact t data o).
    rewrite getOrg_updateOrgContact, String.eqb_refl, H. simpl. auto.
  - intros n d o H. exists (clearStatus o).
    rewrite getOrg_resetOrg, String.eqb_refl, H. simpl. auto.
  - intros env d now o Hwf Hin Hs.
    destruct (batch_terminal_write env d now o Hwf Hin Hs) as [t [data [Hrow Hcases]]].
    exists (setContact t data o). split; [exact Hrow|].
    cbv zeta in Hcases.
    destruct Hcases as [[Hurl ->]|[[u [Hurl [Herr ->]]]|[u [Hurl [Herr ->]]]]]; simpl.
    + repeat split; auto.
    + repeat split; auto.
    + split; [|split].
      * destruct (ContactType_eqb _ _); discriminate.
      * rewrite Hurl. discriminate.
      * intros u' Hu'. rewrite Hurl in Hu'. injection Hu' as <-.
        rewrite Herr. discriminate.
Qed.

Lemma acmeReset_wellFormed : wellFormed acmeReset.
Proof. split; (constructor; [intros []|constructor]). Qed.

Lemma failed_pass_erases_channel_witness :
  getOrg "Acme Org" acmeReset = Some (clearStatus acmeContactedOrg)
  /\ Org.contact_value (clearStatus acmeContactedOrg) = Some "https://acme.org/contact"
  /\ exists o',
      getOrg "Acme Org"
        (Cli.db (Cli.batch (acmeEnv (Search.HttpError "429" "Too Many Requests")
                                    (Threw "unused")) acmeReset 90000)) = Some o'
      /\ Org.contact_type o' = Some CNone
      /\ Org.contact_value o' = None.
Proof.
  split; [reflexivity|]. split; [reflexivity|].
  destruct (proj2 (proj2 failed_pass_erases_channel)
              (acmeEnv (Search.HttpError "429" "Too Many Requests") (Threw "unused"))
              acmeReset 90000%Z (clearStatus acmeContactedOrg)
              acmeReset_wellFormed (or_introl eq_refl) eq_refl)
    as [o' [Hrow [Herase [Hfail _]]]].
  exists o'. split; [exact Hrow|]. apply Herase. apply Hfail. reflexivity.
Defined.

(* ------------------------------------------------------------------ *)
(** ** The channel invariant of the rows a pass writes *)
(* ------------------------------------------------------------------ *)

Lemma scanPrefixes_In ps es m : scanPrefixes ps es = Some m -> In m es.
Proof.
  induction ps as [|p ps IH]; simpl; [discriminate|].
  destruct (Js.truthy (findByPrefix p es)) eqn:E; [|exact IH].
  intros H. unfold findByPrefix in H. apply find_some in H. tauto.
Qed.

Lemma pickBestEmail_In es :
  es <> [] -> exists e, pickBestEmail es = Some e /\ In e es.
Proof.
  intros Hne. unfold pickBestEmail.
  destruct es as [|c cs]; [contradiction|].
  change (0 <? List.length (c :: cs))%nat with true. cbv iota zeta.
  destruct (scanPrefixes priorityPrefixes (c :: cs)) as [m|] eqn:E.
  - apply scanPrefixes_In in E.
    destruct (negb (Js.truthy (Some m))); [exists c; simpl; auto | exists m; auto].
  - simpl. exists c. auto.
Qed.

(** The stored value is non-null exactly when the channel is not [none],
    except on the two kinds of extraction [strayAction] and
    [blankEmail]. *)
Lemma value_iff_channel x org u :
  let ci := extractContactInfo (Page x) org u in
  (Js.or (email ci) (formUrl ci) <> None <-> contactType ci <> CNone)
  <-> ~ strayAction x /\ ~ blankEmail x.
Proof.
  destruct x as [es form action]. unfold strayAction, blankEmail. simpl.
  destruct es as [|c cs].
  - unfold pickBestEmail, selectFormUrl, determineContactType, Js.or. simpl.
    destruct (Js.truthy action) eqn:Ha; destruct form; simpl.
    all: try (assert (Hact : action <> None)
               by (destruct action; [discriminate|discriminate Ha])).
    all: split; [intros Hiff; split; intros Hk | intros Hk; split; intros Hv].
    all: try (destruct Hk as [H1 [H2 H3]]; discriminate).
    all: try discriminate.
    all: try assumption.
    all: try (exfalso; apply Hv; reflexivity).
    + apply (proj1 Hiff Hact). reflexivity.
    + exfalso. apply (proj1 Hk). auto.
  - destruct (pickBestEmail_In (c :: cs)) as [e [He _]]; [discriminate|].
    rewrite He.
    change (0 <? List.length (c :: cs))%nat with true.
    assert (Hty : determineContactType true form <> CNone)
      by (destruct form; discriminate).
    destruct (String.eqb_spec e "") as [->|Hne].
    + unfold Js.or, selectFormUrl. simpl.
      unfold Js.or. destruct (Js.truthy action) eqn:Ha; destruct form; simpl.
      all: try (assert (Hact : action <> None)
                 by (destruct action; [discriminate|discriminate Ha])).
      all: split; [intros Hiff; split; intros Hk | intros Hk; split; intros Hv].
      all: try (destruct Hk as [H1 [H2 H3]]; discriminate).
      all: try discriminate.
      all: try assumption.
      * apply (proj2 Hiff Hty). reflexivity.
      * exfalso. apply (proj2 Hk). auto.
    + assert (Hv : Js.or (Some e) (selectFormUrl
                     {| emails := c :: cs; hasContactForm := form;
                        formAction := action |} u) <> None).
      { unfold Js.or. simpl. apply String.eqb_neq in Hne. rewrite Hne. simpl.
        discriminate. }
      split.
      * intros _. split; intros [H _]; [discriminate|].
        injection H as H. apply Hne. exact H.
      * intros _. split; intros _; [exact Hty|exact Hv].
Qed.

(** A coherent extraction is of neither kind. *)
Lemma coherent_agrees x : coherent x -> ~ strayAction x /\ ~ blankEmail x.
Proof.
  intros [Hemails Hform]. split.
  - intros [_ [Hf Ha]]. rewrite (Hform Ha) in Hf. discriminate.
  - intros [Hbest _].
    destruct (emails x) as [|c cs] eqn:E; [discriminate|].
    destruct (pickBestEmail_In (c :: cs)) as [e [He Hin]]; [discriminate|].
    rewrite He in Hbest. injection Hbest as ->.
    rewrite Forall_forall in Hemails. apply (Hemails "" Hin). reflexivity.
Qed.

(** C1, as stated, fails: a page that reports a form action without the
    form flag leaves a row with [contact_type = none] and a non-null
    [contact_value]; a page whose only email is the empty string leaves a
    row with [status = success], [contact_type = email] and a null
    [contact_value]. *)
Lemma contact_invariant_counterexample :
  ~ invariantAfterBatch (acmeEnv acmeHit strayActionPage) acmeDb 5000
  /\ ~ invariantAfterBatch (acmeEnv acmeHit blankEmailPage) acmeDb 5000.
Proof.
  split; intros H.
  - destruct (H acmeOrg _ acmeOrg_stored eq_refl eq_refl) as [[Hval _] _].
    simpl in Hval. apply Hval; [discriminate|reflexivity].
  - destruct (H acmeOrg _ acmeOrg_stored eq_refl eq_refl) as [_ Hsucc].
    simpl in Hsucc. destruct (Hsucc eq_refl) as [_ Hval]. apply Hval. reflexivity.
Qed.

(** C1, amended. In the row a pass writes for a pending organization,
    [contact_type] is one of the four channels and [status = success]
    implies that it is not [none].  The row satisfies the whole invariant
    ([contact_value] non-null if and only if [contact_type] is not
    [none], and [status = success] only with a channel and a non-null
    [contact_value]) exactly when what the browser extracted for this
    organization is neither a form action with no email and no form flag,
    nor an empty string selected as the email with no form flag and no
    form action; in particular when this organization's extraction is
    coherent (no empty-string email, no form action without the form
    flag).  Pages of other organizations play no part. *)
Theorem batch_contact_invariant
        (env : Cli.Env) (d : Database) (now : Z) (o : Organization) :
  wellFormed d -> In o (organizations d) -> Org.status o = Pending ->
  exists o' c,
    getOrg (Org.name o) (Cli.db (Cli.batch env d now)) = Some o'
    /\ Org.contact_type o' = Some c
    /\ (Org.status o' = Success -> c <> CNone)
    /\ (contactInvariant o'
        <-> forall x, extractionOf env (Org.name o) x ->
                      ~ strayAction x /\ ~ blankEmail x)
    /\ ((forall x, extractionOf env (Org.name o) x -> coherent x) ->
        contactInvariant o').
Proof.
  intros Hwf Hin Hs.
  destruct (batch_terminal_write env d now o Hwf Hin Hs) as [t [data [Hrow Hcases]]].
  cbv zeta in Hcases.
  assert (Hclose :
    forall o' c,
      getOrg (Org.name o) (Cli.db (Cli.batch env d now)) = Some o' ->
      Org.contact_type o' = Some c ->
      (Org.status o' = Success -> c <> CNone) ->
      (contactInvariant o'
       <-> forall x, extractionOf env (Org.name o) x ->
                     ~ strayAction x /\ ~ blankEmail x) ->
      exists o' c,
        getOrg (Org.name o) (Cli.db (Cli.batch env d now)) = Some o'
        /\ Org.contact_type o' = Some c
        /\ (Org.status o' = Success -> c <> CNone)
        /\ (contactInvariant o'
            <-> forall x, extractionOf env (Org.name o) x ->
                          ~ strayAction x /\ ~ blankEmail x)
        /\ ((forall x, extractionOf env (Org.name o) x -> coherent x) ->
            contactInvariant o')).
  { intros o' c H1 H2 H3 H4. exists o', c.
    split; [exact H1|]. split; [exact H2|]. split; [exact H3|]. split; [exact H4|].
    intros Hco. apply H4. intros x Hx. apply coherent_agrees. apply Hco. exact Hx. }
  destruct Hcases as [[Hurl ->]|[[u [Hurl [Herr ->]]]|[u [Hurl [Herr ->]]]]].
  - apply (Hclose _ CNone Hrow); [reflexivity|simpl; discriminate|].
    split.
    + intros _ x [u' [Hu' _]]. rewrite Hurl in Hu'. discriminate.
    + intros _. unfold contactInvariant. simpl.
      split; [split; intros Hc; exfalso; apply Hc; reflexivity|discriminate].
  - apply (Hclose _ CNone Hrow); [reflexivity|simpl; discriminate|].
    split.
    + intros _ x [u' [Hu' Hpage]]. rewrite Hurl in Hu'. injection Hu' as <-.
      unfold contactInfoOf in Herr. rewrite Hpage in Herr. discriminate.
    + intros _. unfold contactInvariant. simpl.
      split; [split; intros Hc; exfalso; apply Hc; reflexivity|discriminate].
  - assert (Hstatus :
              (if ContactType_eqb (contactType (contactInfoOf env (Org.name o) u)) CNone
               then Manual else Success) = Success ->
              contactType (contactInfoOf env (Org.name o) u) <> CNone).
    { destruct (contactType (contactInfoOf env (Org.name o) u)); simpl;
        intros; discriminate. }
    apply (Hclose _ (contactType (contactInfoOf env (Org.name o) u)) Hrow);
      [reflexivity|exact Hstatus|].
    assert (Hinv :
      contactInvariant
        (setContact t (extractedData (searchResultOf env (Org.name o))
                                     (contactInfoOf env (Org.name o) u)) o)
      <-> (Js.or (email (contactInfoOf env (Org.name o) u))
                 (formUrl (contactInfoOf env (Org.name o) u)) <> None
           <-> contactType (contactInfoOf env (Org.name o) u) <> CNone)).
    { unfold contactInvariant. simpl. split.
      - intros [[H1 H2] _]. split.
        + intros Hv E. apply (H1 Hv). congruence.
        + intros Hc. apply H2. intros E. apply Hc. congruence.
      - intros [H1 H2]. split; [split|].
        + intros Hv E. apply (H1 Hv). congruence.
        + intros Hc. apply H2. intros E. apply Hc. congruence.
        + intros Hsucc. pose proof (Hstatus Hsucc) as Hc. split.
          * intros E. apply Hc. congruence.
          * apply H2. exact Hc. }
    rewrite Hinv. unfold contactInfoOf.
    destruct (Cli.browse env u) as [m|x] eqn:Hpage.
    + unfold contactInfoOf in Herr. rewrite Hpage in Herr. simpl in Herr.
      split.
      * intros _ x [u' [Hu' Hpage']]. rewrite Hurl in Hu'. injection Hu' as <-.
        rewrite Hpage in Hpage'. discriminate.
      * intros _. simpl. split; intros Hc; exfalso; apply Hc; reflexivity.
    + rewrite (value_iff_channel x (Org.name o) u). split.
      * intros Hx x' [u' [Hu' Hpage']]. rewrite Hurl in Hu'. injection Hu' as <-.
        rewrite Hpage in Hpage'. injection Hpage' as <-. exact Hx.
      * intros Hall. apply Hall. exists u. split; [exact Hurl|exact Hpage].
Qed.

Lemma batch_contact_invariant_witness :
  exists o',
    getOrg "Acme Org"
      (Cli.db (Cli.batch
                 (acmeEnv acmeHit
                    (Page {| emails := ["office@acme.org"]; hasContactForm := false;
                             formAction := None |})) acmeDb 5000)) = Some o'
    /\ contactInvariant o'.
Proof.
  destruct (batch_contact_invariant
              (acmeEnv acmeHit
                 (Page {| emails := ["office@acme.org"]; hasContactForm := false;
                          formAction := None |}))
              acmeDb 5000 acmeOrg acmeDb_wellFormed acmeOrg_stored eq_refl)
    as [o' [c [Hrow [Hty [Hsucc [Hiff Hco]]]]]].
  exists o'. split; [exact Hrow|]. apply Hco.
  intros x [u [_ Hpage]]. injection Hpage as <-. split.
  - repeat constructor. discriminate.
  - discriminate.
Defined.

(* ================================================================== *)
(** * Further properties of the store *)
(* ================================================================== *)

(** ** [importOrgs] *)

Lemma getOrg_app_some n rows more att att' o :
  getOrg n {| organizations := rows; attempts := att |} = Some o ->
  getOrg n {| organizations := rows ++ more; attempts := att' |} = Some o.
Proof.
  unfold getOrg. simpl. induction rows as [|r rows IH]; simpl; [discriminate|].
  destruct (Org.name r =? n); auto.
Qed.

Lemma find_app_none {A} (f : A -> bool) l m :
  find f l = None -> find f (l ++ m) = find f m.
Proof.
  induction l as [|x l IH]; simpl; [reflexivity|].
  destruct (f x); [discriminate|exact IH].
Qed.

(** What one [INSERT OR IGNORE] does to the table. *)
Lemma insertOrIgnore_spec now n d :
  let '(d', changed) := insertOrIgnore now n d in
  attempts d' = attempts d
  /\ ((changed = false /\ d' = d /\ getOrg n d <> None)
      \/ (changed = true /\ getOrg n d = None
          /\ exists o, organizations d' = organizations d ++ [o]
                       /\ freshRow now n o /\ getOrg n d' = Some o)).
Proof.
  unfold insertOrIgnore. destruct (getOrg n d) as [o|] eqn:E.
  - split; [reflexivity|]. left. repeat split. discriminate.
  - split; [reflexivity|]. right. repeat split.
    eexists. split; [reflexivity|]. split.
    + repeat split.
    + unfold getOrg in *. simpl. rewrite (find_app_none _ _ _ E). simpl.
      rewrite String.eqb_refl. reflexivity.
Qed.

Lemma importOrgs_spec now names :
  forall d,
    let '(d', count) := importOrgs now names d in
    attempts d' = attempts d
    /\ exists added,
        organizations d' = organizations d ++ added
        /\ count = Z.of_nat (List.length added)
        /\ Forall (fun o => In (Org.name o) names /\ freshRow now (Org.name o) o
                            /\ getOrg (Org.name o) d = None) added.
Proof.
  induction names as [|n names IH]; intros d; simpl.
  - split; [reflexivity|]. exists []. rewrite app_nil_r. repeat split. constructor.
  - pose proof (insertOrIgnore_spec now n d) as H1.
    destruct (insertOrIgnore now n d) as [d1 changed].
    specialize (IH d1). destruct (importOrgs now names d1) as [d2 count].
    destruct H1 as [Ha1 H1]. destruct IH as [Ha2 [added [Horg [Hcount Hall]]]].
    split; [congruence|].
    destruct H1 as [[-> [-> Hpresent]]|[-> [Habsent [o [Ho [Hfresh Hget]]]]]].
    + exists added. split; [exact Horg|]. split; [exact Hcount|].
      eapply Forall_impl; [|exact Hall]. simpl. intros a [Hin [Hf Hg]]. auto.
    + exists (o :: added). split; [|split].
      * rewrite Horg, Ho, <- app_assoc. reflexivity.
      * rewrite Hcount. simpl List.length. lia.
      * constructor.
        -- pose proof Hfresh as Hf. destruct Hf as [Hn _]. rewrite Hn.
           split; [left; reflexivity|]. split; assumption.
        -- eapply Forall_impl; [|exact Hall]. simpl. intros a [Hin [Hf Hg]].
           split; [right; exact Hin|]. split; [exact Hf|].
           destruct (getOrg (Org.name a) d) as [x|] eqn:E; [|reflexivity].
           exfalso. destruct d as [rows att], d1 as [rows1 att1]. simpl in *. subst rows1.
           rewrite (getOrg_app_some _ rows [o] att att1 x E) in Hg. discriminate.
Qed.

(** X1. [importOrgs] only appends rows: the rows already stored stay as
    they are and in place, the attempts table is not touched, the returned
    count is the number of rows appended, every appended row is a fresh
    pending row for a listed name that was not stored before, and the
    table constraints (unique ids, unique names) are kept. *)
Theorem importOrgs_appends (now : Z) (names : list string) (d : Database) :
  wellFormed d ->
  exists added,
    organizations (fst (importOrgs now names d)) = organizations d ++ added
    /\ attempts (fst (importOrgs now names d)) = attempts d
    /\ snd (importOrgs now names d) = Z.of_nat (List.length added)
    /\ Forall (fun o => In (Org.name o) names /\ freshRow now (Org.name o) o
                        /\ getOrg (Org.name o) d = None) added
    /\ wellFormed (fst (importOrgs now names d)).
Proof.
  intros Hwf. pose proof (importOrgs_spec now names d) as H.
  pose proof (importOrgs_wellFormed now names d Hwf) as Hwf'.
  destruct (importOrgs now names d) as [d' count]. simpl in *.
  destruct H as [Ha [added [Ho [Hc Hall]]]]. exists added. auto.
Qed.

Lemma importOrgs_appends_witness :
  exists added,
    organizations (fst (importOrgs 2000 ["Beta Fund"; "Acme Org"; "Beta Fund"] acmeDb))
    = organizations acmeDb ++ added
    /\ snd (importOrgs 2000 ["Beta Fund"; "Acme Org"; "Beta Fund"] acmeDb) = 1%Z.
Proof.
  destruct (importOrgs_appends 2000 ["Beta Fund"; "Acme Org"; "Beta Fund"] acmeDb
              acmeDb_wellFormed) as [added [Ho [_ [Hc _]]]].
  exists added. split; [exact Ho|]. reflexivity.
Defined.

Lemma importOrgs_keeps now names d n o :
  getOrg n d = Some o -> getOrg n (fst (importOrgs now names d)) = Some o.
Proof.
  intros H. pose proof (importOrgs_spec now names d) as S.
  destruct (importOrgs now names d) as [d' count]. simpl.
  destruct S as [_ [added [Ho _]]].
  destruct d as [rows att], d' as [rows' att']. simpl in Ho. subst rows'.
  eapply getOrg_app_some. exact H.
Qed.

Lemma importOrgs_stores now names :
  forall d n,
    In n names ->
    exists o,
      getOrg n (fst (importOrgs now names d)) = Some o
      /\ (getOrg n d = None -> freshRow now n o)
      /\ (forall o0, getOrg n d = Some o0 -> o = o0).
Proof.
  induction names as [|m names IH]; intros d n Hin; [contradiction|].
  simpl. pose proof (insertOrIgnore_spec now m d) as H1.
  destruct (insertOrIgnore now m d) as [d1 changed] eqn:E1.
  pose proof (importOrgs_keeps now names d1) as Hkeep.
  specialize (IH d1).
  destruct (importOrgs now names d1) as [d2 count]. simpl in *.
  destruct H1 as [_ H1].
  destruct (String.eqb_spec m n) as [->|Hne].
  - destruct H1 as [[_ [-> Hpresent]]|[_ [Habsent [o [_ [Hfresh Hget]]]]]].
    + destruct (getOrg n d) as [o0|] eqn:E0; [|contradiction].
      exists o0. split; [apply Hkeep; exact E0|]. split; [discriminate|]. congruence.
    + exists o. split; [apply Hkeep; exact Hget|]. split; [auto|].
      intros o0 H0. rewrite Habsent in H0. discriminate.
  - destruct Hin as [Hin|Hin]; [contradiction|].
    destruct (IH n Hin) as [o [Hget [Hfresh Hsame]]].
    assert (Hd1 : getOrg n d1 = getOrg n d).
    { destruct H1 as [[_ [-> _]]|[_ [_ [x [Hx [[Hxn _] _]]]]]]; [reflexivity|].
      unfold getOrg. rewrite Hx.
      destruct (find (fun o => Org.name o =? n) (organizations d)) as [y|] eqn:Ey.
      - destruct d as [rows att]. simpl in *.
        apply (getOrg_app_some n rows [x] att att y Ey).
      - rewrite (find_app_none _ _ _ Ey). simpl. rewrite Hxn.
        apply String.eqb_neq in Hne. rewrite Hne. reflexivity. }
    rewrite Hd1 in Hfresh, Hsame. exists o. auto.
Qed.

Lemma importOrgs_all_present now names :
  forall d, (forall n, In n names -> getOrg n d <> None) ->
            importOrgs now names d = (d, 0%Z).
Proof.
  induction names as [|m names IH]; intros d H; simpl; [reflexivity|].
  unfold insertOrIgnore.
  destruct (getOrg m d) as [o|] eqn:E.
  - rewrite IH; [reflexivity|]. intros n Hn. apply H. right. exact Hn.
  - exfalso. apply (H m); [left; reflexivity|exact E].
Qed.

(** X2. Importing a list a second time changes nothing: every name is
    already stored, no row is created and the returned count is 0. *)
Theorem importOrgs_idempotent (now later : Z) (names : list string) (d : Database) :
  importOrgs later names (fst (importOrgs now names d))
  = (fst (importOrgs now names d), 0%Z).
Proof.
  apply importOrgs_all_present. intros n Hn.
  destruct (importOrgs_stores now names d n Hn) as [o [Hget _]].
  rewrite Hget. discriminate.
Qed.

(** X3. After [importOrgs] every listed name can be looked up: a name
    that was stored before still has its old row, unchanged, and a new
    name has a fresh row: pending, zero attempts, no website, no channel,
    no error, created at the time of the import. *)
Theorem importOrgs_lookup (now : Z) (names : list string) (d : Database) (n : string) :
  In n names ->
  exists o,
    getOrg n (fst (importOrgs now names d)) = Some o
    /\ Org.name o = n
    /\ (getOrg n d = None -> freshRow now n o)
    /\ (forall o0, getOrg n d = Some o0 -> o = o0).
Proof.
  intros Hin. destruct (importOrgs_stores now names d n Hin) as [o [Hget [Hf Hs]]].
  exists o. split; [exact Hget|]. split; [|auto].
  apply getOrg_some in Hget. tauto.
Qed.

Lemma importOrgs_lookup_witness :
  exists o,
    getOrg "Beta Fund" (fst (importOrgs 2000 ["Beta Fund"; "Acme Org"] acmeContacted))
    = Some o
    /\ Org.status o = Pending /\ Org.attempts o = 0%Z
    /\ getOrg "Acme Org" (fst (importOrgs 2000 ["Beta Fund"; "Acme Org"] acmeContacted))
       = Some acmeContactedOrg.
Proof.
  destruct (importOrgs_lookup 2000 ["Beta Fund"; "Acme Org"] acmeContacted "Beta Fund"
              (or_introl eq_refl)) as [o [Hget [_ [Hfresh _]]]].
  exists o. split; [exact Hget|].
  destruct (Hfresh eq_refl) as [_ [_ [_ [_ [Hs [_ [Ha _]]]]]]].
  split; [exact Hs|]. split; [exact Ha|]. reflexivity.
Defined.

(** ** [ORDER BY name] *)

Lemma nameLe_total a b : nameLe a b \/ nameLe b a.
Proof. apply String.leb_total. Qed.

Lemma insertByName_HdRel x o r :
  HdRel nameLe x r -> nameLe x o -> HdRel nameLe x (insertByName o r).
Proof.
  intros Hr Hxo. destruct r as [|y r]; simpl; [constructor; exact Hxo|].
  destruct (String.leb (Org.name o) (Org.name y)); constructor; [exact Hxo|].
  inversion Hr; assumption.
Qed.

Lemma insertByName_sorted o l : Sorted nameLe l -> Sorted nameLe (insertByName o l).
Proof.
  induction 1 as [|x r Hs IH Hhd]; simpl.
  - repeat constructor.
  - destruct (String.leb (Org.name o) (Org.name x)) eqn:E.
    + constructor; [constructor; assumption|]. constructor. exact E.
    + constructor; [exact IH|]. apply insertByName_HdRel; [exact Hhd|].
      destruct (nameLe_total x o) as [H|H]; [exact H|].
      unfold nameLe in H. rewrite E in H. discriminate.
Qed.

Lemma orderByName_sorted l : Sorted nameLe (orderByName l).
Proof.
  induction l as [|x l IH]; simpl; [constructor|].
  apply insertByName_sorted. exact IH.
Qed.

(** X4. [getOrgsByStatus] returns exactly the stored rows that have the
    given status, each as often as it is stored, in ascending order of
    name; [getAllOrgs] returns all stored rows in that order. *)
Theorem getOrgsByStatus_sorted (s : Status) (d : Database) :
  Sorted nameLe (getOrgsByStatus s d)
  /\ Permutation (getOrgsByStatus s d)
                 (filter (fun o => Status_eqb (Org.status o) s) (organizations d))
  /\ (forall o, In o (getOrgsByStatus s d) <-> In o (organizations d) /\ Org.status o = s)
  /\ Sorted nameLe (getAllOrgs d)
  /\ Permutation (getAllOrgs d) (organizations d).
Proof.
  unfold getOrgsByStatus, getAllOrgs.
  split; [apply orderByName_sorted|].
  split; [apply orderByName_perm|].
  split; [intros o; apply getOrgsByStatus_In|].
  split; [apply orderByName_sorted|apply orderByName_perm].
Qed.

(** ** [resetOrg] and [resetAllOrgs] *)

Lemma map_id_when {A} (f : A -> A) (p : A -> bool) l :
  (forall x, In x l -> p x = false) ->
  map (fun x => if p x then f x else x) l = l.
Proof.
  induction l as [|x l IH]; simpl; intros H; [reflexivity|].
  rewrite (H x) by (left; reflexivity). f_equal. apply IH. intros y Hy. apply H. right. exact Hy.
Qed.

(** X5. [resetOrg] on a stored name sets [status] to [pending] and clears
    [error_message], and keeps the key, the website, the channel, the
    attempt counter and the time of the last attempt.  It leaves the rows
    of other names and the attempts table alone, resetting twice is
    resetting once, and resetting a name that is not stored changes
    nothing. *)
Theorem resetOrg_effect (n : string) (d : Database) :
  (forall o, getOrg n d = Some o ->
     exists o',
       getOrg n (resetOrg n d) = Some o'
       /\ Org.status o' = Pending /\ Org.error_message o' = None
       /\ Org.id o' = Org.id o /\ Org.name o' = Org.name o
       /\ Org.website o' = Org.website o
       /\ Org.contact_type o' = Org.contact_type o
       /\ Org.contact_value o' = Org.contact_value o
       /\ Org.attempts o' = Org.attempts o
       /\ Org.last_attempt_at o' = Org.last_attempt_at o)
  /\ (forall m, m <> n -> getOrg m (resetOrg n d) = getOrg m d)
  /\ attempts (resetOrg n d) = attempts d
  /\ resetOrg n (resetOrg n d) = resetOrg n d
  /\ (getOrg n d = None -> resetOrg n d = d).
Proof.
  split; [|split; [|split; [|split]]].
  - intros o H. exists (clearStatus o).
    rewrite getOrg_resetOrg, String.eqb_refl, H. simpl. repeat split.
  - intros m Hm. rewrite getOrg_resetOrg. apply String.eqb_neq in Hm. rewrite Hm. reflexivity.
  - reflexivity.
  - unfold resetOrg. simpl. f_equal. rewrite map_map. apply map_ext.
    intros o. destruct (Org.name o =? n) eqn:E; simpl; rewrite E; reflexivity.
  - intros H. destruct d as [rows att]. unfold resetOrg. simpl. f_equal.
    apply map_id_when. intros o Ho. unfold getOrg in H. simpl in H.
    exact (find_none _ _ H o Ho).
Qed.

(** X6. After [resetAllOrgs] every row is [pending] with no error message,
    with its key, channel and attempt counter as before; the pending
    query then returns the whole table, so the next pass takes up every
    organization. *)
Theorem resetAllOrgs_effect (d : Database) :
  (forall o', In o' (organizations (resetAllOrgs d)) ->
     Org.status o' = Pending /\ Org.error_message o' = None)
  /\ organizations (resetAllOrgs d) = map clearStatus (organizations d)
  /\ keys (resetAllOrgs d) = keys d
  /\ attempts (resetAllOrgs d) = attempts d
  /\ getOrgsByStatus Pending (resetAllOrgs d) = getAllOrgs (resetAllOrgs d)
  /\ List.length (getOrgsByStatus Pending (resetAllOrgs d))
     = List.length (organizations d)
  /\ resetAllOrgs (resetAllOrgs d) = resetAllOrgs d.
Proof.
  assert (Hfilter : filter (fun o => Status_eqb (Org.status o) Pending)
                           (map clearStatus (organizations d))
                    = map clearStatus (organizations d)).
  { induction (organizations d) as [|o l IH]; simpl; [reflexivity|]. rewrite IH. reflexivity. }
  split; [|split; [|split; [|split; [|split; [|split]]]]].
  - simpl. intros o' H. apply in_map_iff in H. destruct H as [o [<- _]]. split; reflexivity.
  - reflexivity.
  - unfold keys. simpl. rewrite map_map. reflexivity.
  - reflexivity.
  - unfold getOrgsByStatus, getAllOrgs. simpl. rewrite Hfilter. reflexivity.
  - unfold getOrgsByStatus. simpl. rewrite Hfilter.
    rewrite (Permutation_length (orderByName_perm _)). apply length_map.
  - unfold resetAllOrgs. simpl. f_equal. rewrite map_map. reflexivity.
Qed.

(** ** [logAttempt] *)

(** X7. [logAttempt] for a name that is not stored does nothing.  For a
    stored name it appends one row to the attempts table, after all
    earlier rows, with an id that no earlier row has, the organization's
    id, and the type, outcome, details and time it was given; the
    organizations table is never touched. *)
Theorem logAttempt_appends
        (t : Z) (n : string) (ty : AttemptType) (ok : bool)
        (det : option Details) (shot : option string) (d : Database) :
  organizations (logAttempt t n ty ok det shot d) = organizations d
  /\ (getOrg n d = None -> logAttempt t n ty ok det shot d = d)
  /\ (forall o, getOrg n d = Some o ->
        exists a,
          attempts (logAttempt t n ty ok det shot d) = attempts d ++ [a]
          /\ ~ In (Att.id a) (map Att.id (attempts d))
          /\ Att.org_id a = Org.id o
          /\ Att.attempt_type a = ty /\ Att.success a = ok
          /\ Att.details a = det /\ Att.screenshot_path a = shot
          /\ Att.created_at a = t).
Proof.
  split; [apply organizations_logAttempt|]. split.
  - intros H. unfold logAttempt. rewrite H. reflexivity.
  - intros o H. unfold logAttempt. rewrite H. simpl.
    eexists. split; [reflexivity|]. simpl. repeat split. apply nextId_fresh.
Qed.

(** ** [getStats] *)

Lemma sumCase_count p rows :
  orZero (sumCase p rows) = Z.of_nat (List.length (filter p rows)).
Proof.
  destruct rows as [|r rows]; [reflexivity|].
  unfold sumCase, orZero. generalize (r :: rows). clear.
  induction l as [|x l IH]; simpl; [reflexivity|].
  rewrite IH. destruct (p x); simpl List.length; lia.
Qed.

Lemma length_filter_cons {A} (p : A -> bool) x l :
  Z.of_nat (List.length (filter p (x :: l)))
  = ((if p x then 1 else 0) + Z.of_nat (List.length (filter p l)))%Z.
Proof. simpl. destruct (p x); cbn [List.length]; lia. Qed.

(** X8. [getStats] counts rows: [total] is the number of rows, the four
    status counts add up to [total], [withEmail] counts the rows whose
    channel is [email] or [both] and [withForm] those whose channel is
    [form] or [both] (a [both] row counts in each, a row without channel
    in neither); on an empty table every count is 0. *)
Theorem getStats_counts (d : Database) :
  let s := getStats d in
  Stats.total s = Z.of_nat (List.length (organizations d))
  /\ (Stats.pending s + Stats.success s + Stats.failed s + Stats.manual s)%Z
     = Stats.total s
  /\ Stats.pending s = countRows (fun o => Status_eqb (Org.status o) Pending) d
  /\ Stats.withEmail s = countRows (contactTypeIn [CEmail; CBoth]) d
  /\ Stats.withForm s = countRows (contactTypeIn [CForm; CBoth]) d
  /\ (Stats.withEmail s + Stats.withForm s)%Z
     = (countRows (contactTypeIn [CEmail; CForm; CBoth]) d
        + countRows (contactTypeIn [CBoth]) d)%Z
  /\ (organizations d = [] ->
      s = {| Stats.total := 0; Stats.pending := 0; Stats.success := 0;
             Stats.failed := 0; Stats.manual := 0; Stats.withEmail := 0;
             Stats.withForm := 0 |}).
Proof.
  cbv zeta. unfold getStats, countRows. cbn [Stats.total Stats.pending Stats.success
    Stats.failed Stats.manual Stats.withEmail Stats.withForm].
  rewrite !sumCase_count.
  split; [reflexivity|]. split.
  - induction (organizations d) as [|o l IH]; [reflexivity|].
    cbn [List.length]. rewrite !length_filter_cons, Nat2Z.inj_succ.
    set (a := Z.of_nat (List.length (filter (fun o => Status_eqb (Org.status o) Pending) l))) in *.
    set (b := Z.of_nat (List.length (filter (fun o => Status_eqb (Org.status o) Success) l))) in *.
    set (c := Z.of_nat (List.length (filter (fun o => Status_eqb (Org.status o) Failed) l))) in *.
    set (e := Z.of_nat (List.length (filter (fun o => Status_eqb (Org.status o) Manual) l))) in *.
    clearbody a b c e. destruct (Org.status o); cbn [Status_eqb]; lia.
  - split; [reflexivity|]. split; [reflexivity|]. split; [reflexivity|]. split.
    + induction (organizations d) as [|o l IH]; [reflexivity|].
      rewrite !length_filter_cons.
      set (a := Z.of_nat (List.length (filter (contactTypeIn [CEmail; CBoth]) l))) in *.
      set (b := Z.of_nat (List.length (filter (contactTypeIn [CForm; CBoth]) l))) in *.
      set (c := Z.of_nat (List.length (filter (contactTypeIn [CEmail; CForm; CBoth]) l))) in *.
      set (e := Z.of_nat (List.length (filter (contactTypeIn [CBoth]) l))) in *.
      clearbody a b c e. unfold contactTypeIn.
      destruct (Org.contact_type o) as [[]|];
        cbn [existsb ContactType_eqb orb]; lia.
    + intros ->. reflexivity.
Qed.

(** ** Lookups *)

(** X9. On a store that meets the table constraints, a stored row is what
    both lookups return: [getOrg] at its name and [getOrgById] at its id;
    and whatever either lookup returns is a stored row with that name or
    id. *)
Theorem lookups_agree (d : Database) (o : Organization) :
  wellFormed d -> In o (organizations d) ->
  getOrg (Org.name o) d = Some o
  /\ getOrgById (Org.id o) d = Some o
  /\ (forall n r, getOrg n d = Some r -> In r (organizations d) /\ Org.name r = n)
  /\ (forall i r, getOrgById i d = Some r -> In r (organizations d) /\ Org.id r = i).
Proof.
  intros Hwf Hin. split; [apply wellFormed_getOrg; assumption|]. split; [|split].
  - unfold getOrgById.
    destruct (find (fun r => (Org.id r =? Org.id o)%Z) (organizations d)) as [r|] eqn:E.
    + apply find_some in E. destruct E as [Hr Heq]. apply Z.eqb_eq in Heq.
      f_equal. destruct Hwf as [Hi _]. unfold keys in Hi. rewrite map_map in Hi.
      simpl in Hi. apply (NoDup_map_eq Org.id (organizations d)); assumption.
    + exfalso. apply (find_none _ _ E) in Hin. rewrite Z.eqb_refl in Hin. discriminate.
  - intros n r H. apply getOrg_some. exact H.
  - intros i r H. unfold getOrgById in H. apply find_some in H.
    destruct H as [Hr Heq]. apply Z.eqb_eq in Heq. auto.
Qed.

Lemma lookups_agree_witness :
  getOrg "Acme Org" acmeContacted = Some acmeContactedOrg
  /\ getOrgById 1 acmeContacted = Some acmeContactedOrg.
Proof.
  assert (Hwf : wellFormed acmeContacted) by (split; (constructor; [intros []|constructor])).
  destruct (lookups_agree acmeContacted acmeContactedOrg Hwf (or_introl eq_refl))
    as [H1 [H2 _]].
  split; assumption.
Defined.

(* ================================================================== *)
(** * Further properties of a pass *)
(* ================================================================== *)

(** ** The tables as a whole *)

Lemma extendsLog_refl a : extendsLog a a.
Proof. split; [exists []; rewrite app_nil_r; reflexivity|auto]. Qed.

Lemma extendsLog_trans a b c : extendsLog a b -> extendsLog b c -> extendsLog a c.
Proof.
  intros [[m1 ->] H1] [[m2 ->] H2]. split; [|auto].
  exists (m1 ++ m2). rewrite app_assoc. reflexivity.
Qed.

Lemma logAttempt_extends t n ty ok det shot d :
  extendsLog (attempts d) (attempts (logAttempt t n ty ok det shot d)).
Proof.
  unfold logAttempt. destruct (getOrg n d) as [o|]; [|apply extendsLog_refl].
  simpl. split; [eexists; reflexivity|].
  intros Hnd. rewrite map_app. simpl.
  apply Permutation_NoDup with (l := nextId (map Att.id (attempts d)) :: map Att.id (attempts d)).
  - apply Permutation_cons_append.
  - constructor; [apply nextId_fresh|exact Hnd].
Qed.

Lemma processOrg_extends env st p :
  extendsLog (attempts (Cli.db st)) (attempts (Cli.db (Cli.processOrg env st p))).
Proof.
  unfold Cli.processOrg.
  destruct (Js.nonEmpty _) as [u|]; [destruct (Js.truthy _)|]; simpl.
  - eapply extendsLog_trans; [apply logAttempt_extends|].
    eapply extendsLog_trans; [|apply logAttempt_extends]. apply extendsLog_refl.
  - eapply extendsLog_trans; [apply logAttempt_extends|].
    eapply extendsLog_trans; [|apply logAttempt_extends]. apply extendsLog_refl.
  - eapply extendsLog_trans; [|apply logAttempt_extends]. apply extendsLog_refl.
Qed.

Lemma fold_processOrg_tables env l :
  forall st,
    keys (Cli.db (fold_left (Cli.processOrg env) l st)) = keys (Cli.db st)
    /\ extendsLog (attempts (Cli.db st))
                  (attempts (Cli.db (fold_left (Cli.processOrg env) l st))).
Proof.
  induction l as [|p l IH]; intros st; simpl.
  - split; [reflexivity|apply extendsLog_refl].
  - destruct (IH (Cli.processOrg env st p)) as [Hk He]. split.
    + rewrite Hk. apply processOrg_keys.
    + eapply extendsLog_trans; [apply processOrg_extends|exact He].
Qed.

Lemma batch_keys_log env d now :
  keys (Cli.db (Cli.batch env d now)) = keys d
  /\ (wellFormed d -> wellFormed (Cli.db (Cli.batch env d now)))
  /\ extendsLog (attempts d) (attempts (Cli.db (Cli.batch env d now))).
Proof.
  unfold Cli.batch, Cli.batchFrom.
  destruct (fold_processOrg_tables env (getOrgsByStatus Pending (Cli.db (Cli.start d now)))
              (Cli.start d now)) as [Hk Hext].
  change (Cli.db (Cli.start d now)) with d in *.
  split; [exact Hk|]. split; [|exact Hext].
  unfold wellFormed. rewrite Hk. auto.
Qed.

(** X12. A pass neither creates nor deletes nor renames an organization:
    the ids and names of the rows are the same, in the same order, so the
    table constraints are kept.  The attempts table only grows at its
    end: every earlier row is still there, unchanged and in place, and
    the ids of the rows stay unique. *)
Theorem batch_tables (env : Cli.Env) (d : Database) (now : Z) :
  let d' := Cli.db (Cli.batch env d now) in
  keys d' = keys d
  /\ (wellFormed d -> wellFormed d')
  /\ (exists more, attempts d' = attempts d ++ more)
  /\ (NoDup (map Att.id (attempts d)) -> NoDup (map Att.id (attempts d'))).
Proof.
  cbv zeta. destruct (batch_keys_log env d now) as [Hk [Hwf [Hpre Hnd]]].
  split; [exact Hk|]. split; [exact Hwf|]. split; [exact Hpre|exact Hnd].
Qed.

(** ** Rows that are not pending *)

Lemma batch_frame env d now o :
  wellFormed d -> In o (organizations d) -> Org.status o <> Pending ->
  view (Org.name o) (Org.id o) (Cli.batch env d now)
  = view (Org.name o) (Org.id o) (Cli.start d now).
Proof.
  intros Hwf Hin Hs. unfold Cli.batch, Cli.batchFrom.
  apply fold_processOrg_frame.
  - intros p Hp E. apply getOrgsByStatus_In in Hp. simpl in Hp. destruct Hp as [Hp Hps].
    assert (p = o).
    { destruct Hwf as [_ Hn]. unfold keys in Hn. rewrite map_map in Hn. simpl in Hn.
      apply (NoDup_map_eq Org.name (organizations d)); assumption. }
    subst p. contradiction.
  - intros p j Hp Hj E. subst j. apply getOrgsByStatus_In in Hp. simpl in Hp, Hj.
    destruct Hp as [Hp Hps].
    assert (Hn : Org.name p = Org.name o).
    { apply (wellFormed_name_of_id d (Org.id o)); auto. apply in_keys. exact Hin. }
    assert (p = o).
    { destruct Hwf as [_ Hnd]. unfold keys in Hnd. rewrite map_map in Hnd. simpl in Hnd.
      apply (NoDup_map_eq Org.name (organizations d)); assumption. }
    subst p. contradiction.
Qed.

(** X11. A pass leaves every organization that is not pending exactly as
    it was: its row is unchanged, no attempt is logged for it, and no
    search or page visit is made on its behalf. *)
Theorem batch_skips_settled (env : Cli.Env) (d : Database) (now : Z) (o : Organization) :
  wellFormed d -> In o (organizations d) -> Org.status o <> Pending ->
  let st := Cli.batch env d now in
  getOrg (Org.name o) (Cli.db st) = Some o
  /\ attemptsOf (Org.id o) (Cli.db st) = attemptsOf (Org.id o) d
  /\ (forall e, In e (Cli.trace st) -> eventOrg e <> Org.name o).
Proof.
  intros Hwf Hin Hs st.
  pose proof (batch_frame env d now o Hwf Hin Hs) as Hv.
  fold st in Hv. unfold view in Hv. injection Hv as Hr Ha He. simpl in Hr, Ha, He.
  split; [rewrite Hr; apply wellFormed_getOrg; assumption|]. split; [exact Ha|].
  intros e Hin' Heq. apply (eventsOf_In _ _ _ Hin') in Heq. rewrite He in Heq.
  exact Heq.
Qed.

Lemma batch_skips_settled_witness :
  let st := Cli.batch (acmeEnv acmeHit strayActionPage) acmeContacted 90000 in
  getOrg "Acme Org" (Cli.db st) = Some acmeContactedOrg
  /\ attemptsOf 1 (Cli.db st) = attemptsOf 1 acmeContacted
  /\ (forall e, In e (Cli.trace st) -> eventOrg e <> "Acme Org").
Proof.
  assert (Hwf : wellFormed acmeContacted) by (split; (constructor; [intros []|constructor])).
  assert (Hs : Org.status acmeContactedOrg <> Pending) by discriminate.
  exact (batch_skips_settled (acmeEnv acmeHit strayActionPage) acmeContacted 90000
           acmeContactedOrg Hwf (or_introl eq_refl) Hs).
Defined.

(** ** Rows that are pending *)

Lemma terminal_status_not_pending env o u :
  status (searchFailedData (searchResultOf env (Org.name o))) <> Pending
  /\ status (extractFailedData (searchResultOf env (Org.name o))
                               (contactInfoOf env (Org.name o) u)) <> Pending
  /\ status (extractedData (searchResultOf env (Org.name o))
                           (contactInfoOf env (Org.name o) u)) <> Pending.
Proof.
  repeat split; simpl; try discriminate.
  destruct (ContactType_eqb _ _); discriminate.
Qed.

Lemma filter_nil_when {A} (p : A -> bool) l :
  (forall x, In x l -> p x = false) -> filter p l = [].
Proof.
  induction l as [|x l IH]; simpl; intros H; [reflexivity|].
  rewrite (H x) by (left; reflexivity). apply IH. intros y Hy. apply H. right. exact Hy.
Qed.

Lemma batch_no_pending_row env d now r :
  wellFormed d -> In r (organizations (Cli.db (Cli.batch env d now))) ->
  Org.status r <> Pending.
Proof.
  intros Hwf Hr.
  destruct (batch_keys_log env d now) as [Hk [Hwf' _]]. specialize (Hwf' Hwf).
  pose proof (wellFormed_getOrg _ _ Hwf' Hr) as Hget.
  pose proof (in_keys _ _ Hr) as Hkey. rewrite Hk in Hkey.
  unfold keys in Hkey. apply in_map_iff in Hkey. destruct Hkey as [o [Eo Ho]].
  injection Eo as Eid Ename.
  destruct (Org.status o) eqn:Es.
  - destruct (batch_terminal_write env d now o Hwf Ho Es) as [t [data [Hrow Hcases]]].
    rewrite Ename, Hget in Hrow. injection Hrow as ->. simpl.
    cbv zeta in Hcases.
    destruct Hcases as [[_ ->]|[[u [_ [_ ->]]]|[u [_ [_ ->]]]]];
      apply (terminal_status_not_pending env o ""%string)
      || apply (terminal_status_not_pending env o u).
  - assert (Hn : Org.status o <> Pending) by (rewrite Es; discriminate).
    pose proof (batch_frame env d now o Hwf Ho Hn) as Hv.
    unfold view in Hv. injection Hv as Hv _ _. simpl in Hv.
    rewrite Ename, Hget, <- Ename, (wellFormed_getOrg _ _ Hwf Ho) in Hv.
    injection Hv as ->. exact Hn.
  - assert (Hn : Org.status o <> Pending) by (rewrite Es; discriminate).
    pose proof (batch_frame env d now o Hwf Ho Hn) as Hv.
    unfold view in Hv. injection Hv as Hv _ _. simpl in Hv.
    rewrite Ename, Hget, <- Ename, (wellFormed_getOrg _ _ Hwf Ho) in Hv.
    injection Hv as ->. exact Hn.
  - assert (Hn : Org.status o <> Pending) by (rewrite Es; discriminate).
    pose proof (batch_frame env d now o Hwf Ho Hn) as Hv.
    unfold view in Hv. injection Hv as Hv _ _. simpl in Hv.
    rewrite Ename, Hget, <- Ename, (wellFormed_getOrg _ _ Hwf Ho) in Hv.
    injection Hv as ->. exact Hn.
Qed.

(** X10. A pass settles every pending organization: afterwards no row is
    [pending], so the pending query is empty, and a second pass run on
    the result, whatever the collaborators would answer, makes no search,
    visits no page and leaves the store as it is. *)
Theorem batch_settles_all (env : Cli.Env) (d : Database) (now : Z) :
  wellFormed d ->
  let d' := Cli.db (Cli.batch env d now) in
  (forall r, In r (organizations d') -> Org.status r <> Pending)
  /\ getOrgsByStatus Pending d' = []
  /\ (forall env' later,
        Cli.db (Cli.batch env' d' later) = d'
        /\ Cli.trace (Cli.batch env' d' later) = []).
Proof.
  intros Hwf d'.
  assert (Hall : forall r, In r (organizations d') -> Org.status r <> Pending)
    by (intros r Hr; apply (batch_no_pending_row env d now r Hwf Hr)).
  assert (Hempty : getOrgsByStatus Pending d' = []).
  { unfold getOrgsByStatus. rewrite filter_nil_when; [reflexivity|].
    intros r Hr. specialize (Hall r Hr). destruct (Org.status r); try reflexivity.
    contradiction. }
  split; [exact Hall|]. split; [exact Hempty|].
  intros env' later. unfold Cli.batch, Cli.batchFrom.
  change (Cli.db (Cli.start d' later)) with d'. rewrite Hempty. split; reflexivity.
Qed.

Lemma batch_settles_all_witness :
  getOrgsByStatus Pending
    (Cli.db (Cli.batch (acmeEnv acmeHit blankEmailPage) acmeDb 5000)) = [].
Proof.
  exact (proj1 (proj2 (batch_settles_all (acmeEnv acmeHit blankEmailPage) acmeDb 5000
                         acmeDb_wellFormed))).
Defined.

(** X13. Every pending organization is handled exactly once in a pass:
    its row keeps its key and creation time, leaves [pending], has
    [attempts] raised by exactly one and [last_attempt_at] set; and on its
    behalf the pass makes one search and logs one attempt, or makes one
    search and one page visit and logs two attempts. *)
Theorem batch_once (env : Cli.Env) (d : Database) (now : Z) (o : Organization) :
  wellFormed d -> In o (organizations d) -> Org.status o = Pending ->
  let st := Cli.batch env d now in
  exists o',
    getOrg (Org.name o) (Cli.db st) = Some o'
    /\ Org.id o' = Org.id o /\ Org.name o' = Org.name o
    /\ Org.created_at o' = Org.created_at o
    /\ Org.status o' <> Pending
    /\ Org.attempts o' = (Org.attempts o + 1)%Z
    /\ (exists t, Org.last_attempt_at o' = Some t)
    /\ ((eventsOf (Org.name o) st = [Cli.Searched (Org.name o)]
         /\ exists a, attemptsOf (Org.id o) (Cli.db st) = attemptsOf (Org.id o) d ++ [a])
        \/ (exists u a1 a2,
              eventsOf (Org.name o) st
              = [Cli.Searched (Org.name o); Cli.Visited (Org.name o) u]
              /\ attemptsOf (Org.id o) (Cli.db st)
                 = attemptsOf (Org.id o) d ++ [a1; a2])).
Proof.
  intros Hwf Hin Hs st.
  destruct (terminal_status_not_pending env o ""%string) as [N1 _].
  destruct (Js.nonEmpty (Search.contactUrl (searchResultOf env (Org.name o))))
    as [u|] eqn:Hurl.
  - destruct (terminal_status_not_pending env o u) as [_ [N2 N3]].
    destruct (Js.truthy (error (contactInfoOf env (Org.name o) u))) eqn:Herr.
    + destruct (batch_extractFailed env d now o u Hwf Hin Hs Hurl Herr)
        as [t [a1 [a2 [Hv _]]]].
      apply view_row in Hv. destruct Hv as [Hr [Hl Hc]].
      eexists. split; [exact Hr|]. simpl. repeat split; eauto.
      right. exists u, a1, a2. auto.
    + destruct (batch_extracted env d now o u Hwf Hin Hs Hurl Herr)
        as [t [a1 [a2 [Hv _]]]].
      apply view_row in Hv. destruct Hv as [Hr [Hl Hc]].
      eexists. split; [exact Hr|]. simpl. repeat split; eauto.
      right. exists u, a1, a2. auto.
  - destruct (batch_searchFailed env d now o Hwf Hin Hs Hurl) as [t [a [Hv _]]].
    apply view_row in Hv. destruct Hv as [Hr [Hl Hc]].
    eexists. split; [exact Hr|]. simpl. repeat split; eauto.
Qed.

Lemma batch_once_witness :
  let st := Cli.batch (acmeEnv acmeHit (Threw "net::ERR_TIMED_OUT")) acmeDb 5000 in
  exists o',
    getOrg "Acme Org" (Cli.db st) = Some o'
    /\ Org.attempts o' = 1%Z
    /\ Org.status o' <> Pending.
Proof.
  destruct (batch_once (acmeEnv acmeHit (Threw "net::ERR_TIMED_OUT")) acmeDb 5000 acmeOrg
              acmeDb_wellFormed acmeOrg_stored eq_refl)
    as [o' [Hr [_ [_ [_ [Hs [Ha _]]]]]]].
  exists o'. split; [exact Hr|]. split; [exact Ha|exact Hs].
Defined.

(** X14. When the contact page [u] is found and the browser throws with
    a non-empty message, the pass writes [status = failed] with that
    message, [contact_type = none] and a null [contact_value], stores the
    website origin found by the search, and logs two attempts: the
    successful [search] for [u] and a failed [contact_find] carrying the
    message. *)
Theorem batch_extraction_failure
        (env : Cli.Env) (d : Database) (now : Z) (o : Organization) (u m : string) :
  wellFormed d -> In o (organizations d) -> Org.status o = Pending ->
  Js.nonEmpty (Search.contactUrl (searchResultOf env (Org.name o))) = Some u ->
  Cli.browse env u = Threw m -> m <> "" ->
  let st := Cli.batch env d now in
  exists o' a1 a2,
    getOrg (Org.name o) (Cli.db st) = Some o'
    /\ Org.status o' = Failed
    /\ Org.error_message o' = Some m
    /\ Org.contact_type o' = Some CNone
    /\ Org.contact_value o' = None
    /\ Org.website o' = Search.websiteUrl (searchResultOf env (Org.name o))
    /\ Org.website o' <> None
    /\ attemptsOf (Org.id o) (Cli.db st) = attemptsOf (Org.id o) d ++ [a1; a2]
    /\ (Att.attempt_type a1 = ASearch /\ Att.success a1 = true
        /\ Att.details a1 = Some (UrlDetails u))
    /\ (Att.attempt_type a2 = AContactFind /\ Att.success a2 = false
        /\ Att.details a2 = Some (ErrorDetails (Some m))).
Proof.
  intros Hwf Hin Hs Hurl Hpage Hm st.
  assert (Hci : contactInfoOf env (Org.name o) u
                = extractContactInfo (Threw m) (Org.name o) u)
    by (unfold contactInfoOf; rewrite Hpage; reflexivity).
  assert (Herr : Js.truthy (error (contactInfoOf env (Org.name o) u)) = true).
  { rewrite Hci. simpl. apply String.eqb_neq in Hm. rewrite Hm. reflexivity. }
  destruct (batch_extractFailed env d now o u Hwf Hin Hs Hurl Herr)
    as [t [a1 [a2 [Hv [H1 H2]]]]].
  rewrite Hci in Hv, H2. apply view_row in Hv. destruct Hv as [Hr [Hl _]].
  destruct (lookup_usable_website env (Org.name o) u Hurl) as [w Hw].
  eexists _, a1, a2. split; [exact Hr|]. simpl. rewrite Hw.
  repeat split; auto; try tauto. discriminate.
Qed.

Lemma batch_extraction_failure_witness :
  let st := Cli.batch (acmeEnv acmeHit (Threw "net::ERR_TIMED_OUT")) acmeDb 5000 in
  exists o',
    getOrg "Acme Org" (Cli.db st) = Some o'
    /\ Org.status o' = Failed
    /\ Org.error_message o' = Some "net::ERR_TIMED_OUT"
    /\ Org.website o' = Some "https://acme.org".
Proof.
  assert (Hm : "net::ERR_TIMED_OUT" <> "") by discriminate.
  destruct (batch_extraction_failure
              (acmeEnv acmeHit (Threw "net::ERR_TIMED_OUT")) acmeDb 5000 acmeOrg
              "https://acme.org/contact" "net::ERR_TIMED_OUT"
              acmeDb_wellFormed acmeOrg_stored eq_refl eq_refl eq_refl Hm)
    as [o' [a1 [a2 [Hr [Hs [He [_ [_ [Hw _]]]]]]]]].
  exists o'. split; [exact Hr|]. split; [exact Hs|]. split; [exact He|exact Hw].
Defined.

(** X15. When the contact page [u] is found and the browser throws an
    error whose message is the empty string, the test
    [if (contactInfo.error)] does not see the error: the pass writes
    [status = manual], not [failed], records no error message, and logs
    the [contact_find] attempt as an unsuccessful extraction of channel
    [none]. *)
Theorem batch_empty_error_message
        (env : Cli.Env) (d : Database) (now : Z) (o : Organization) (u : string) :
  wellFormed d -> In o (organizations d) -> Org.status o = Pending ->
  Js.nonEmpty (Search.contactUrl (searchResultOf env (Org.name o))) = Some u ->
  Cli.browse env u = Threw "" ->
  let st := Cli.batch env d now in
  exists o' a1 a2,
    getOrg (Org.name o) (Cli.db st) = Some o'
    /\ Org.status o' = Manual
    /\ Org.error_message o' = None
    /\ Org.contact_type o' = Some CNone
    /\ Org.contact_value o' = None
    /\ attemptsOf (Org.id o) (Cli.db st) = attemptsOf (Org.id o) d ++ [a1; a2]
    /\ Att.attempt_type a2 = AContactFind /\ Att.success a2 = false
    /\ Att.details a2 = Some (ChannelDetails CNone None None).
Proof.
  intros Hwf Hin Hs Hurl Hpage st.
  assert (Hci : contactInfoOf env (Org.name o) u
                = extractContactInfo (Threw "") (Org.name o) u)
    by (unfold contactInfoOf; rewrite Hpage; reflexivity).
  assert (Herr : Js.truthy (error (contactInfoOf env (Org.name o) u)) = false)
    by (rewrite Hci; reflexivity).
  destruct (batch_extracted env d now o u Hwf Hin Hs Hurl Herr)
    as [t [a1 [a2 [Hv [H1 H2]]]]].
  rewrite Hci in Hv, H2. apply view_row in Hv. destruct Hv as [Hr [Hl _]].
  eexists _, a1, a2. split; [exact Hr|]. simpl. simpl in H2.
  repeat split; auto; tauto.
Qed.

Lemma batch_empty_error_message_witness :
  let st := Cli.batch (acmeEnv acmeHit (Threw "")) acmeDb 5000 in
  exists o',
    getOrg "Acme Org" (Cli.db st) = Some o'
    /\ Org.status o' = Manual
    /\ Org.error_message o' = None.
Proof.
  destruct (batch_empty_error_message (acmeEnv acmeHit (Threw "")) acmeDb 5000 acmeOrg
              "https://acme.org/contact"
              acmeDb_wellFormed acmeOrg_stored eq_refl eq_refl eq_refl)
    as [o' [a1 [a2 [Hr [Hs [He _]]]]]].
  exists o'. split; [exact Hr|]. split; [exact Hs|exact He].
Defined.

(** X16. When the contact page was found and the extraction returned at
    least one email, none of them the empty string, the pass stores
    [status = success], a channel that is [email] or [both], and as
    [contact_value] one of the extracted emails, spelled as extracted:
    the address that [send-emails] will later write to comes from the
    page. *)
Theorem batch_recipient_from_page
        (env : Cli.Env) (d : Database) (now : Z) (o : Organization)
        (u : string) (x : Extracted) :
  wellFormed d -> In o (organizations d) -> Org.status o = Pending ->
  Js.nonEmpty (Search.contactUrl (searchResultOf env (Org.name o))) = Some u ->
  Cli.browse env u = Page x ->
  emails x <> [] -> Forall (fun e => e <> "") (emails x) ->
  exists o' e,
    getOrg (Org.name o) (Cli.db (Cli.batch env d now)) = Some o'
    /\ Org.status o' = Success
    /\ (Org.contact_type o' = Some CEmail \/ Org.contact_type o' = Some CBoth)
    /\ Org.contact_value o' = Some e
    /\ In e (emails x).
Proof.
  intros Hwf Hin Hs Hurl Hpage Hne Hall.
  assert (Hci : contactInfoOf env (Org.name o) u
                = extractContactInfo (Page x) (Org.name o) u)
    by (unfold contactInfoOf; rewrite Hpage; reflexivity).
  assert (Herr : Js.truthy (error (contactInfoOf env (Org.name o) u)) = false)
    by (rewrite Hci; reflexivity).
  destruct (batch_extracted env d now o u Hwf Hin Hs Hurl Herr) as [t [a1 [a2 [Hv _]]]].
  rewrite Hci in Hv. apply view_row in Hv. destruct Hv as [Hr _].
  destruct (pickBestEmail_In (emails x) Hne) as [e [He Hine]].
  assert (Hee : e <> "") by (rewrite Forall_forall in Hall; apply Hall; exact Hine).
  eexists _, e. split; [exact Hr|]. simpl. rewrite He.
  unfold Js.or. simpl. apply String.eqb_neq in Hee. rewrite Hee. simpl.
  unfold determineContactType.
  destruct (emails x) as [|c cs]; [contradiction|]. simpl.
  destruct (hasContactForm x); simpl; auto.
Qed.

Lemma batch_recipient_from_page_witness :
  exists o' e,
    getOrg "Acme Org"
      (Cli.db (Cli.batch
                 (acmeEnv acmeHit
                    (Page {| emails := ["Jane@acme.org"; "Contact@acme.org"];
                             hasContactForm := true; formAction := None |}))
                 acmeDb 5000)) = Some o'
    /\ Org.contact_value o' = Some e
    /\ In e ["Jane@acme.org"; "Contact@acme.org"].
Proof.
  assert (Hne : ["Jane@acme.org"; "Contact@acme.org"] <> @nil string) by discriminate.
  assert (Hall : Forall (fun e => e <> "") ["Jane@acme.org"; "Contact@acme.org"])
    by (repeat constructor; discriminate).
  destruct (batch_recipient_from_page
              (acmeEnv acmeHit
                 (Page {| emails := ["Jane@acme.org"; "Contact@acme.org"];
                          hasContactForm := true; formAction := None |}))
              acmeDb 5000 acmeOrg "https://acme.org/contact" _
              acmeDb_wellFormed acmeOrg_stored eq_refl eq_refl eq_refl Hne Hall)
    as [o' [e [Hr [_ [_ [Hv Hi]]]]]].
  exists o', e. auto.
Defined.

(** X17. A pass that finds no usable contact page leaves the stored
    website as it was; a pass that finds one overwrites the stored
    website, whatever it was, with the website origin reported by the
    search, whether the extraction then succeeds or fails. *)
Theorem batch_website (env : Cli.Env) (d : Database) (now : Z) (o : Organization) :
  wellFormed d -> In o (organizations d) -> Org.status o = Pending ->
  exists o',
    getOrg (Org.name o) (Cli.db (Cli.batch env d now)) = Some o'
    /\ (Js.nonEmpty (Search.contactUrl (searchResultOf env (Org.name o))) = None ->
        Org.website o' = Org.website o)
    /\ (forall u,
          Js.nonEmpty (Search.contactUrl (searchResultOf env (Org.name o))) = Some u ->
          Org.website o' = Search.websiteUrl (searchResultOf env (Org.name o))
          /\ Org.website o' <> None).
Proof.
  intros Hwf Hin Hs.
  destruct (batch_terminal_write env d now o Hwf Hin Hs) as [t [data [Hrow Hcases]]].
  exists (setContact t data o). split; [exact Hrow|]. cbv zeta in Hcases.
  destruct Hcases as [[Hurl ->]|[[u [Hurl [_ ->]]]|[u [Hurl [_ ->]]]]]; simpl.
  - split; [reflexivity|]. intros u Hu. rewrite Hurl in Hu. discriminate.
  - destruct (lookup_usable_website env (Org.name o) u Hurl) as [w Hw].
    rewrite Hw. split; [rewrite Hurl; discriminate|].
    intros _ _. split; [reflexivity|discriminate].
  - destruct (lookup_usable_website env (Org.name o) u Hurl) as [w Hw].
    rewrite Hw. split; [rewrite Hurl; discriminate|].
    intros _ _. split; [reflexivity|discriminate].
Qed.

Lemma batch_website_witness :
  exists o',
    getOrg "Acme Org"
      (Cli.db (Cli.batch (acmeEnv (Search.Json []) (Threw "unused")) acmeReset 90000))
    = Some o'
    /\ Org.website o' = Some "https://acme.org".
Proof.
  destruct (batch_website (acmeEnv (Search.Json []) (Threw "unused")) acmeReset 90000
              (clearStatus acmeContactedOrg) acmeReset_wellFormed (or_introl eq_refl)
              eq_refl) as [o' [Hr [Hkeep _]]].
  exists o'. split; [exact Hr|]. exact (Hkeep eq_refl).
Defined.

(** ** Pacing *)

Lemma rateLimit_after c now lag :
  (0 <= lag)%Z -> (now <= Search.resumedAt (Search.rateLimit c now lag))%Z.
Proof.
  intros H. unfold Search.rateLimit.
  destruct (Z.ltb_spec (now - Search.lastRequestTime c) Search.minDelayMs);
    cbn [Search.resumedAt]; lia.
Qed.

Lemma processOrg_clock env st p :
  forwardInTime env ->
  let st' := Cli.processOrg env st p in
  (Search.lastRequestTime (Cli.search st) + Search.minDelayMs
   <= Search.lastRequestTime (Cli.search st'))%Z
  /\ (Cli.clock st <= Search.lastRequestTime (Cli.search st'))%Z
  /\ (Search.lastRequestTime (Cli.search st') <= Cli.clock st')%Z.
Proof.
  intros [Hlag [Hfetch Hbrowse]]. cbv zeta.
  pose proof (rateLimit_resumed (Cli.search st) (Cli.clock st) _ Hlag) as H1.
  pose proof (rateLimit_after (Cli.search st) (Cli.clock st) _ Hlag) as H2.
  pose proof (rateLimit_stamp (Cli.search st) (Cli.clock st) (Cli.timerLag env)) as H3.
  unfold Cli.processOrg, Search.findContactPage.
  cbn [Search.found Search.clientAfter Search.returnedAt].
  destruct (Js.nonEmpty _) as [u|]; [destruct (Js.truthy _)|];
    cbn [Cli.search Cli.clock]; rewrite H3;
    repeat split; try assumption;
    try (specialize (Hfetch (Org.name p ++ " contact us")%string));
    try (specialize (Hbrowse u)); lia.
Qed.

Lemma fold_processOrg_clock env l :
  forwardInTime env ->
  forall st,
    (Search.lastRequestTime (Cli.search st) <= Cli.clock st)%Z ->
    let st' := fold_left (Cli.processOrg env) l st in
    (Search.lastRequestTime (Cli.search st)
     + Search.minDelayMs * Z.of_nat (List.length l)
     <= Search.lastRequestTime (Cli.search st'))%Z
    /\ (Search.lastRequestTime (Cli.search st') <= Cli.clock st')%Z.
Proof.
  intros Henv. induction l as [|p l IH]; intros st Hst; cbv zeta.
  - simpl. split; [lia|exact Hst].
  - cbn [fold_left]. destruct (processOrg_clock env st p Henv) as [H1 [H2 H3]].
    destruct (IH (Cli.processOrg env st p) H3) as [H4 H5].
    split; [|exact H5]. cbn [List.length]. rewrite Nat2Z.inj_succ.
    unfold Search.minDelayMs in *. lia.
Qed.

(** X18. With collaborators that take no negative time, the search
    requests of a pass are at least 1100 ms apart, so a pass over [n]
    pending organizations ([n] at least 1) ends no earlier than
    [1100 * (n - 1)] ms after it started. *)
Theorem batch_duration (env : Cli.Env) (d : Database) (now : Z) :
  forwardInTime env ->
  getOrgsByStatus Pending d <> [] ->
  let n := Z.of_nat (List.length (getOrgsByStatus Pending d)) in
  (now + 1100 * (n - 1) <= Cli.clock (Cli.batch env d now))%Z.
Proof.
  intros Henv Hne. cbv zeta. unfold Cli.batch, Cli.batchFrom.
  change (Cli.db (Cli.start d now)) with d.
  destruct (getOrgsByStatus Pending d) as [|p l]; [contradiction|].
  cbn [fold_left List.length]. rewrite Nat2Z.inj_succ.
  destruct (processOrg_clock env (Cli.start d now) p Henv) as [_ [H2 H3]].
  destruct (fold_processOrg_clock env l Henv (Cli.processOrg env (Cli.start d now) p) H3)
    as [H4 H5].
  cbn [Cli.clock Cli.start] in H2. unfold Search.minDelayMs in *. lia.
Qed.

Lemma batch_duration_witness :
  (5000 + 1100 * (2 - 1)
   <= Cli.clock (Cli.batch (acmeEnv (Search.Json []) (Threw "unused"))
                           (fst (importOrgs 1000 ["Acme Org"; "Beta Fund"] emptyDb))
                           5000))%Z.
Proof.
  assert (Henv : forwardInTime (acmeEnv (Search.Json []) (Threw "unused")))
    by (repeat split; simpl; intros; lia).
  assert (Hne : getOrgsByStatus Pending
                  (fst (importOrgs 1000 ["Acme Org"; "Beta Fund"] emptyDb)) <> [])
    by discriminate.
  exact (batch_duration (acmeEnv (Search.Json []) (Threw "unused"))
                        (fst (importOrgs 1000 ["Acme Org"; "Beta Fund"] emptyDb))
                        5000 Henv Hne).
Defined.

(* ================================================================== *)
(** * Further properties of the search client *)
(* ================================================================== *)

(** X23. A [rateLimit] call on a client whose stamp is not in the future
    never sleeps longer than the minimum delay: it either arms the timer
    for a delay in (0, 1100] ms, when less than 1100 ms have passed since
    the stamp, or returns at once; with a timer that does not fire early
    it never returns before it was entered. *)
Theorem rateLimit_bounded (c : Search.BraveSearch) (now lag : Z) :
  (Search.lastRequestTime c <= now)%Z -> (0 <= lag)%Z ->
  let r := Search.rateLimit c now lag in
  (now <= Search.resumedAt r)%Z
  /\ match Search.slept r with
     | Some delay =>
         (0 < delay <= 1100)%Z
         /\ (now - Search.lastRequestTime c < 1100)%Z
         /\ Search.resumedAt r = (now + delay + lag)%Z
     | None =>
         (1100 <= now - Search.lastRequestTime c)%Z /\ Search.resumedAt r = now
     end.
Proof.
  intros Hlast Hlag. cbv zeta. split; [apply rateLimit_after; exact Hlag|].
  unfold Search.rateLimit, Search.minDelayMs.
  destruct (Z.ltb_spec (now - Search.lastRequestTime c) 1100);
    cbn [Search.slept Search.resumedAt]; repeat split; lia.
Qed.

Lemma rateLimit_bounded_witness :
  (1700000000000
   <= Search.resumedAt (Search.rateLimit Search.newClient 1700000000000 0))%Z.
Proof.
  assert (H1 : (Search.lastRequestTime Search.newClient <= 1700000000000)%Z)
    by (simpl; lia).
  assert (H2 : (0 <= 0)%Z) by lia.
  exact (proj1 (rateLimit_bounded Search.newClient 1700000000000 0 H1 H2)).
Defined.

(** ** The ranker's tiers *)

Lemma filter_length_le {A} (p : A -> bool) l :
  (List.length (filter p l) <= List.length l)%nat.
Proof.
  induction l as [|x l IH]; simpl; [lia|]. destruct (p x); simpl; lia.
Qed.

(** X22. With [n] the number of white-space tokens of the lower-cased
    name longer than two code units and [m] the number of them found in
    the lower-cased title or URL (never more than [n]), the ranker
    answers [high] exactly when there is a token and [m/n >= 7/10],
    [medium] exactly when there is a token and [4/10 <= m/n < 7/10], and
    [low] otherwise; in particular a name all of whose tokens are found
    ranks [high] and a name none of whose tokens is found ranks [low].
    This holds of every string and every lower-case mapping. *)
Theorem assessConfidence_tiers
        (beyond : Utf16.ustring -> N -> Utf16.ustring -> Utf16.ustring)
        (orgName title url : Utf16.ustring) :
  let n := List.length (Search.Ranker.nameWords beyond orgName) in
  let m := List.length (Search.Ranker.matchingWords beyond orgName title url) in
  let tier := Search.Ranker.assessConfidence beyond orgName title url in
  (m <= n)%nat
  /\ (tier = Search.High <-> (0 < n /\ 7 * n <= 10 * m)%nat)
  /\ (tier = Search.Medium <-> (0 < n /\ 4 * n <= 10 * m /\ 10 * m < 7 * n)%nat)
  /\ (tier = Search.Low <-> (n = 0 \/ 10 * m < 4 * n)%nat)
  /\ ((0 < n)%nat -> m = n -> tier = Search.High)
  /\ (m = 0%nat -> tier = Search.Low).
Proof.
  cbv zeta.
  assert (Hle : (List.length (Search.Ranker.matchingWords beyond orgName title url)
                 <= List.length (Search.Ranker.nameWords beyond orgName))%nat)
    by (unfold Search.Ranker.matchingWords; apply filter_length_le).
  unfold Search.Ranker.assessConfidence, Search.Ranker.matchRatio.
  set (n := List.length (Search.Ranker.nameWords beyond orgName)) in *.
  set (m := List.length (Search.Ranker.matchingWords beyond orgName title url)) in *.
  clearbody n m. split; [exact Hle|].
  destruct n as [|n].
  - assert (m = 0)%nat by lia. subst m. simpl.
    repeat split; intros; try discriminate; try lia; auto.
  - unfold Search.divide, Search.geTenths.
    destruct (Nat.leb_spec (7 * S n) (10 * m));
      [|destruct (Nat.leb_spec (4 * S n) (10 * m))];
      repeat split; intros; try discriminate; try lia; auto.
Qed.

(** ** Lookups *)

(** X20. The result of a website lookup carries either a URL or an error,
    never both and never neither: a failed lookup (request error, HTTP
    error, no result) has no URL, no title and confidence [low]; a
    successful one reports the first result's URL and title with the
    ranker's tier for that result.  [findOrgWebsite] returns this result
    for the backend's answer to "<name> nonprofit official website",
    after passing the rate limiter: the client's stamp moves on by at
    least 1100 ms. *)
Theorem lookupWebsite_result (answer : Search.FetchOutcome) (org : string) :
  let r := Search.lookupWebsite answer org in
  Search.Sr.orgName r = org
  /\ (Search.Sr.url r = None <-> Search.Sr.error r <> None)
  /\ (Search.Sr.error r <> None ->
      Search.Sr.title r = None /\ Search.Sr.confidence r = Search.Low)
  /\ (forall top rest,
        answer = Search.Json (top :: rest) ->
        Search.Sr.url r = Some (Search.url top)
        /\ Search.Sr.title r = Some (Search.title top)
        /\ Search.Sr.confidence r = Search.assessConfidence org top
        /\ Search.Sr.error r = None)
  /\ (answer = Search.Json [] -> Search.Sr.error r = Some "No results found")
  /\ (forall fetch fetchMs lag c now,
        fetch (org ++ " nonprofit official website")%string = answer ->
        fst (fst (Search.findOrgWebsite fetch fetchMs lag c now org)) = r
        /\ ((0 <= lag)%Z ->
            (Search.lastRequestTime c + 1100
             <= Search.lastRequestTime
                  (snd (fst (Search.findOrgWebsite fetch fetchMs lag c now org))))%Z)).
Proof.
  cbv zeta.
  assert (Hcall : forall fetch fetchMs lag c now,
             fetch (org ++ " nonprofit official website")%string = answer ->
             fst (fst (Search.findOrgWebsite fetch fetchMs lag c now org))
             = Search.lookupWebsite answer org
             /\ ((0 <= lag)%Z ->
                 (Search.lastRequestTime c + 1100
                  <= Search.lastRequestTime
                       (snd (fst (Search.findOrgWebsite fetch fetchMs lag c now org))))%Z)).
  { intros fetch fetchMs lag c now Hf. unfold Search.findOrgWebsite. cbn [fst snd].
    rewrite Hf. split; [reflexivity|]. intros Hlag. rewrite rateLimit_stamp.
    apply (rateLimit_resumed c now lag Hlag). }
  split; [|split; [|split; [|split; [|split; [|exact Hcall]]]]]; clear Hcall;
    destruct answer as [m|st tx|[|top rest]]; simpl;
    repeat split; intros; try discriminate; try congruence; auto;
    match goal with
    | H : Search.Json _ = Search.Json _ |- _ => injection H as <- <-; reflexivity
    | H : ?x <> ?x |- _ => contradiction
    | _ => idtac
    end.
Qed.

Lemma scanResults_truthy origin results w0 :
  Js.truthy (Some w0) = true ->
  Search.scanResults origin results (Some w0)
  = inr (Some w0, find Search.isContactPage results).
Proof.
  intros Hw. induction results as [|r rest IH]; [reflexivity|].
  cbn [Search.scanResults find]. cbv zeta. rewrite Hw. cbn [negb].
  destruct (Search.isContactPage r); [reflexivity|exact IH].
Qed.

(** X21. A contact-page lookup over a non-empty result list parses only
    the first result's URL.  If that URL does not parse, the lookup fails
    with the parser's message, whatever the other results are.  If it
    parses (to a non-empty origin), the lookup succeeds: the website is
    that origin, and the contact page is the first result, in the order
    given, whose URL or title contains one of the contact keywords
    (ignoring case), or the first result when there is none. *)
Theorem lookupContactPage_choice
        (origin : string -> Search.UrlOutcome)
        (first : Search.BraveWebResult) (rest : list Search.BraveWebResult)
        (org : string) :
  let r := Search.lookupContactPage origin (Search.Json (first :: rest)) org in
  (forall m, origin (Search.url first) = Search.BadUrl m ->
             r = Search.failedLookup org m)
  /\ (forall w, origin (Search.url first) = Search.Origin w -> w <> "" ->
        let best := match find Search.isContactPage (first :: rest) with
                    | Some hit => hit
                    | None => first
                    end in
        r = {| Search.orgName := org;
               Search.websiteUrl := Some w;
               Search.contactUrl := Some (Search.url best);
               Search.contactTitle := Some (Search.title best);
               Search.error := None |}
        /\ In best (first :: rest)
        /\ (forall hit, find Search.isContactPage (first :: rest) = Some hit ->
                        Search.isContactPage hit = true)).
Proof.
  cbv zeta. split.
  - intros m Hm. unfold Search.lookupContactPage.
    cbn [Search.scanResults]. cbv zeta. cbn [Js.truthy negb]. rewrite Hm. reflexivity.
  - intros w Hw Hne.
    assert (Ht : Js.truthy (Some w) = true)
      by (simpl; apply String.eqb_neq in Hne; rewrite Hne; reflexivity).
    split; [|split].
    + unfold Search.lookupContactPage.
      cbn [Search.scanResults]. cbv zeta. cbn [Js.truthy negb]. rewrite Hw.
      cbn [find]. destruct (Search.isContactPage first); [reflexivity|].
      rewrite (scanResults_truthy origin rest w Ht). reflexivity.
    + destruct (find Search.isContactPage (first :: rest)) as [hit|] eqn:E.
      * apply find_some in E. tauto.
      * left. reflexivity.
    + intros hit E. apply find_some in E. tauto.
Qed.

Lemma lookupContactPage_choice_witness :
  Search.contactUrl
    (Search.lookupContactPage (fun _ => Search.Origin "https://acme.org")
       (Search.Json
          [ {| Search.title := "Acme"; Search.url := "https://acme.org/";
               Search.description := "" |};
            {| Search.title := "Get in TOUCH"; Search.url := "https://acme.org/Contact-Us";
               Search.description := "" |} ])
       "Acme Org")
  = Some "https://acme.org/Contact-Us".
Proof.
  assert (Hne : "https://acme.org" <> "") by discriminate.
  destruct (proj2 (lookupContactPage_choice
                     (fun _ => Search.Origin "https://acme.org")
                     {| Search.title := "Acme"; Search.url := "https://acme.org/";
                        Search.description := "" |}
                     [ {| Search.title := "Get in TOUCH";
                          Search.url := "https://acme.org/Contact-Us";
                          Search.description := "" |} ]
                     "Acme Org") "https://acme.org" eq_refl Hne) as [Hr _].
  rewrite Hr. reflexivity.
Defined.

(* ================================================================== *)
(** * Further properties of the channel selector *)
(* ================================================================== *)

(** X24. The parts of an extraction result agree with each other as far
    as the code makes them: the selected email is null exactly when no
    email was extracted, and otherwise it is one of the extracted emails;
    the channel is [email] or [both] exactly when an email is selected;
    whenever the channel is [form] or [both] a form URL is given; and a
    result built from data carries no error.  When the browser throws,
    the result is the channel [none] with no email, no form URL and the
    thrown message as error. *)
Theorem extractContactInfo_consistent (x : Extracted) (org url : string) :
  let ci := extractContactInfo (Page x) org url in
  (email ci = None <-> emails x = [])
  /\ (forall e, email ci = Some e -> In e (emails x))
  /\ (contactType ci = CEmail \/ contactType ci = CBoth <-> email ci <> None)
  /\ (contactType ci = CForm \/ contactType ci = CBoth ->
      url <> "" -> Js.truthy (formUrl ci) = true)
  /\ error ci = None
  /\ orgName ci = org /\ contactUrl ci = url
  /\ (forall m, extractContactInfo (Threw m) org url
                = {| orgName := org; contactUrl := url; email := None;
                     formUrl := None; contactType := CNone; error := Some m |}).
Proof.
  cbv zeta. destruct x as [es form action]. simpl.
  assert (Hpick : es <> [] -> exists e, pickBestEmail es = Some e /\ In e es)
    by apply pickBestEmail_In.
  split; [|split; [|split; [|split]]].
  - split.
    + intros H. destruct es as [|c cs]; [reflexivity|].
      destruct Hpick as [e [He _]]; [discriminate|]. congruence.
    + intros ->. reflexivity.
  - intros e He. destruct es as [|c cs]; [discriminate|].
    destruct Hpick as [e' [He' Hin]]; [discriminate|]. congruence.
  - unfold determineContactType. destruct es as [|c cs].
    + simpl. destruct form; split; intros H; try contradiction;
        destruct H; discriminate.
    + destruct Hpick as [e [He _]]; [discriminate|]. rewrite He. simpl.
      destruct form; split; intros; try discriminate; auto.
  - unfold determineContactType, selectFormUrl, Js.or. intros H Hu.
    assert (Hf : form = true).
    { destruct es, form; simpl in H; destruct H; try discriminate; reflexivity. }
    subst form. cbn [formAction hasContactForm].
    destruct (Js.truthy action) eqn:Ha; [exact Ha|].
    simpl. apply String.eqb_neq in Hu. rewrite Hu. reflexivity.
  - repeat split.
Qed.

(* ================================================================== *)
(** * Further properties of the command line *)
(* ================================================================== *)

(** ** [loadOrgs] *)

Lemma dropSpaces_head l c r :
  Utf16.dropSpaces l = c :: r -> Utf16.isSpace c = false.
Proof.
  induction l as [|x l IH]; simpl; [discriminate|].
  destruct (Utf16.isSpace x) eqn:E; [exact IH|].
  intros H. injection H as <- _. exact E.
Qed.

Lemma dropSpaces_suffix l : exists pre, l = pre ++ Utf16.dropSpaces l.
Proof.
  induction l as [|x l [pre IH]]; simpl; [exists []; reflexivity|].
  destruct (Utf16.isSpace x).
  - exists (x :: pre). simpl. f_equal. exact IH.
  - exists []. reflexivity.
Qed.

Lemma dropSpaces_In l c : In c (Utf16.dropSpaces l) -> In c l.
Proof.
  destruct (dropSpaces_suffix l) as [pre H]. intros Hin. rewrite H.
  apply in_or_app. right. exact Hin.
Qed.

Lemma trim_In l c : In c (Utf16.trim l) -> In c l.
Proof.
  unfold Utf16.trim. intros H. apply in_rev in H.
  apply dropSpaces_In in H. apply in_rev in H. apply dropSpaces_In in H. exact H.
Qed.

Lemma trim_first l c r : Utf16.trim l = c :: r -> Utf16.isSpace c = false.
Proof.
  unfold Utf16.trim. intros H.
  destruct (dropSpaces_suffix (rev (Utf16.dropSpaces l))) as [pre Hpre].
  assert (Hl : Utf16.dropSpaces l
               = rev (Utf16.dropSpaces (rev (Utf16.dropSpaces l))) ++ rev pre).
  { rewrite <- rev_app_distr, <- Hpre, rev_involutive. reflexivity. }
  rewrite H in Hl. simpl in Hl. eapply dropSpaces_head. exact Hl.
Qed.

Lemma trim_last l c :
  hd_error (rev (Utf16.trim l)) = Some c -> Utf16.isSpace c = false.
Proof.
  unfold Utf16.trim. rewrite rev_involutive.
  destruct (Utf16.dropSpaces (rev (Utf16.dropSpaces l))) as [|x r] eqn:E;
    simpl; [discriminate|].
  intros H. injection H as <-. eapply dropSpaces_head. exact E.
Qed.

Lemma splitLinesFrom_no_newline s :
  forall cur piece,
    ~ In Utf16.newline cur ->
    In piece (Utf16.splitLinesFrom s cur) ->
    ~ In Utf16.newline piece.
Proof.
  induction s as [|c s IH]; intros cur piece Hcur Hin; simpl in Hin.
  - destruct Hin as [<-|[]]. intros H. apply in_rev in H. auto.
  - destruct (N.eqb_spec c Utf16.newline) as [E|E].
    + destruct Hin as [<-|Hin].
      * intros H. apply in_rev in H. auto.
      * apply (IH [] piece); [intros []|exact Hin].
    + apply (IH (c :: cur) piece); [|exact Hin].
      intros [H|H]; [|auto]. apply E. exact H.
Qed.

Lemma trim_tidy raw :
  ~ In Utf16.newline raw ->
  (0 <? List.length (Utf16.trim raw))%nat = true ->
  tidyName (Utf16.trim raw).
Proof.
  intros Hraw Hlen. unfold tidyName.
  split; [|split; [|split]].
  - intros E. rewrite E in Hlen. discriminate.
  - intros c H. destruct (Utf16.trim raw) as [|x r] eqn:El; [discriminate|].
    injection H as <-. eapply trim_first. exact El.
  - intros c H. eapply trim_last. exact H.
  - intros H. apply trim_In in H. auto.
Qed.

Lemma firstn_In {A} n (l : list A) x : In x (firstn n l) -> In x l.
Proof.
  revert l. induction n as [|n IH]; intros l H; [contradiction|].
  destruct l as [|y l]; [contradiction|]. simpl in H.
  destruct H as [->|H]; [left; reflexivity|right; apply IH; exact H].
Qed.

Lemma sliceTo_In {A} (l : list A) k x : In x (Js.sliceTo l k) -> In x l.
Proof. unfold Js.sliceTo. destruct (k <? 0)%Z; apply firstn_In. Qed.

Lemma loadOrgs_In content limit line :
  In line (Cli.loadOrgs content limit) ->
  In line (Cli.loadOrgs content None).
Proof.
  unfold Cli.loadOrgs. destruct limit as [k|]; [|auto].
  destruct (k =? 0)%Z; [auto|]. apply sliceTo_In.
Qed.

Lemma loadOrgs_line content limit line :
  In line (Cli.loadOrgs content limit) ->
  tidyName line
  /\ exists raw, In raw (Utf16.splitLines content) /\ line = Utf16.trim raw.
Proof.
  intros Hin. apply loadOrgs_In in Hin. unfold Cli.loadOrgs in Hin.
  apply filter_In in Hin. destruct Hin as [Hmap Hlen].
  apply in_map_iff in Hmap. destruct Hmap as [raw [<- Hraw]].
  split; [|exists raw; auto].
  apply trim_tidy; [|exact Hlen].
  apply (splitLinesFrom_no_newline content [] raw); [intros []|exact Hraw].
Qed.

(** X25. Every name that [loadOrgs] returns is the trimmed text of a
    line of the file, is not empty, has no white space (of ECMAScript's
    full class) at either end and no line feed inside; without a limit
    every line of the file with a non-empty trimmed text is returned.  A
    limit of 0 (like a missing or non-numeric one) does not limit
    anything, and a positive limit [k] keeps the first [k] names of the
    unlimited result. *)
Theorem loadOrgs_tidy (content : Utf16.ustring) (limit : option Z) :
  (forall line, In line (Cli.loadOrgs content limit) ->
     tidyName line
     /\ exists raw, In raw (Utf16.splitLines content) /\ line = Utf16.trim raw)
  /\ (forall raw, In raw (Utf16.splitLines content) -> Utf16.trim raw <> [] ->
        In (Utf16.trim raw) (Cli.loadOrgs content None))
  /\ Cli.loadOrgs content (Some 0%Z) = Cli.loadOrgs content None
  /\ (forall k, (0 < k)%Z ->
        Cli.loadOrgs content (Some k)
        = firstn (Z.to_nat k) (Cli.loadOrgs content None)
        /\ (Z.of_nat (List.length (Cli.loadOrgs content (Some k))) <= k)%Z).
Proof.
  split; [|split; [|split]].
  - intros line Hin. apply (loadOrgs_line content limit line Hin).
  - intros raw Hraw Hne. unfold Cli.loadOrgs. apply filter_In. split.
    + apply in_map. exact Hraw.
    + destruct (Utf16.trim raw); [contradiction|reflexivity].
  - reflexivity.
  - intros k Hk. unfold Cli.loadOrgs.
    destruct (Z.eqb_spec k 0) as [->|_]; [lia|].
    unfold Js.sliceTo. destruct (Z.ltb_spec k 0); [lia|].
    split; [reflexivity|].
    transitivity (Z.of_nat (Z.to_nat k)); [|lia].
    apply Nat2Z.inj_le. apply firstn_le_length.
Qed.

Example loadOrgs_sample :
  Cli.loadOrgs
    (Utf16.ofString
       (String "009" (" Acme Org " ++ String "013" (String "010"
          (String "010" ("   " ++ String "010" "Beta Fund")))))) None
  = map Utf16.ofString ["Acme Org"; "Beta Fund"].
Proof. reflexivity. Qed.

(** A byte-order mark U+FEFF before the first name, a no-break space
    U+00A0 after it and a line that holds only a no-break space: the
    names are the same two. *)
Example loadOrgs_unicode_spaces :
  Cli.loadOrgs
    ([65279%N] ++ Utf16.ofString "Acme Org" ++ [160; 10; 160; 10]%N
     ++ Utf16.ofString "Beta Fund") None
  = map Utf16.ofString ["Acme Org"; "Beta Fund"].
Proof. reflexivity. Qed.

(** ** [find-contacts] *)

Lemma findContactsOrg_results env st org :
  Cli.Probe.results (Cli.findContactsOrg env st org)
  = Cli.Probe.results st ++ [reportOf env org].
Proof.
  unfold Cli.findContactsOrg, reportOf.
  change (Search.found (Search.findContactPage _ _ _ _ _ _ _))
    with (searchResultOf env org).
  destruct (Js.nonEmpty _); reflexivity.
Qed.

Lemma fold_findContacts_results env orgs :
  forall st,
    Cli.Probe.results (fold_left (Cli.findContactsOrg env) orgs st)
    = Cli.Probe.results st ++ map (reportOf env) orgs.
Proof.
  induction orgs as [|n orgs IH]; intros st; simpl; [rewrite app_nil_r; reflexivity|].
  rewrite IH, findContactsOrg_results, <- app_assoc. reflexivity.
Qed.

Lemma reportOf_orgName env n : orgName (reportOf env n) = n.
Proof.
  unfold reportOf, contactInfoOf.
  destruct (Js.nonEmpty _) as [u|]; [|reflexivity].
  destruct (Cli.browse env u); reflexivity.
Qed.

(** X26. [find-contacts] reports one result per listed name, in the
    order of the list and under that name; the result of a name whose
    search gives no usable URL is the channel [none] with the search's
    error.  And [batch] stores what [find-contacts] reports: for a
    pending organization, the stored [contact_type] is the reported
    [contactType] and the stored [contact_value] is the reported
    [email || formUrl]. *)
Theorem findContacts_agrees_with_batch (env : Cli.Env) (orgs : list string) (now : Z) :
  let results := Cli.Probe.results (Cli.findContacts env orgs now) in
  map orgName results = orgs
  /\ List.length results = List.length orgs
  /\ (forall ci, In ci results ->
        Js.nonEmpty (Search.contactUrl (searchResultOf env (orgName ci))) = None ->
        contactType ci = CNone /\ email ci = None /\ formUrl ci = None
        /\ error ci = Search.error (searchResultOf env (orgName ci)))
  /\ (forall d later o,
        wellFormed d -> In o (organizations d) -> Org.status o = Pending ->
        In (Org.name o) orgs ->
        exists ci o',
          In ci results /\ orgName ci = Org.name o
          /\ getOrg (Org.name o) (Cli.db (Cli.batch env d later)) = Some o'
          /\ Org.contact_type o' = Some (contactType ci)
          /\ Org.contact_value o' = Js.or (email ci) (formUrl ci)).
Proof.
  cbv zeta. unfold Cli.findContacts. rewrite fold_findContacts_results.
  cbn [Cli.Probe.results app].
  assert (Hnames : map orgName (map (reportOf env) orgs) = orgs).
  { rewrite map_map. rewrite <- (map_id orgs) at 2. apply map_ext.
    intros n. apply reportOf_orgName. }
  split; [exact Hnames|]. split; [apply length_map|]. split.
  - intros ci Hci Hfail. apply in_map_iff in Hci. destruct Hci as [n [<- _]].
    rewrite reportOf_orgName in *. unfold reportOf. rewrite Hfail. auto.
  - intros d later o Hwf Hin Hs Hlisted.
    destruct (batch_terminal_write env d later o Hwf Hin Hs) as [t [data [Hrow Hcases]]].
    exists (reportOf env (Org.name o)), (setContact t data o).
    split; [apply in_map; exact Hlisted|]. split; [apply reportOf_orgName|].
    split; [exact Hrow|]. cbv zeta in Hcases. unfold reportOf.
    destruct Hcases as [[Hurl ->]|[[u [Hurl [Herr ->]]]|[u [Hurl [Herr ->]]]]];
      rewrite Hurl; simpl; auto.
    unfold contactInfoOf in *. destruct (Cli.browse env u) as [m|x]; simpl in *.
    + auto.
    + discriminate.
Qed.

Lemma findContacts_agrees_with_batch_witness :
  exists ci o',
    In ci (Cli.Probe.results
             (Cli.findContacts (acmeEnv acmeHit acmeFormPage) ["Beta Fund"; "Acme Org"] 0))
    /\ orgName ci = "Acme Org"
    /\ getOrg "Acme Org" (Cli.db (Cli.batch (acmeEnv acmeHit acmeFormPage) acmeDb 5000))
       = Some o'
    /\ Org.contact_type o' = Some (contactType ci)
    /\ Org.contact_value o' = Js.or (email ci) (formUrl ci).
Proof.
  exact (proj2 (proj2 (proj2
           (findContacts_agrees_with_batch (acmeEnv acmeHit acmeFormPage)
              ["Beta Fund"; "Acme Org"] 0%Z)))
           acmeDb 5000%Z acmeOrg acmeDb_wellFormed acmeOrg_stored eq_refl
           (or_intror (or_introl eq_refl))).
Defined.

(** ** The numbers [batch] prints at its end *)

(** X29. The statistics read after a pass show no pending organization:
    [pending] is 0, the table has as many rows as before, and [success],
    [failed] and [manual] add up to that number. *)
Theorem batch_final_stats (env : Cli.Env) (d : Database) (now : Z) :
  wellFormed d ->
  let stats := getStats (Cli.db (Cli.batch env d now)) in
  Stats.pending stats = 0%Z
  /\ Stats.total stats = Z.of_nat (List.length (organizations d))
  /\ (Stats.success stats + Stats.failed stats + Stats.manual stats)%Z
     = Stats.total stats.
Proof.
  intros Hwf. cbv zeta.
  set (d' := Cli.db (Cli.batch env d now)).
  assert (Hp : Stats.pending (getStats d') = 0%Z).
  { unfold getStats. cbn [Stats.pending]. rewrite sumCase_count.
    rewrite filter_nil_when; [reflexivity|].
    intros r Hr. pose proof (batch_no_pending_row env d now r Hwf Hr) as Hn.
    destruct (Org.status r); try reflexivity. contradiction. }
  assert (Ht : Stats.total (getStats d') = Z.of_nat (List.length (organizations d))).
  { unfold getStats. cbn [Stats.total].
    destruct (batch_keys_log env d now) as [Hk _]. fold d' in Hk.
    apply (f_equal (@List.length _)) in Hk. unfold keys in Hk.
    rewrite !length_map in Hk. rewrite Hk. reflexivity. }
  split; [exact Hp|]. split; [exact Ht|].
  assert (Hsum : (Stats.pending (getStats d') + Stats.success (getStats d')
                  + Stats.failed (getStats d') + Stats.manual (getStats d'))%Z
                 = Stats.total (getStats d')).
  { clear Hp Ht. generalize d'. intros x.
    unfold getStats. cbn [Stats.total Stats.pending Stats.success Stats.failed
                                      Stats.manual].
    rewrite !sumCase_count.
    induction (organizations x) as [|o l IH]; [reflexivity|].
    cbn [List.length]. rewrite !length_filter_cons, Nat2Z.inj_succ.
    set (a := Z.of_nat (List.length (filter (fun o => Status_eqb (Org.status o) Pending) l))) in *.
    set (b := Z.of_nat (List.length (filter (fun o => Status_eqb (Org.status o) Success) l))) in *.
    set (c := Z.of_nat (List.length (filter (fun o => Status_eqb (Org.status o) Failed) l))) in *.
    set (e := Z.of_nat (List.length (filter (fun o => Status_eqb (Org.status o) Manual) l))) in *.
    clearbody a b c e. destruct (Org.status o); cbn [Status_eqb]; lia. }
  rewrite Hp in Hsum. lia.
Qed.

Lemma batch_final_stats_witness :
  Stats.pending (getStats (Cli.db (Cli.batch (acmeEnv acmeHit blankEmailPage) acmeDb 5000)))
  = 0%Z.
Proof.
  exact (proj1 (batch_final_stats (acmeEnv acmeHit blankEmailPage) acmeDb 5000
                  acmeDb_wellFormed)).
Defined.

(* ================================================================== *)
(** * Properties of the mail module and the configuration *)
(* ================================================================== *)

Lemma runCalls_sendAs calls :
  forall m,
    (forall c, EmailSender.transporter m = Some c ->
               EmailSender.smtpSendAs m = EmailSender.sendAs c) ->
    forall c, EmailSender.transporter (runCalls calls m) = Some c ->
              EmailSender.smtpSendAs (runCalls calls m) = EmailSender.sendAs c.
Proof.
  induction calls as [|call calls IH]; intros m Hm; [exact Hm|].
  simpl. apply IH. destruct call as [config|].
  - unfold EmailSender.initEmailTransport.
    destruct (EmailSender.transporter m) as [c0|] eqn:E; [rewrite E; exact Hm|].
    simpl. intros c H. injection H as <-. reflexivity.
  - unfold EmailSender.closeTransport.
    destruct (EmailSender.transporter m) as [c0|] eqn:E; simpl; [discriminate|].
    rewrite E. discriminate.
Qed.

(** X27. Whatever sequence of [initEmailTransport] and [closeTransport]
    calls the module has seen since it was loaded: while a transporter is
    open, further [initEmailTransport] calls change nothing, and
    [smtpSendAs] is the send-as address of the configuration that opened
    it.  [sendOptOutEmail] then hands exactly one mail to the transport,
    addressed to the given recipient, with the generated subject and
    bodies, and with a From header naming that send-as address when it is
    a non-empty string and the identity's own email otherwise; the result
    reports success with the message id exactly when the transport took
    the mail, and the transport's message otherwise.  With no transporter
    open, nothing is handed to the transport and the result is the error
    "Email transport not initialized". *)
Theorem sendOptOutEmail_from_address
        (calls : list MailerCall) (sendMail : EmailSender.Mail -> EmailSender.SendOutcome)
        (org recipient : string) (identity : EmailSender.Identity) :
  let m := runCalls calls EmailSender.loaded in
  let result := fst (EmailSender.sendOptOutEmail sendMail m org recipient identity) in
  let handed := snd (EmailSender.sendOptOutEmail sendMail m org recipient identity) in
  (forall config, EmailSender.transporter m <> None ->
                  EmailSender.initEmailTransport config m = m)
  /\ match EmailSender.transporter m with
     | None =>
         handed = []
         /\ EmailSender.Res.success result = false
         /\ EmailSender.Res.error result = Some "Email transport not initialized"
     | Some opened =>
         exists mail,
           handed = [mail]
           /\ EmailSender.Mail.to mail = recipient
           /\ EmailSender.Mail.from mail
              = EmailSender.fromHeader identity
                  (preferred (EmailSender.sendAs opened) (EmailSender.email identity))
           /\ EmailSender.Mail.subject mail
              = EmailSender.subject (EmailSender.generateOptOutMessage org identity)
           /\ EmailSender.Mail.text mail
              = EmailSender.text (EmailSender.generateOptOutMessage org identity)
           /\ EmailSender.Mail.html mail
              = EmailSender.html (EmailSender.generateOptOutMessage org identity)
           /\ match sendMail mail with
              | EmailSender.Sent id =>
                  EmailSender.Res.success result = true
                  /\ EmailSender.Res.messageId result = Some id
                  /\ EmailSender.Res.error result = None
              | EmailSender.SendThrew message =>
                  EmailSender.Res.success result = false
                  /\ EmailSender.Res.messageId result = None
                  /\ EmailSender.Res.error result = Some message
              end
     end.
Proof.
  cbv zeta. set (m := runCalls calls EmailSender.loaded).
  assert (Hinv : forall c, EmailSender.transporter m = Some c ->
                           EmailSender.smtpSendAs m = EmailSender.sendAs c).
  { apply runCalls_sendAs. simpl. discriminate. }
  split.
  - intros config H. unfold EmailSender.initEmailTransport.
    destruct (EmailSender.transporter m); [reflexivity|contradiction].
  - unfold EmailSender.sendOptOutEmail.
    destruct (EmailSender.transporter m) as [opened|] eqn:E; [|repeat split].
    specialize (Hinv opened eq_refl).
    assert (Hfrom : EmailSender.fromEmailOf m identity
                    = preferred (EmailSender.sendAs opened) (EmailSender.email identity)).
    { unfold EmailSender.fromEmailOf, preferred, Js.nonEmpty. rewrite Hinv.
      destruct (EmailSender.sendAs opened) as [a|]; [|reflexivity].
      simpl. destruct (a =? ""); reflexivity. }
    cbv zeta. rewrite Hfrom.
    match goal with
    | |- context [sendMail ?x] => exists x; destruct (sendMail x) eqn:Es
    end; simpl; rewrite ?Es; repeat split.
Qed.

(** ** [configToIdentity] *)

Lemma firstWord_split s :
  exists rest,
    s = (Config.firstWord s ++ rest)%string
    /\ (rest = "" \/ exists r, rest = String (ascii_of_nat 32) r)
    /\ ~ In (ascii_of_nat 32) (list_ascii_of_string (Config.firstWord s)).
Proof.
  induction s as [|c s [rest [Hs [Hrest Hno]]]]; simpl.
  - exists "". repeat split; auto.
  - destruct (Ascii.eqb_spec c (ascii_of_nat 32)) as [->|Hc].
    + exists (String (ascii_of_nat 32) s). simpl. repeat split; eauto.
    + exists rest. simpl. split; [f_equal; exact Hs|]. split; [exact Hrest|].
      intros [H|H]; [congruence|auto].
Qed.

(** X28. [configToIdentity] takes the salutation from the file when one
    is given and not empty; otherwise the salutation is the part of the
    full name before its first space (the whole name when it has none),
    so it contains no space, and it is empty exactly when the full name
    is empty or starts with a space.  The other fields are copied. *)
Theorem configToIdentity_salutation (config : Config.Config) :
  let given := Config.salutation (Config.identity config) in
  let name := Config.full_name (Config.identity config) in
  let idn := Config.configToIdentity config in
  (forall s, given = Some s -> s <> "" -> EmailSender.salutation idn = s)
  /\ (Js.truthy given = false ->
      (exists rest,
          name = (EmailSender.salutation idn ++ rest)%string
          /\ (rest = "" \/ exists r, rest = String (ascii_of_nat 32) r))
      /\ ~ In (ascii_of_nat 32) (list_ascii_of_string (EmailSender.salutation idn))
      /\ (EmailSender.salutation idn = ""
          <-> name = "" \/ exists r, name = String (ascii_of_nat 32) r))
  /\ EmailSender.fullName idn = name
  /\ EmailSender.email idn = Config.email (Config.identity config)
  /\ EmailSender.phone idn = Config.phone (Config.identity config).
Proof.
  cbv zeta. split; [|split].
  - intros s Hs Hne. simpl. unfold Js.nonEmpty. rewrite Hs. simpl.
    apply String.eqb_neq in Hne. rewrite Hne. reflexivity.
  - intros Hf. simpl. unfold Js.nonEmpty. rewrite Hf.
    destruct (firstWord_split (Config.full_name (Config.identity config)))
      as [rest [Hs [Hrest Hno]]].
    split; [exists rest; auto|]. split; [exact Hno|].
    destruct (Config.full_name (Config.identity config)) as [|c r]; simpl.
    + split; auto.
    + destruct (Ascii.eqb_spec c (ascii_of_nat 32)) as [->|Hc].
      * split; eauto.
      * split; [discriminate|]. intros [H|[r' H]]; [discriminate|].
        injection H as -> _. contradiction.
  - repeat split.
Qed.

(** ** The test mail *)

(** X30. The path of [send-emails --test] from a freshly loaded module:
    before [initEmailTransport], [verifyTransport] throws and
    [sendTestEmail] fails with "Email transport not initialized" without
    handing anything to the transport, and so they do again after
    [closeTransport].  In between, [verifyTransport] tells whether the
    server accepted the connection, which is marked secure exactly when
    the file says [true], "ssl/tls" or "SSL/TLS"; and [sendTestEmail]
    hands one mail to the transport, to the given recipient, under the
    fixed subject, and with the very From header that [sendOptOutEmail]
    uses: the file's [send_as] when that is a non-empty string, the
    identity's email otherwise. *)
Theorem sendTestEmail_path
        (config : Config.Config) (verifies : EmailSender.SmtpConfig -> bool)
        (sendMail : EmailSender.Mail -> EmailSender.SendOutcome)
        (recipient org : string) :
  let identity := Config.configToIdentity config in
  let smtp := Config.configToSmtp config in
  let opened := EmailSender.initEmailTransport smtp EmailSender.loaded in
  let closed := EmailSender.closeTransport opened in
  (forall m, m = EmailSender.loaded \/ m = closed ->
     EmailSender.verifyTransport verifies m = inl "Email transport not initialized"
     /\ snd (EmailSender.sendTestEmail sendMail m recipient identity) = []
     /\ EmailSender.Res.error (fst (EmailSender.sendTestEmail sendMail m recipient identity))
        = Some "Email transport not initialized"
     /\ EmailSender.Res.success
          (fst (EmailSender.sendTestEmail sendMail m recipient identity)) = false)
  /\ EmailSender.verifyTransport verifies opened = inr (verifies smtp)
  /\ (EmailSender.secure smtp = true
      <-> Config.secure (Config.smtp config) = Config.SecureFlag true
          \/ Config.secure (Config.smtp config) = Config.SecureText "ssl/tls"
          \/ Config.secure (Config.smtp config) = Config.SecureText "SSL/TLS")
  /\ exists mail,
      snd (EmailSender.sendTestEmail sendMail opened recipient identity) = [mail]
      /\ EmailSender.Mail.to mail = recipient
      /\ EmailSender.Mail.subject mail = "Test email from Do Not Contact app"
      /\ EmailSender.Mail.from mail
         = EmailSender.fromHeader identity
             (preferred (Config.send_as (Config.smtp config))
                        (Config.email (Config.identity config)))
      /\ (forall mail',
            In mail' (snd (EmailSender.sendOptOutEmail sendMail opened org recipient identity)) ->
            EmailSender.Mail.from mail' = EmailSender.Mail.from mail)
      /\ (EmailSender.Res.success
            (fst (EmailSender.sendTestEmail sendMail opened recipient identity)) = true
          <-> exists id, sendMail mail = EmailSender.Sent id).
Proof.
  cbv zeta. split; [|split; [|split]].
  - intros m [->| ->]; repeat split.
  - reflexivity.
  - simpl. destruct (Config.secure (Config.smtp config)) as [[]|s]; simpl.
    + split; auto.
    + split; [discriminate|]. intros [H|[H|H]]; discriminate.
    + split.
      * intros H. apply orb_true_iff in H.
        destruct H as [H|H]; apply String.eqb_eq in H; subst s; auto.
      * intros [H|[H|H]]; try discriminate; injection H as ->; reflexivity.
  - set (opened := EmailSender.initEmailTransport (Config.configToSmtp config)
                                                  EmailSender.loaded).
    assert (Hfrom : EmailSender.fromEmailOf opened (Config.configToIdentity config)
                    = preferred (Config.send_as (Config.smtp config))
                                (Config.email (Config.identity config))).
    { unfold EmailSender.fromEmailOf, preferred, Js.nonEmpty. simpl.
      destruct (Config.send_as (Config.smtp config)) as [a|]; [|reflexivity].
      simpl. destruct (a =? ""); reflexivity. }
    assert (Htr : EmailSender.transporter opened = Some (Config.configToSmtp config))
      by reflexivity.
    clearbody opened.
    unfold EmailSender.sendTestEmail, EmailSender.sendOptOutEmail.
    rewrite Htr. cbv zeta. rewrite Hfrom.
    match goal with
    | |- context [snd (match sendMail ?x with _ => _ end)] => exists x
    end.
    split; [destruct (sendMail _); reflexivity|].
    split; [reflexivity|]. split; [reflexivity|]. split; [reflexivity|]. split.
    + intros mail' H.
      match type of H with
      | In _ (snd (match sendMail ?y with _ => _ end)) =>
          destruct (sendMail y); simpl in H; destruct H as [<-|[]]; reflexivity
      end.
    + match goal with
      | |- context [sendMail ?x] => destruct (sendMail x) eqn:Es
      end; simpl; split; intros H; eauto; try discriminate.
      destruct H as [id H]. discriminate.
Qed.
